(** * Plug'n'Play map generation (src/util/generate-pnp-map.js)

    A shallow embedding of the store builder ([visit],
    [getPackageInformationStores]), of the two code generators
    ([generateMaps], [generateFindPackageLocator]) and of the emitter
    ([generatePnpMap]), followed by the properties of the specification
    and by further properties of the same functions.

    Conventions.
    - A JavaScript [Map] is an association list in insertion order: the
      generators iterate over the maps, so the order is observable.
    - A JavaScript string is a [string]; its characters stand for the code
      units of the source string, up to U+00FF.  The digest is taken of
      their UTF-8 encoding.
    - An [async] function is a function into [result]: a rejected promise
      is [Err], and the recursion of [visit] is bounded by fuel. *)

From Stdlib Require Import List String Ascii Arith ZArith Lia Bool Permutation Sorted.
From Stdlib Require Import DecimalString DecimalNat.
Import ListNotations.
Local Open Scope string_scope.
Local Open Scope list_scope.
Local Open Scope nat_scope.

Set Implicit Arguments.

(** String concatenation, [a + b] in the source. *)
Infix "+++" := String.append (right associativity, at level 60).

(* ------------------------------------------------------------------ *)
(** ** Keys with decidable equality *)

Class EqDec (A : Type) := eq_dec : forall x y : A, {x = y} + {x <> y}.

#[export] Instance string_EqDec : EqDec string := string_dec.
#[export] Instance nat_EqDec : EqDec nat := Nat.eq_dec.
#[export] Instance option_EqDec {A} `{EqDec A} : EqDec (option A).
Proof. intros [x|] [y|]; try (right; discriminate); [|left; reflexivity].
  destruct (eq_dec x y); [left; congruence | right; congruence]. Defined.
#[export] Instance prod_EqDec {A B} `{EqDec A} `{EqDec B} : EqDec (A * B).
Proof. intros [a b] [a' b'].
  destruct (eq_dec a a'); [|right; congruence].
  destruct (eq_dec b b'); [left; congruence | right; congruence]. Defined.

(* ------------------------------------------------------------------ *)
(** ** JavaScript [Map]: association lists in insertion order *)

Section JSMap.
Context {K V : Type} `{EqDec K}.

Definition Map := list (K * V).

(** [m.get(k)] *)
Fixpoint map_get (m : Map) (k : K) : option V :=
  match m with
  | [] => None
  | (k', v) :: m' => if eq_dec k k' then Some v else map_get m' k
  end.

(** [m.set(k, v)]: an existing key keeps its position, a new key is
    appended. *)
Fixpoint map_set (m : Map) (k : K) (v : V) : Map :=
  match m with
  | [] => [(k, v)]
  | (k', v') :: m' =>
      if eq_dec k k' then (k, v) :: m' else (k', v') :: map_set m' k v
  end.

(** [new Map(entries)] *)
Definition map_of (entries : list (K * V)) : Map :=
  fold_left (fun m kv => map_set m (fst kv) (snd kv)) entries [].

Definition map_keys (m : Map) : list K := map fst m.
Definition map_values (m : Map) : list V := map snd m.
End JSMap.

Arguments Map : clear implicits.

(** [new Set(names)], in insertion order. *)
Fixpoint set_of (names : list string) : list string :=
  match names with
  | [] => []
  | n :: rest => n :: filter (fun x => negb (String.eqb x n)) (set_of rest)
  end.

(** [set.has(x)] *)
Definition set_has (s : list string) (x : string) : bool :=
  existsb (String.eqb x) s.

(** Truthiness of a string: every string but the empty one. *)
Definition truthy (s : string) : bool :=
  match s with EmptyString => false | String _ _ => true end.

(* ------------------------------------------------------------------ *)
(** ** Results of asynchronous, fallible computations *)

Inductive error :=
| ResolverFailure (pattern : string)
| InvariantViolation (message : string)
| SymlinkFailure (src dest : string)
| RealpathFailure (path : string).

Inductive result (A : Type) :=
| Ok (a : A)
| Err (e : error)
| OutOfFuel.
Arguments Err {A} e.
Arguments OutOfFuel {A}.

Definition bind {A B} (c : result A) (f : A -> result B) : result B :=
  match c with
  | Ok a => f a
  | Err e => Err e
  | OutOfFuel => OutOfFuel
  end.

Notation "x <- c ;; k" := (bind c (fun x => k))
  (at level 61, c at next level, right associativity).
Notation "' pat <- c ;; k" := (bind c (fun x => match x with pat => k end))
  (at level 61, pat pattern, c at next level, right associativity).

(** A [for (const x of xs)] loop whose body may throw. *)
Fixpoint forM {A S} (body : A -> S -> result S) (xs : list A) (s : S)
  : result S :=
  match xs with
  | [] => Ok s
  | x :: xs' => s' <- body x s ;; forM body xs' s'
  end.

(** [xs.filter(p)] with a predicate that may throw. *)
Fixpoint filterM {A} (p : A -> result bool) (xs : list A) : result (list A) :=
  match xs with
  | [] => Ok []
  | x :: xs' =>
      b <- p x ;;
      rest <- filterM p xs' ;;
      Ok (if b then x :: rest else rest)
  end.

(* ------------------------------------------------------------------ *)
(** ** [crypto.createHash('sha1')]

    The digest of Node's [crypto] module, after FIPS 180-4: words are
    32-bit integers, written as [Z] with the wrap-around explicit. *)

Module SHA1.
Local Open Scope Z_scope.

Definition w32 (x : Z) : Z := Z.land x 0xFFFFFFFF.
Definition add32 (a b : Z) : Z := w32 (a + b).
Definition rotl (n x : Z) : Z :=
  w32 (Z.lor (Z.shiftl x n) (Z.shiftr x (32 - n))).
Definition not32 (x : Z) : Z := Z.lxor x 0xFFFFFFFF.

(** [hash.update(s)] feeds the UTF-8 encoding of the string: one byte
    for a code unit below 128, two for the others a character holds. *)
Definition utf8 (c : ascii) : list Z :=
  let n := Z.of_nat (nat_of_ascii c) in
  if n <? 128 then [n] else [192 + Z.shiftr n 6; 128 + Z.land n 63].

Definition bytes_of (s : string) : list Z :=
  flat_map utf8 (list_ascii_of_string s).

(** Big-endian bytes of [x], [n] of them. *)
Fixpoint be_bytes (n : nat) (x : Z) : list Z :=
  match n with
  | O => []
  | S n' => be_bytes n' (Z.shiftr x 8) ++ [Z.land x 0xFF]
  end.

(** Message, 0x80, zeros up to 56 mod 64, then the bit length on 8 bytes. *)
Definition pad (msg : list Z) : list Z :=
  let len := Z.of_nat (List.length msg) in
  let zeros := Z.to_nat ((55 - len) mod 64) in
  msg ++ [0x80] ++ repeat 0 zeros ++ be_bytes 8 (8 * len).

Fixpoint words_of (n : nat) (bs : list Z) : list Z :=
  match n, bs with
  | S n', b0 :: b1 :: b2 :: b3 :: rest =>
      (Z.shiftl b0 24 + Z.shiftl b1 16 + Z.shiftl b2 8 + b3)
        :: words_of n' rest
  | _, _ => []
  end.

(** The message schedule, most recent word first. *)
Fixpoint schedule (n : nat) (ws : list Z) : list Z :=
  match n with
  | O => ws
  | S n' =>
      let w := rotl 1 (Z.lxor (Z.lxor (nth 2 ws 0) (nth 7 ws 0))
                              (Z.lxor (nth 13 ws 0) (nth 15 ws 0))) in
      schedule n' (w :: ws)
  end.

Definition f_k (t : nat) (b c d : Z) : Z * Z :=
  if (t <? 20)%nat then
    (Z.lor (Z.land b c) (Z.land (not32 b) d), 0x5A827999)
  else if (t <? 40)%nat then
    (Z.lxor (Z.lxor b c) d, 0x6ED9EBA1)
  else if (t <? 60)%nat then
    (Z.lor (Z.lor (Z.land b c) (Z.land b d)) (Z.land c d), 0x8F1BBCDC)
  else
    (Z.lxor (Z.lxor b c) d, 0xCA62C1D6).

Definition state := (Z * Z * Z * Z * Z)%type.

Fixpoint rounds (t : nat) (ws : list Z) (s : state) : state :=
  match ws with
  | [] => s
  | w :: ws' =>
      let '(a, b, c, d, e) := s in
      let '(f, k) := f_k t b c d in
      let temp := add32 (add32 (add32 (add32 (rotl 5 a) f) e) k) w in
      rounds (S t) ws' (temp, a, rotl 30 b, c, d)
  end.

Definition compress (h : state) (block : list Z) : state :=
  let ws := rev (schedule 64 (rev (words_of 16 block))) in
  let '(h0, h1, h2, h3, h4) := h in
  let '(a, b, c, d, e) := rounds 0 ws h in
  (add32 h0 a, add32 h1 b, add32 h2 c, add32 h3 d, add32 h4 e).

Fixpoint blocks (n : nat) (bs : list Z) (h : state) : state :=
  match n with
  | O => h
  | S n' => blocks n' (skipn 64 bs) (compress h (firstn 64 bs))
  end.

Definition initial : state :=
  (0x67452301, 0xEFCDAB89, 0x98BADCFE, 0x10325476, 0xC3D2E1F0).

Definition hex_digit (x : Z) : ascii :=
  ascii_of_nat (Z.to_nat (if x <? 10 then 48 + x else 87 + x)).

Fixpoint hex_of (n : nat) (x : Z) : string :=
  match n with
  | O => EmptyString
  | S n' => hex_of n' (Z.shiftr x 4) +++ String (hex_digit (Z.land x 0xF)) EmptyString
  end.

(** [hash.update(s)] for each piece, then [hash.digest('hex')], on the
    bytes fed so far. *)
Definition digest_hex (fed : string) : string :=
  let bs := pad (bytes_of fed) in
  let '(h0, h1, h2, h3, h4) := blocks (List.length bs / 64) bs initial in
  hex_of 8 h0 +++ hex_of 8 h1 +++ hex_of 8 h2 +++ hex_of 8 h3 +++ hex_of 8 h4.
End SHA1.

(* ------------------------------------------------------------------ *)
(** ** Data model *)

(** The resolver's reference object ([pkg._reference]): [location] may be
    missing, [dependencies] is the ordered list of further patterns. *)
Record PackageReference := {
  ref_location : option string;
  ref_dependencies : list string;
}.

(** A resolved manifest, with the fields the generator reads.
    [pkg.peerDependencies] is an object used for its keys only. *)
Record Manifest := {
  pkg_name : string;
  pkg_version : string;
  pkg_main : option string;
  pkg_peerDependencies : option (list (string * string));
  pkg_reference : option PackageReference;
}.

Record PackageInformation := {
  packageLocation : string;
  packageMainEntry : option string;
  packageDependencies : Map string string;
}.

(** Keys are [string | null]: [None] is the [null] of the top level. *)
Definition PackageInformationStore := Map (option string) PackageInformation.
Definition PackageInformationStores := Map (option string) PackageInformationStore.

Record Config := { lockfileFolder : string }.

(** Node's [path] module, one instance per platform. *)
Class Path := {
  sep : ascii;
  path_resolve : string -> string -> string;
  path_dirname : string -> string;
}.

(** The file-system collaborator ([./fs.js]): both calls may fail. *)
Class FileSystem := {
  FS : Type;
  symlink : string -> string -> FS -> option FS;
  realpath : string -> FS -> option string;
}.

(** [str.length], [str[i]] and [str.substr(0, n)]. *)
Definition str_get (s : string) (i : nat) : option ascii := String.get i s.
Definition substr0 (n : nat) (s : string) : string := String.substring 0 n s.

(** [loc.replace(/[\\\/]?$/, path.sep)]: the first match of the pattern is
    a final slash or backslash when there is one, and the empty string at
    the end otherwise. *)
Definition is_slash (c : ascii) : bool :=
  (Ascii.eqb c "/" || Ascii.eqb c "\")%bool.

Fixpoint normalizeLocation `{Path} (loc : string) : string :=
  match loc with
  | EmptyString => String sep EmptyString
  | String c EmptyString =>
      if is_slash c then String sep EmptyString
      else String c (String sep EmptyString)
  | String c rest => String c (normalizeLocation rest)
  end.

(** [Object.keys(pkg.peerDependencies || {})] as a [Set]. *)
Definition peerNames (pkg : Manifest) : list string :=
  set_of (match pkg_peerDependencies pkg with
          | Some o => map fst o
          | None => []
          end).

(* ------------------------------------------------------------------ *)
(** ** The store builder: [getPackageInformationStores] *)

Definition invariant {A} (cond : bool) (message : string) (k : result A)
  : result A :=
  if cond then k else Err (InvariantViolation message).

(** The state the traversal mutates: the store and the file system. *)
Definition World `{FileSystem} := (PackageInformationStores * FS)%type.

(** [packageInformationStores.get(name).get(reference)] *)
Definition stores_get (stores : PackageInformationStores)
    (name reference : option string) : option PackageInformation :=
  match map_get stores name with
  | Some store => map_get store reference
  | None => None
  end.

(** Assignment to the [packageDependencies] field of the object stored
    under [(name, reference)]. *)
Definition stores_set_dependencies (stores : PackageInformationStores)
    (name reference : option string) (deps : Map string string)
  : PackageInformationStores :=
  match map_get stores name with
  | Some store =>
      match map_get store reference with
      | Some info =>
          map_set stores name
            (map_set store reference
               {| packageLocation := packageLocation info;
                  packageMainEntry := packageMainEntry info;
                  packageDependencies := deps |})
      | None => stores
      end
  | None => stores
  end.

Section Builder.
Context `{Path} `{FileSystem}.

(** [resolver.getStrictResolvedPattern]: [None] when it throws. *)
Variable getStrictResolvedPattern : string -> option Manifest.

Definition getHashFrom (data : list string) : string :=
  SHA1.digest_hex (fold_left String.append data EmptyString).

Definition ResolverEntry := (Manifest * PackageReference * string)%type.

Definition getResolverEntry (pattern : string)
  : result (option ResolverEntry) :=
  match getStrictResolvedPattern pattern with
  | None => Err (ResolverFailure pattern)
  | Some pkg =>
      match pkg_reference pkg with
      | None => Ok None
      | Some ref =>
          match ref_location ref with
          | None => Ok None
          | Some loc => if truthy loc then Ok (Some (pkg, ref, loc)) else Ok None
          end
      end
  end.

(** The scope of one [visit]: [resolutions] and [locations]. *)
Definition Scope := (Map string string * Map string string)%type.

(** Body of the first loop of [visit] (lines 150-182). *)
Definition prepass (parentData : list string) (pattern : string)
    (st : Scope * FS) : result (Scope * FS) :=
  let '((resolutions, locations), fs) := st in
  entry <- getResolverEntry pattern ;;
  match entry with
  | None => Ok st
  | Some (pkg, _, loc) =>
      let packageName := pkg_name pkg in
      let packageReference := pkg_version pkg in
      let peerDependencies := peerNames pkg in
      '(loc, packageReference, fs) <-
        (if 0 <? List.length peerDependencies then
           let hash := getHashFrom (parentData ++ [packageName; packageReference]) in
           let newLoc := path_resolve (path_dirname loc) ("pnp-" +++ hash) in
           match symlink loc newLoc fs with
           | Some fs' => Ok (newLoc, "pnp:" +++ hash, fs')
           | None => Err (SymlinkFailure loc newLoc)
           end
         else Ok (loc, packageReference, fs)) ;;
      Ok ((map_set resolutions packageName packageReference,
           map_set locations packageName loc), fs)
  end.

(** The filter of lines 226-229; [!pkg] never holds of a manifest. *)
Definition isDirectDependency (peerDependencies : list string)
    (pattern : string) : result bool :=
  match getStrictResolvedPattern pattern with
  | None => Err (ResolverFailure pattern)
  | Some pkg => Ok (negb (set_has peerDependencies (pkg_name pkg)))
  end.

(** Lines 236-242: the peer names resolved in the scope are added. *)
Definition injectPeers (resolutions : Map string string)
    (peerDependencies : list string) (deps : Map string string)
  : Map string string :=
  fold_left
    (fun deps dependencyName =>
       match map_get resolutions dependencyName with
       | Some dependencyReference =>
           if truthy dependencyReference
           then map_set deps dependencyName dependencyReference
           else deps
       | None => deps
       end)
    peerDependencies deps.

Definition referenceMessage :=
  "Package reference should have been computed during the pre-pass".
Definition locationMessage :=
  "Package location should have been computed during the pre-pass".

(** Body of the second loop of [visit] (lines 186-243); [recurse] is the
    recursive call. *)
Definition insertion
    (recurse : list string -> list string -> World
               -> result (Map string string * World))
    (scope : Scope) (pattern : string) (w : World) : result World :=
  let '(resolutions, locations) := scope in
  let '(stores, fs) := w in
  entry <- getResolverEntry pattern ;;
  match entry with
  | None => Ok w
  | Some (pkg, ref, _) =>
      let packageName := pkg_name pkg in
      match map_get resolutions packageName with
      | None => Err (InvariantViolation referenceMessage)
      | Some packageReference =>
      invariant (truthy packageReference) referenceMessage
      match map_get locations packageName with
      | None => Err (InvariantViolation locationMessage)
      | Some loc =>
      invariant (truthy loc) locationMessage
      (let '(stores, packageInformationStore) :=
         match map_get stores (Some packageName) with
         | Some store => (stores, store)
         | None => (map_set stores (Some packageName) [], [])
         end in
       match map_get packageInformationStore (Some packageReference) with
       | Some _ => Ok (stores, fs)
       | None =>
           let packageInformation :=
             {| packageMainEntry := pkg_main pkg;
                packageLocation := normalizeLocation loc;
                packageDependencies := [] |} in
           let peerDependencies := peerNames pkg in
           directDependencies <-
             filterM (isDirectDependency peerDependencies)
                     (ref_dependencies ref) ;;
           let stores :=
             map_set stores (Some packageName)
               (map_set packageInformationStore (Some packageReference)
                        packageInformation) in
           '(dependencies, (stores, fs)) <-
             recurse directDependencies [packageName; packageReference]
                     (stores, fs) ;;
           Ok (stores_set_dependencies stores
                 (Some packageName) (Some packageReference)
                 (injectPeers resolutions peerDependencies dependencies),
               fs)
       end)
      end
      end
  end.

(** [visit(seedPatterns, parentData)] on the world [w]. *)
Fixpoint visit (fuel : nat) (seedPatterns : list string)
    (parentData : list string) (w : World)
  : result (Map string string * World) :=
  match fuel with
  | O => OutOfFuel
  | S fuel' =>
      let '(stores, fs) := w in
      '(scope, fs) <- forM (prepass parentData) seedPatterns (([], []), fs) ;;
      w' <- forM (insertion (visit fuel') scope) seedPatterns (stores, fs) ;;
      Ok (fst scope, w')
  end.

Definition getPackageInformationStores (fuel : nat) (config : Config)
    (seedPatterns : list string) (fs : FS)
  : result World :=
  match realpath (lockfileFolder config) fs with
  | None => Err (RealpathFailure (lockfileFolder config))
  | Some root =>
      '(dependencies, (stores, fs)) <- visit fuel seedPatterns [] ([], fs) ;;
      Ok (map_set stores None
            [(None, {| packageMainEntry := None;
                       packageLocation := normalizeLocation root;
                       packageDependencies := dependencies |})],
          fs)
  end.
End Builder.

(* ------------------------------------------------------------------ *)
(** ** Emitting the static tables *)

Definition nl : string := String (ascii_of_nat 10) EmptyString.
Definition quote : string := String (ascii_of_nat 34) EmptyString.
Definition backslash : string := String (ascii_of_nat 92) EmptyString.

Definition hex4 (n : nat) : string := SHA1.hex_of 4 (Z.of_nat n).

(** [JSON.stringify] of a string: quotes, with the escapes of
    QuoteJSONString. *)
Definition escapeChar (c : ascii) : string :=
  let n := nat_of_ascii c in
  if n =? 34 then backslash +++ quote
  else if n =? 92 then backslash +++ backslash
  else if n =? 8 then backslash +++ "b"
  else if n =? 9 then backslash +++ "t"
  else if n =? 10 then backslash +++ "n"
  else if n =? 12 then backslash +++ "f"
  else if n =? 13 then backslash +++ "r"
  else if n <? 32 then backslash +++ "u" +++ hex4 n
  else String c EmptyString.

Definition stringify (s : string) : string :=
  quote +++ String.concat EmptyString (map escapeChar (list_ascii_of_string s))
        +++ quote.

(** [JSON.stringify] of a [string | null]. *)
Definition stringifyKey (k : option string) : string :=
  match k with
  | Some s => stringify s
  | None => "null"
  end.

(** [JSON.stringify({name, reference})] *)
Definition stringifyLocator (name : string) (reference : option string)
  : string :=
  "{" +++ quote +++ "name" +++ quote +++ ":" +++ stringify name +++ ","
      +++ quote +++ "reference" +++ quote +++ ":" +++ stringifyKey reference
      +++ "}".

(** The pieces of text a loop appends, in order. *)
Definition concatMap {A} (f : A -> string) (xs : list A) : string :=
  String.concat EmptyString (map f xs).

(** The store as the generators traverse it: one triple per
    [(packageName, packageReference)], outer map first. *)
Definition entries (stores : PackageInformationStores)
  : list (option string * option string * PackageInformation) :=
  flat_map (fun '(packageName, store) =>
              map (fun '(packageReference, info) =>
                     (packageName, packageReference, info)) store)
           stores.

Definition generateMaps (stores : PackageInformationStores) : string :=
  "let packageInformationStores = new Map([" +++ nl
  +++ concatMap (fun '(packageName, store) =>
        "  [" +++ stringifyKey packageName +++ ", new Map([" +++ nl
        +++ concatMap (fun '(packageReference, info) =>
              "    [" +++ stringifyKey packageReference +++ ", {" +++ nl
              +++ "      packageLocation: "
              +++ stringify (packageLocation info) +++ "," +++ nl
              +++ match packageMainEntry info with
                  | Some main =>
                      if truthy main
                      then "      packageMainEntry: " +++ stringify main
                           +++ "," +++ nl
                      else EmptyString
                  | None => EmptyString
                  end
              +++ "      packageDependencies: new Map([" +++ nl
              +++ concatMap (fun '(dependencyName, dependencyReference) =>
                    "        [" +++ stringify dependencyName +++ ", "
                    +++ stringify dependencyReference +++ "]," +++ nl)
                    (packageDependencies info)
              +++ "      ])," +++ nl
              +++ "    }]," +++ nl) store
        +++ "  ])]," +++ nl) stores
  +++ "]);" +++ nl
  +++ nl
  +++ "let locatorsByLocations = new Map([" +++ nl
  +++ concatMap (fun '(packageName, packageReference, info) =>
        match packageName with
        | Some name =>
            "  [" +++ stringify (packageLocation info) +++ ", "
            +++ stringifyLocator name packageReference +++ "]," +++ nl
        | None =>
            "  [" +++ stringify (packageLocation info)
            +++ ", topLevelLocator]," +++ nl
        end) (entries stores)
  +++ "]);" +++ nl.

(** Lines 72-80: how many locations have each length, in the order the
    lengths are first met. *)
Definition lengths (stores : PackageInformationStores) : Map nat nat :=
  fold_left
    (fun lengths '(_, _, info) =>
       let n := String.length (packageLocation info) in
       map_set lengths n
         (match map_get lengths n with Some c => c | None => 0 end + 1))
    (entries stores) [].

(** [Array.prototype.sort] is stable: entries the comparator ranks equal
    keep their order.  With [(a, b) => b[1] - a[1]] an entry goes before
    the entries whose count is not larger. *)
Fixpoint sort_insert (x : nat * nat) (sorted : list (nat * nat))
  : list (nat * nat) :=
  match sorted with
  | [] => [x]
  | y :: rest =>
      if snd y <=? snd x then x :: y :: rest else y :: sort_insert x rest
  end.

Fixpoint sort_by_count (l : list (nat * nat)) : list (nat * nat) :=
  match l with
  | [] => []
  | x :: rest => sort_insert x (sort_by_count rest)
  end.

Definition sortedLengths (stores : PackageInformationStores)
  : list (nat * nat) :=
  sort_by_count (lengths stores).

Definition decimal (n : nat) : string := NilZero.string_of_uint (Nat.to_uint n).

(** The test emitted for one length (lines 92-95). *)
Definition emitTest (length : nat) : string :=
  nl
  +++ "  if (location.length >= " +++ decimal length
  +++ " && location[" +++ decimal length +++ " - 1] === path.sep)" +++ nl
  +++ "    if (match = locatorsByLocations.get(location.substr(0, "
  +++ decimal length +++ ")))" +++ nl
  +++ "      return match;" +++ nl.

Definition generateFindPackageLocator (stores : PackageInformationStores)
  : string :=
  "exports.findPackageLocator = function findPackageLocator(location) {" +++ nl
  +++ "  let match;" +++ nl
  +++ concatMap (fun '(length, _) => emitTest length) (sortedLengths stores)
  +++ nl
  +++ "  return null;" +++ nl
  +++ "};" +++ nl.

(* ------------------------------------------------------------------ *)
(** ** What the emitted tables compute *)

(** A locator of the emitted [locatorsByLocations]: the template's
    [topLevelLocator], or a parsed [{name, reference}]. *)
Inductive Locator :=
| topLevelLocator
| PackageLocator (name : string) (reference : option string).

(** The [locatorsByLocations] that [generateMaps] writes: [new Map] of
    the pairs in the order of its text, as [readMaps] reads them.  The
    table of the generated file is read from the text put in the place
    of the marker ([generatedTables]); the two agree when the store
    holds no dollar sign. *)
Definition locatorsByLocations (stores : PackageInformationStores)
  : Map string Locator :=
  map_of (map (fun '(packageName, packageReference, info) =>
                 (packageLocation info,
                  match packageName with
                  | Some name => PackageLocator name packageReference
                  | None => topLevelLocator
                  end)) (entries stores)).

(** The chain of tests of the emitted [findPackageLocator]; the index
    [length - 1] of an empty prefix is no index of the string. *)
Fixpoint findIn `{Path} (table : Map string Locator) (tests : list nat)
    (location : string) : option Locator :=
  match tests with
  | [] => None
  | length :: rest =>
      if ((length <=? String.length location)
          && match length with
             | O => false
             | S i => match str_get location i with
                      | Some c => Ascii.eqb c sep
                      | None => false
                      end
             end)%bool
      then match map_get table (substr0 length location) with
           | Some locator => Some locator
           | None => findIn table rest location
           end
      else findIn table rest location
  end.

Definition findPackageLocator `{Path} (stores : PackageInformationStores)
    (location : string) : option Locator :=
  findIn (locatorsByLocations stores) (map fst (sortedLengths stores)) location.

(* ------------------------------------------------------------------ *)
(** ** The emitter: [generatePnpMap] *)

Definition marker : string := "$$SETUP_STATIC_TABLES();".

(** The first match of [/\$\$SETUP_STATIC_TABLES\(\);/]: the text before
    it and the text after it. *)
Fixpoint findMarker (s : string) : option (string * string) :=
  if String.prefix marker s
  then Some (EmptyString,
             String.substring (String.length marker)
                              (String.length s - String.length marker) s)
  else match s with
       | EmptyString => None
       | String c rest =>
           match findMarker rest with
           | Some (before, after) => Some (String c before, after)
           | None => None
           end
       end.

(** GetSubstitution for a pattern without groups: [$$], [$&], [$`] and
    [$'] are expanded in the replacement text, any other [$] stays. *)
Fixpoint substitute (before matched after replacement : string) : string :=
  match replacement with
  | String "$" (String c rest as tail) =>
      if Ascii.eqb c "$" then "$" +++ substitute before matched after rest
      else if Ascii.eqb c "&" then matched +++ substitute before matched after rest
      else if Ascii.eqb c "`" then before +++ substitute before matched after rest
      else if Ascii.eqb c "'" then after +++ substitute before matched after rest
      else String "$" (substitute before matched after tail)
  | String c rest => String c (substitute before matched after rest)
  | EmptyString => EmptyString
  end.

(** [template.replace(/\$\$SETUP_STATIC_TABLES\(\);/, replacement)] *)
Definition replaceMarker (template replacement : string) : string :=
  match findMarker template with
  | Some (before, after) =>
      before +++ substitute before marker after replacement +++ after
  | None => template
  end.

Section Emitter.
Context `{Path} `{FileSystem}.
Variable getStrictResolvedPattern : string -> option Manifest.

(** The template [generate-pnp-map-api.tpl.js], imported as a string. *)
Variable pnpApi : string.

Definition generatePnpMap (fuel : nat) (config : Config)
    (seedPatterns : list string) (fs : FS) : result (string * FS) :=
  '(packageInformationStores, fs) <-
    getPackageInformationStores getStrictResolvedPattern fuel config
                                seedPatterns fs ;;
  let setupStaticTables :=
    generateMaps packageInformationStores
    +++ generateFindPackageLocator packageInformationStores in
  Ok (replaceMarker pnpApi setupStaticTables, fs).
End Emitter.

(* ------------------------------------------------------------------ *)
(** ** Vocabulary of the properties

    What the statements below speak of: the store as a two-level map,
    the outcomes of one iteration of each loop of [visit], and the
    orders and shapes the specification names. *)

Unset Implicit Arguments.

(** Insertion of a package information under [(name, reference)], as
    lines 205-210 and 232 perform it. *)
Definition stores_insert (stores : PackageInformationStores)
    (name reference : option string) (info : PackageInformation)
  : PackageInformationStores :=
  match map_get stores name with
  | Some store => map_set stores name (map_set store reference info)
  | None => map_set stores name [(reference, info)]
  end.

(** [info] after the assignment of [deps] to its [packageDependencies]. *)
Definition with_dependencies (deps : Map string string)
    (info : PackageInformation) : PackageInformation :=
  {| packageLocation := packageLocation info;
     packageMainEntry := packageMainEntry info;
     packageDependencies := deps |}.

(** [r'] is [r] whenever [r] is a result. *)
Definition refines {A} (r r' : result A) : Prop := r <> OutOfFuel -> r' = r.

(** Every information of [s] is found unchanged in [s']. *)
Definition extends (s s' : PackageInformationStores) : Prop :=
  forall name reference info,
    stores_get s name reference = Some info ->
    stores_get s' name reference = Some info.

(** No key occurs twice, in the outer map or in an inner one. *)
Definition wf_stores (stores : PackageInformationStores) : Prop :=
  NoDup (map_keys stores) /\
  Forall (fun kv => NoDup (map_keys (snd kv))) stores.

(** The identities of [universe] that the store does not hold yet. *)
Definition missing (universe : list (option string * option string))
    (stores : PackageInformationStores) : nat :=
  List.length
    (filter (fun k => match stores_get stores (fst k) (snd k) with
                      | Some _ => false
                      | None => true
                      end) universe).

(** The resolver yields no reference object, or a reference object with
    no on-disk location (missing, or the empty string). *)
Definition unlocated (pkg : Manifest) : Prop :=
  pkg_reference pkg = None \/
  exists ref, pkg_reference pkg = Some ref /\
              (ref_location ref = None \/ ref_location ref = Some EmptyString).

(** The error of a failed [invariant]. *)
Definition is_violation (e : error) : Prop :=
  match e with
  | InvariantViolation _ => True
  | _ => False
  end.

(** Both maps of the scope hold a truthy value under [name]. *)
Definition bound (scope : Scope) (name : string) : Prop :=
  exists reference loc,
    map_get (fst scope) name = Some reference /\ truthy reference = true /\
    map_get (snd scope) name = Some loc /\ truthy loc = true.

(** The reference a scope offers under a name: the recorded one, when it
    is truthy. *)
Definition scopeReference (resolutions : Map string string) (name : string)
  : option string :=
  match map_get resolutions name with
  | Some reference => if truthy reference then Some reference else None
  | None => None
  end.

(** What the pre-pass records for a resolved package under [parentData]. *)
Definition referenceIn (parentData : list string) (pkg : Manifest) : string :=
  if 0 <? List.length (peerNames pkg)
  then "pnp:" +++ getHashFrom (parentData ++ [pkg_name pkg; pkg_version pkg])
  else pkg_version pkg.

(** [c] is the last character of [s]. *)
Definition endsWith (s : string) (c : ascii) : Prop :=
  exists body, s = body +++ String c EmptyString.

(** The text ends with the separator, and what precedes it does not. *)
Definition endsWithExactlyOne (s : string) (c : ascii) : Prop :=
  exists body, s = body +++ String c EmptyString /\ ~ endsWith body c.

(** [a] stands before [b] in the list. *)
Inductive precedes {A : Type} : list A -> A -> A -> Prop :=
| precedes_here a b l : In b l -> precedes (a :: l) a b
| precedes_later c l a b : precedes l a b -> precedes (c :: l) a b.

(** [x] is met, in [seen], before any occurrence of [y]. *)
Definition seenBefore (seen : list nat) (x y : nat) : Prop :=
  x <> y /\ exists l1 l2, seen = l1 ++ x :: l2 /\ ~ In y l1.

(** The lengths of the locations, in the order the generator reads them. *)
Definition locationLengths (stores : PackageInformationStores) : list nat :=
  map (fun e => String.length (packageLocation (snd e))) (entries stores).

(** The counting loop of lines 74-80 on the lengths alone. *)
Definition tally (seen : list nat) (acc : Map nat nat) : Map nat nat :=
  fold_left
    (fun acc n =>
       map_set acc n (match map_get acc n with Some c => c | None => 0 end + 1))
    seen acc.

(** What the counting map knows about the lengths seen so far. *)
Definition tallied (seen : list nat) (acc : Map nat nat) : Prop :=
  (forall n, map_get acc n
             = if count_occ Nat.eq_dec seen n =? 0 then None
               else Some (count_occ Nat.eq_dec seen n)) /\
  NoDup (map_keys acc) /\
  (forall a b, precedes (map_keys acc) a b -> seenBefore seen a b).

(** The locator the emitted table holds for an entry of the store. *)
Definition locatorOf (name reference : option string) : Locator :=
  match name with
  | Some n => PackageLocator n reference
  | None => topLevelLocator
  end.

Section Outcomes.
Context `{Path} `{FileSystem}.
Variable resolver : string -> option Manifest.

(** The location the pre-pass records under [parentData]. *)
Definition locationIn (parentData : list string) (pkg : Manifest)
    (loc : string) : string :=
  if 0 <? List.length (peerNames pkg)
  then path_resolve (path_dirname loc)
         ("pnp-" +++ getHashFrom (parentData ++ [pkg_name pkg; pkg_version pkg]))
  else loc.

(** The information line 218 builds. *)
Definition newInformation (pkg : Manifest) (loc : string) : PackageInformation :=
  {| packageMainEntry := pkg_main pkg;
     packageLocation := normalizeLocation loc;
     packageDependencies := [] |}.

(** Every location of the store is a normalized location. *)
Definition located (stores : PackageInformationStores) : Prop :=
  forall name reference info,
    stores_get stores name reference = Some info ->
    exists raw, packageLocation info = normalizeLocation raw.

(** The ways one iteration of the first loop completes. *)
Inductive prepass_outcome (parentData : list string) (pattern : string)
    (resolutions locations : Map string string) (fs : FS)
  : Scope * FS -> Prop :=
| prepass_skipped :
    getResolverEntry resolver pattern = Ok None ->
    prepass_outcome parentData pattern resolutions locations fs
      ((resolutions, locations), fs)
| prepass_plain pkg ref loc :
    getResolverEntry resolver pattern = Ok (Some (pkg, ref, loc)) ->
    peerNames pkg = [] ->
    prepass_outcome parentData pattern resolutions locations fs
      ((map_set resolutions (pkg_name pkg) (pkg_version pkg),
        map_set locations (pkg_name pkg) loc), fs)
| prepass_virtual pkg ref loc fs' :
    getResolverEntry resolver pattern = Ok (Some (pkg, ref, loc)) ->
    peerNames pkg <> [] ->
    symlink loc (locationIn parentData pkg loc) fs = Some fs' ->
    prepass_outcome parentData pattern resolutions locations fs
      ((map_set resolutions (pkg_name pkg) (referenceIn parentData pkg),
        map_set locations (pkg_name pkg) (locationIn parentData pkg loc)), fs').

(** The ways one iteration of the second loop completes. *)
Inductive insertion_outcome
    (recurse : list string -> list string -> World
               -> result (Map string string * World))
    (resolutions locations : Map string string) (pattern : string)
    (stores : PackageInformationStores) (fs : FS) : World -> Prop :=
| insertion_skipped :
    getResolverEntry resolver pattern = Ok None ->
    insertion_outcome recurse resolutions locations pattern stores fs
      (stores, fs)
| insertion_reused pkg ref loc0 reference loc info :
    getResolverEntry resolver pattern = Ok (Some (pkg, ref, loc0)) ->
    map_get resolutions (pkg_name pkg) = Some reference ->
    truthy reference = true ->
    map_get locations (pkg_name pkg) = Some loc ->
    truthy loc = true ->
    stores_get stores (Some (pkg_name pkg)) (Some reference) = Some info ->
    insertion_outcome recurse resolutions locations pattern stores fs
      (stores, fs)
| insertion_new pkg ref loc0 reference loc direct deps stores' fs' :
    getResolverEntry resolver pattern = Ok (Some (pkg, ref, loc0)) ->
    map_get resolutions (pkg_name pkg) = Some reference ->
    truthy reference = true ->
    map_get locations (pkg_name pkg) = Some loc ->
    truthy loc = true ->
    stores_get stores (Some (pkg_name pkg)) (Some reference) = None ->
    filterM (isDirectDependency resolver (peerNames pkg)) (ref_dependencies ref)
      = Ok direct ->
    recurse direct [pkg_name pkg; reference]
      (stores_insert stores (Some (pkg_name pkg)) (Some reference)
                     (newInformation pkg loc), fs)
      = Ok (deps, (stores', fs')) ->
    insertion_outcome recurse resolutions locations pattern stores fs
      (stores_set_dependencies stores' (Some (pkg_name pkg)) (Some reference)
         (injectPeers resolutions (peerNames pkg) deps), fs').

(** [universe] holds the identity of every resolved package below
    [parentData]. *)
Definition covered (universe : list (option string * option string))
    (parentData : list string) : Prop :=
  forall pattern pkg ref loc,
    getResolverEntry resolver pattern = Ok (Some (pkg, ref, loc)) ->
    In (Some (pkg_name pkg), Some (referenceIn parentData pkg)) universe.

End Outcomes.

(* ------------------------------------------------------------------ *)
(** ** Reading the emitted text back

    The literals [JSON.stringify] writes are read by the JavaScript
    parser when the generated file is loaded, and the arrays of pairs
    are handed to [new Map]. *)

(** The value of a hexadecimal digit. *)
Definition hexValue (c : ascii) : option nat :=
  let n := nat_of_ascii c in
  if ((48 <=? n) && (n <=? 57))%bool then Some (n - 48)
  else if ((97 <=? n) && (n <=? 102))%bool then Some (n - 87)
  else if ((65 <=? n) && (n <=? 70))%bool then Some (n - 55)
  else None.

(** The character an escape letter stands for. *)
Definition unescape (c : ascii) : option ascii :=
  let n := nat_of_ascii c in
  if n =? 34 then Some c
  else if n =? 92 then Some c
  else if n =? 47 then Some c
  else if n =? 98 then Some (ascii_of_nat 8)
  else if n =? 116 then Some (ascii_of_nat 9)
  else if n =? 110 then Some (ascii_of_nat 10)
  else if n =? 102 then Some (ascii_of_nat 12)
  else if n =? 114 then Some (ascii_of_nat 13)
  else None.

Definition prepend (c : ascii) (r : option (string * string))
  : option (string * string) :=
  match r with
  | Some (value, rest) => Some (String c value, rest)
  | None => None
  end.

(** The characters of a double-quoted literal, from after the opening
    quote to the closing one: the value, and the text after the literal.
    The escapes are those of JSON; a line terminator inside the literal,
    another escape or a missing closing quote is refused. *)
Fixpoint readCharacters (s : string) : option (string * string) :=
  match s with
  | EmptyString => None
  | String c rest =>
      let n := nat_of_ascii c in
      if n =? 34 then Some (EmptyString, rest)
      else if n =? 92 then
        match rest with
        | EmptyString => None
        | String e rest' =>
            if nat_of_ascii e =? 117 then
              match rest' with
              | String h1 (String h2 (String h3 (String h4 rest''))) =>
                  match hexValue h1, hexValue h2, hexValue h3, hexValue h4 with
                  | Some a, Some b, Some c, Some d =>
                      let code := ((a * 16 + b) * 16 + c) * 16 + d in
                      if code <? 256
                      then prepend (ascii_of_nat code) (readCharacters rest'')
                      else None
                  | _, _, _, _ => None
                  end
              | _ => None
              end
            else match unescape e with
                 | Some c' => prepend c' (readCharacters rest')
                 | None => None
                 end
        end
      else if ((n =? 10) || (n =? 13))%bool then None
      else prepend c (readCharacters rest)
  end.

(** A double-quoted literal at the start of the text. *)
Definition readLiteral (s : string) : option (string * string) :=
  match s with
  | String c rest => if nat_of_ascii c =? 34 then readCharacters rest else None
  | EmptyString => None
  end.

(** The information the emitted object literal holds: the
    [packageMainEntry] line is written for a truthy main entry only, and
    the dependencies go through [new Map]. *)
Definition emittedInformation (info : PackageInformation) : PackageInformation :=
  {| packageLocation := packageLocation info;
     packageMainEntry := match packageMainEntry info with
                         | Some main => if truthy main then Some main else None
                         | None => None
                         end;
     packageDependencies := map_of (packageDependencies info) |}.

(** The [packageInformationStores] that [generateMaps] writes: [new Map]
    at each level, of the pairs in the order of its text, as [readMaps]
    reads them. *)
Definition emittedStores (stores : PackageInformationStores)
  : PackageInformationStores :=
  map_of (map (fun '(packageName, store) =>
                 (packageName,
                  map_of (map (fun '(packageReference, info) =>
                                 (packageReference, emittedInformation info))
                              store)))
              stores).

(** The store without the main entries that are the empty string. *)
Definition withoutEmptyMain (stores : PackageInformationStores)
  : PackageInformationStores :=
  map (fun '(packageName, store) =>
         (packageName,
          map (fun '(packageReference, info) =>
                 (packageReference,
                  {| packageLocation := packageLocation info;
                     packageMainEntry :=
                       match packageMainEntry info with
                       | Some main => if truthy main then Some main else None
                       | None => None
                       end;
                     packageDependencies := packageDependencies info |}))
              store))
      stores.

(** *** The tables and the function of the generated file

    The text [generateMaps] and [generateFindPackageLocator] write is
    JavaScript: two [new Map] of arrays of pairs, and a function made of
    one test per length.  The readers below read texts of that shape, as
    loading the file does, and refuse any other. *)

Notation "'let?' p ':=' c 'in' k" :=
  (match c with Some p => k | None => None end)
  (at level 10, p pattern, c at level 100, k at level 200).

(** The text after [literal], when the text begins with it. *)
Fixpoint expect (literal s : string) : option string :=
  match literal with
  | EmptyString => Some s
  | String c literal' =>
      match s with
      | String d s' => if Ascii.eqb c d then expect literal' s' else None
      | EmptyString => None
      end
  end.

(** The elements up to the closing text; [fuel] bounds their number. *)
Fixpoint readMany {A} (fuel : nat) (close : string)
    (element : string -> option (A * string)) (s : string)
  : option (list A * string) :=
  match expect close s with
  | Some rest => Some ([], rest)
  | None =>
      match fuel with
      | O => None
      | S fuel' =>
          let? (x, rest) := element s in
          let? (xs, rest') := readMany fuel' close element rest in
          Some (x :: xs, rest')
      end
  end.

(** An array literal: each element takes at least one character. *)
Definition readArray {A} (close : string)
    (element : string -> option (A * string)) (s : string)
  : option (list A * string) :=
  readMany (String.length s) close element s.

(** [null] or a string literal. *)
Definition readKey (s : string) : option (option string * string) :=
  match expect "null" s with
  | Some rest => Some (None, rest)
  | None => let? (value, rest) := readLiteral s in Some (Some value, rest)
  end.

(** A decimal number: the longest run of digits, one at least. *)
Definition digitValue (c : ascii) : option nat :=
  let n := nat_of_ascii c in
  if ((48 <=? n) && (n <=? 57))%bool then Some (n - 48) else None.

Fixpoint readDigits (acc : nat) (s : string) : nat * string :=
  match s with
  | EmptyString => (acc, s)
  | String c rest =>
      match digitValue c with
      | Some d => readDigits (10 * acc + d) rest
      | None => (acc, s)
      end
  end.

Definition readDecimal (s : string) : option (nat * string) :=
  match s with
  | EmptyString => None
  | String c _ =>
      match digitValue c with
      | Some _ => Some (readDigits 0 s)
      | None => None
      end
  end.

(** One pair of a [packageDependencies] map. *)
Definition readDependency (s : string) : option ((string * string) * string) :=
  let? s := expect "        [" s in
  let? (dependencyName, s) := readLiteral s in
  let? s := expect ", " s in
  let? (dependencyReference, s) := readLiteral s in
  let? s := expect "]," s in
  let? s := expect nl s in
  Some ((dependencyName, dependencyReference), s).

(** One pair of a package information store: the reference and the
    object, whose [packageMainEntry] line may be missing. *)
Definition readInformation (s : string)
  : option ((option string * PackageInformation) * string) :=
  let? s := expect "    [" s in
  let? (packageReference, s) := readKey s in
  let? s := expect ", {" s in
  let? s := expect nl s in
  let? s := expect "      packageLocation: " s in
  let? (location, s) := readLiteral s in
  let? s := expect "," s in
  let? s := expect nl s in
  let? (main, s) :=
    match expect "      packageMainEntry: " s with
    | Some s =>
        let? (main, s) := readLiteral s in
        let? s := expect "," s in
        let? s := expect nl s in
        Some (Some main, s)
    | None => Some (None, s)
    end in
  let? s := expect "      packageDependencies: new Map([" s in
  let? s := expect nl s in
  let? (dependencies, s) := readArray ("      ])," +++ nl) readDependency s in
  let? s := expect "    }]," s in
  let? s := expect nl s in
  Some ((packageReference,
         {| packageLocation := location;
            packageMainEntry := main;
            packageDependencies := map_of dependencies |}), s).

(** One pair of [packageInformationStores]. *)
Definition readStore (s : string)
  : option ((option string * PackageInformationStore) * string) :=
  let? s := expect "  [" s in
  let? (packageName, s) := readKey s in
  let? s := expect ", new Map([" s in
  let? s := expect nl s in
  let? (informations, s) := readArray ("  ])]," +++ nl) readInformation s in
  Some ((packageName, map_of informations), s).

(** The value of a pair of [locatorsByLocations]: the template's
    [topLevelLocator], or an object literal. *)
Definition readLocator (s : string) : option (Locator * string) :=
  match expect "topLevelLocator" s with
  | Some rest => Some (topLevelLocator, rest)
  | None =>
      let? s := expect "{" s in
      let? s := expect quote s in
      let? s := expect "name" s in
      let? s := expect quote s in
      let? s := expect ":" s in
      let? (name, s) := readLiteral s in
      let? s := expect "," s in
      let? s := expect quote s in
      let? s := expect "reference" s in
      let? s := expect quote s in
      let? s := expect ":" s in
      let? (reference, s) := readKey s in
      let? s := expect "}" s in
      Some (PackageLocator name reference, s)
  end.

Definition readLocation (s : string) : option ((string * Locator) * string) :=
  let? s := expect "  [" s in
  let? (location, s) := readLiteral s in
  let? s := expect ", " s in
  let? (locator, s) := readLocator s in
  let? s := expect "]," s in
  let? s := expect nl s in
  Some ((location, locator), s).

(** The two tables of [generateMaps]. *)
Definition readMaps (s : string)
  : option ((PackageInformationStores * Map string Locator) * string) :=
  let? s := expect "let packageInformationStores = new Map([" s in
  let? s := expect nl s in
  let? (stores, s) := readArray ("]);" +++ nl) readStore s in
  let? s := expect nl s in
  let? s := expect "let locatorsByLocations = new Map([" s in
  let? s := expect nl s in
  let? (locators, s) := readArray ("]);" +++ nl) readLocation s in
  Some ((map_of stores, map_of locators), s).

(** One test of the emitted function: the length it tests, written
    three times. *)
Definition readTest (s : string) : option (nat * string) :=
  let? s := expect nl s in
  let? s := expect "  if (location.length >= " s in
  let? (length, s) := readDecimal s in
  let? s := expect " && location[" s in
  let? (index, s) := readDecimal s in
  let? s := expect " - 1] === path.sep)" s in
  let? s := expect nl s in
  let? s := expect "    if (match = locatorsByLocations.get(location.substr(0, " s in
  let? (count, s) := readDecimal s in
  let? s := expect ")))" s in
  let? s := expect nl s in
  let? s := expect "      return match;" s in
  let? s := expect nl s in
  if ((length =? index) && (index =? count))%bool then Some (length, s) else None.

(** The lengths the emitted [findPackageLocator] tests, in order. *)
Definition readFindPackageLocator (s : string) : option (list nat * string) :=
  let? s :=
    expect "exports.findPackageLocator = function findPackageLocator(location) {" s in
  let? s := expect nl s in
  let? s := expect "  let match;" s in
  let? s := expect nl s in
  let? (tests, s) :=
    readArray (nl +++ "  return null;" +++ nl +++ "};" +++ nl) readTest s in
  Some (tests, s).

(** What loading the text defines: the two tables and the tests. *)
Definition readTables (s : string)
  : option ((PackageInformationStores * Map string Locator * list nat) * string) :=
  let? (maps, s) := readMaps s in
  let? (tests, s) := readFindPackageLocator s in
  Some ((fst maps, snd maps, tests), s).

(** The generated file from the place of the marker on: the text
    [replace] puts there, then the rest of the template. *)
Definition splicedFrom (template replacement : string) : option string :=
  match findMarker template with
  | Some (before, after) =>
      Some (substitute before marker after replacement +++ after)
  | None => None
  end.

(** The tables of the file [generatePnpMap] returns for a store, read
    where the marker stood; none when the template has no marker. *)
Definition generatedTables (pnpApi : string) (stores : PackageInformationStores)
  : option ((PackageInformationStores * Map string Locator * list nat) * string) :=
  let? text := splicedFrom pnpApi (generateMaps stores
                                   +++ generateFindPackageLocator stores) in
  readTables text.

(** The [findPackageLocator] of that file: the chain of tests over the
    table the file holds. *)
Definition generatedFindPackageLocator `{Path} (pnpApi : string)
    (stores : PackageInformationStores) (location : string) : option Locator :=
  let? (tables, _) := generatedTables pnpApi stores in
  findIn (snd (fst tables)) (snd tables) location.

(* ------------------------------------------------------------------ *)
(** ** Vocabulary of the further properties *)

(** No dollar sign occurs in the text. *)
Fixpoint noDollar (s : string) : bool :=
  match s with
  | EmptyString => true
  | String c rest => (negb (Ascii.eqb c "$") && noDollar rest)%bool
  end.

Definition noDollarKey (k : option string) : bool :=
  match k with
  | Some s => noDollar s
  | None => true
  end.

(** No dollar sign occurs in a string of the store: a name, a reference,
    a location, a main entry, or the name or the reference of a
    dependency. *)
Definition noDollarStores (stores : PackageInformationStores) : bool :=
  forallb (fun '(packageName, store) =>
    (noDollarKey packageName
     && forallb (fun '(packageReference, info) =>
          (noDollarKey packageReference
           && noDollar (packageLocation info)
           && noDollarKey (packageMainEntry info)
           && forallb (fun '(dependencyName, dependencyReference) =>
                (noDollar dependencyName && noDollar dependencyReference)%bool)
                (packageDependencies info))%bool) store)%bool) stores.

(** Every dependency the store records is an entry of the store, or one
    of the [promised] ones. *)
Definition closedUnder (promised : string -> string -> Prop)
    (stores : PackageInformationStores) : Prop :=
  forall name reference info dependencyName dependencyReference,
    stores_get stores name reference = Some info ->
    map_get (packageDependencies info) dependencyName = Some dependencyReference ->
    stores_get stores (Some dependencyName) (Some dependencyReference) <> None \/
    promised dependencyName dependencyReference.

(** The store has no [null] name, and no [null] reference under a name. *)
Definition named (stores : PackageInformationStores) : Prop :=
  map_get stores None = None /\
  forall name store, In (name, store) stores -> map_get store None = None.

(** The traversal of the store (the names in their order and, under a
    name, the references in their order) meets a location of length [a]
    before any location of length [b]. *)
Definition metBefore (stores : PackageInformationStores) (a b : nat) : Prop :=
  a <> b /\
  exists names name store names' references reference info references',
    stores = names ++ (name, store) :: names' /\
    store = references ++ (reference, info) :: references' /\
    String.length (packageLocation info) = a /\
    (forall n st r i,
        In (n, st) names -> In (r, i) st ->
        String.length (packageLocation i) <> b) /\
    (forall r i, In (r, i) references ->
                 String.length (packageLocation i) <> b).

(** The dependencies of every information bind each name once. *)
Definition functional (stores : PackageInformationStores) : Prop :=
  forall name reference info,
    stores_get stores name reference = Some info ->
    NoDup (map_keys (packageDependencies info)).

Section Sources.
Context `{Path} `{FileSystem}.
Variable resolver : string -> option Manifest.

(** Where the fields of the information under [(name, reference)] come
    from: the main entry from a located package [pkg] of that name, the
    reference and the location from a located package [pkg'] of that
    name, under some parent data. *)
Definition sourced (name reference : string) (info : PackageInformation)
  : Prop :=
  exists parentData pattern pkg ref loc0 pattern' pkg' ref' loc',
    getResolverEntry resolver pattern = Ok (Some (pkg, ref, loc0)) /\
    pkg_name pkg = name /\
    packageMainEntry info = pkg_main pkg /\
    getResolverEntry resolver pattern' = Ok (Some (pkg', ref', loc')) /\
    pkg_name pkg' = name /\
    reference = referenceIn parentData pkg' /\
    packageLocation info = normalizeLocation (locationIn parentData pkg' loc').

(** Every information of the store, the root apart, is [sourced]. *)
Definition all_sourced (stores : PackageInformationStores) : Prop :=
  forall name reference info,
    stores_get stores (Some name) (Some reference) = Some info ->
    sourced name reference info.

(** The dependencies of the information under [name] are those a
    located package [pkg] of that name declares: every name bound is a
    peer of [pkg] or the name of a located package among its dependency
    patterns, and every located package among them whose name is no peer
    is bound. *)
Definition declared (name : string) (info : PackageInformation) : Prop :=
  exists pattern pkg ref loc0,
    getResolverEntry resolver pattern = Ok (Some (pkg, ref, loc0)) /\
    pkg_name pkg = name /\
    (forall d,
        map_get (packageDependencies info) d <> None ->
        In d (peerNames pkg) \/
        exists q pkgq refq locq,
          In q (ref_dependencies ref) /\
          getResolverEntry resolver q = Ok (Some (pkgq, refq, locq)) /\
          pkg_name pkgq = d) /\
    (forall q pkgq refq locq,
        In q (ref_dependencies ref) ->
        getResolverEntry resolver q = Ok (Some (pkgq, refq, locq)) ->
        ~ In (pkg_name pkgq) (peerNames pkg) ->
        map_get (packageDependencies info) (pkg_name pkgq) <> None).

(** Every information of the store is [declared], the root and the
    [pending] ones apart: those inserted whose dependencies are still
    being visited. *)
Definition declared_but (pending : string -> string -> Prop)
    (stores : PackageInformationStores) : Prop :=
  forall name reference info,
    stores_get stores (Some name) (Some reference) = Some info ->
    pending name reference \/ declared name info.

End Sources.

(* ------------------------------------------------------------------ *)
(** ** Concrete collaborators

    A POSIX [path], an in-memory file system and table-driven resolvers,
    on which the definitions above run. *)

Module Scenario.

Module Posix.

Definition slash : ascii := "/"%char.

Fixpoint dropWhile {A} (p : A -> bool) (l : list A) : list A :=
  match l with
  | [] => []
  | x :: rest => if p x then dropWhile p rest else l
  end.

(** [path.posix.dirname]: trailing slashes are skipped, then the last
    segment, and the text before the slash found is returned. *)
Definition dirname (p : string) : string :=
  match p with
  | EmptyString => "."
  | String c0 rest =>
      let hasRoot := Ascii.eqb c0 slash in
      let fromEnd := rev (list_ascii_of_string rest) in
      let afterSlashes := dropWhile (Ascii.eqb slash) fromEnd in
      match dropWhile (fun c => negb (Ascii.eqb slash c)) afterSlashes with
      | [] => if hasRoot then "/" else "."
      | _ :: before =>
          match before with
          | [] => if hasRoot then "//" else String c0 EmptyString
          | _ => String c0 (string_of_list_ascii (rev before))
          end
      end
  end.

(** The segments between slashes. *)
Fixpoint segments (cur : string) (p : string) : list string :=
  match p with
  | EmptyString => [cur]
  | String c rest =>
      if Ascii.eqb c slash then cur :: segments EmptyString rest
      else segments (cur +++ String c EmptyString) rest
  end.

(** Empty and [.] segments vanish, [..] removes the segment before it. *)
Definition normalizeSegments (segs : list string) : list string :=
  rev (fold_left
         (fun stack seg =>
            if (String.eqb seg EmptyString || String.eqb seg ".")%bool then stack
            else if String.eqb seg ".." then tl stack
            else seg :: stack)
         segs []).

Definition isAbsolute (p : string) : bool :=
  match p with
  | String c _ => Ascii.eqb c slash
  | EmptyString => false
  end.

(** [path.posix.resolve(a, b)] with the working directory [cwd]. *)
Definition resolve (cwd a b : string) : string :=
  let joined :=
    if isAbsolute b then b
    else if isAbsolute a then a +++ "/" +++ b
    else cwd +++ "/" +++ a +++ "/" +++ b in
  "/" +++ String.concat "/" (normalizeSegments (segments EmptyString joined)).

End Posix.

#[export] Instance posix : Path := {|
  sep := "/"%char;
  path_resolve := Posix.resolve "/";
  path_dirname := Posix.dirname;
|}.

(** The file system as the list of links made, the last one first; no
    link lies on the way to the project folder. *)
#[export] Instance linksOnly : FileSystem := {|
  FS := list (string * string);
  symlink := fun src dest fs => Some ((src, dest) :: fs);
  realpath := fun p _ => Some p;
|}.

(** A resolver that knows the patterns of a table and throws on any
    other. *)
Definition resolverOf (table : list (string * Manifest))
  : string -> option Manifest :=
  map_get table.

(** A manifest installed at [location]. *)
Definition installedAt (location name version : string)
    (peers deps : list string) : Manifest :=
  {| pkg_name := name;
     pkg_version := version;
     pkg_main := Some "index.js";
     pkg_peerDependencies :=
       match peers with
       | [] => None
       | _ => Some (map (fun p => (p, "*")) peers)
       end;
     pkg_reference :=
       Some {| ref_location := Some location;
               ref_dependencies := deps |} |}.

(** A manifest installed under [/cache]. *)
Definition installed (name version : string) (peers deps : list string)
  : Manifest :=
  installedAt ("/cache/" +++ name +++ "-" +++ version) name version peers deps.

Definition project : Config := {| lockfileFolder := "/proj" |}.

(** No link made yet, and the empty store on it. *)
Definition noLinks : FS := [].
Definition emptyWorld : World := ([], noLinks).

(** [root-dep] depends on [lib]; neither declares a peer. *)
Definition simple : list (string * Manifest) :=
  [("root-dep", installed "root-dep" "1.0.0" [] ["lib"]);
   ("lib", installed "lib" "2.0.0" [] []);
   ("optional", {| pkg_name := "optional"; pkg_version := "1.0.0";
                   pkg_main := None; pkg_peerDependencies := None;
                   pkg_reference := None |})].

(** [B] has the peer [P]; [A1] requires it with [P@1.0.0], [A2] with
    [P@2.0.0]. *)
Definition pkgB : Manifest := installed "B" "1.0.0" ["P"] [].

Definition peerScopes : list (string * Manifest) :=
  [("a1", installed "A1" "1.0.0" [] ["b"; "p@1"]);
   ("a2", installed "A2" "1.0.0" [] ["b"; "p@2"]);
   ("b", pkgB);
   ("p@1", installed "P" "1.0.0" [] []);
   ("p@2", installed "P" "2.0.0" [] [])].



(** The cycle [A -> B -> A], of packages without peers and of packages
    that each declare a peer. *)
Definition plainCycle : list (string * Manifest) :=
  [("a", installed "A" "1.0.0" [] ["b"]);
   ("b", installed "B" "1.0.0" [] ["a"])].

Definition peerCycle : list (string * Manifest) :=
  [("a", installed "A" "1.0.0" ["P"] ["b"]);
   ("b", installed "B" "1.0.0" ["P"] ["a"])].

(** A location that ends with two slashes. *)
Definition doubleSlash : list (string * Manifest) :=
  [("a", installedAt "/cache/a//" "a" "1.0.0" [] [])].

(** Three packages without dependencies. *)
Definition flat : list (string * Manifest) :=
  [("lib", installed "lib" "2.0.0" [] []);
   ("aa", installed "aa" "1.0.0" [] []);
   ("bb", installed "bb" "1.0.0" [] [])].

(** [x] and [xy] side by side under [node_modules]. *)
Definition siblings : list (string * Manifest) :=
  [("x", installedAt "/proj/node_modules/x" "x" "1.0.0" [] []);
   ("long", installedAt "/proj/node_modules/long-name" "long-name" "1.0.0" [] [])].

(** A template without the marker. *)
Definition plainTemplate : string := "module.exports = {};".

(** The scope of the dependencies of [A1], as the first loop leaves it. *)
Definition scopeOfA1 : Scope :=
  ([("B", referenceIn ["A1"; "1.0.0"] pkgB); ("P", "1.0.0")],
   [("B", locationIn ["A1"; "1.0.0"] pkgB "/cache/B-1.0.0");
    ("P", "/cache/P-1.0.0")]).

(** The references of [A], of [B] below it, and of [A] below that [B]. *)
Definition pkgA' : Manifest := installed "A" "1.0.0" ["P"] ["b"].
Definition pkgB' : Manifest := installed "B" "1.0.0" ["P"] ["a"].
Definition firstA : string := referenceIn [] pkgA'.
Definition firstB : string := referenceIn ["A"; firstA] pkgB'.
Definition secondA : string := referenceIn ["B"; firstB] pkgA'.

(** The store of [siblings]. *)
Definition siblingsStore : PackageInformationStores :=
  match getPackageInformationStores (resolverOf siblings) 2 project
          ["x"; "long"] noLinks with
  | Ok (stores, _) => stores
  | _ => []
  end.

(** The store of [flat]: the length 17 is met first and once, the
    length 16 twice, the length 6 of the project folder last; the test
    for 16 comes first, and 17 stays before 6. *)
Definition flatStore : PackageInformationStores :=
  match getPackageInformationStores (resolverOf flat) 2 project
          ["lib"; "aa"; "bb"] noLinks with
  | Ok (stores, _) => stores
  | _ => []
  end.

(** A template that holds the marker twice. *)
Definition apiTemplate : string :=
  "const path = require('path');" +++ nl +++ marker +++ nl
  +++ "/* " +++ marker +++ " */".

Definition apiBefore : string := "const path = require('path');" +++ nl.
Definition apiAfter : string := nl +++ "/* " +++ marker +++ " */".

(** The store of [simple] and the store of [peerScopes]. *)
Definition simpleStore : PackageInformationStores :=
  match getPackageInformationStores (resolverOf simple) 3 project
          ["root-dep"] noLinks with
  | Ok (stores, _) => stores
  | _ => []
  end.

Definition peerScopesStore : PackageInformationStores :=
  match getPackageInformationStores (resolverOf peerScopes) 3 project
          ["a1"; "a2"] noLinks with
  | Ok (stores, _) => stores
  | _ => []
  end.

(** [tool] is installed at a path as long as the project folder, and
    [x] below the project folder. *)
Definition nested : list (string * Manifest) :=
  [("tool", installedAt "/tool" "tool" "1.0.0" [] []);
   ("x", installedAt "/proj/node_modules/x" "x" "1.0.0" [] [])].

Definition nestedStore : PackageInformationStores :=
  match getPackageInformationStores (resolverOf nested) 2 project
          ["tool"; "x"] noLinks with
  | Ok (stores, _) => stores
  | _ => []
  end.

(** A package installed in a folder whose name holds two dollar signs. *)
Definition dollars : list (string * Manifest) :=
  [("a", installedAt "/cache/a$$b" "a" "1.0.0" [] [])].

(** Two patterns of one name among the seeds, the first with a
    dependency. *)
Definition sameName : list (string * Manifest) :=
  [("foo@1", installedAt "/cache/foo-1" "foo" "1.0.0" [] ["lib"]);
   ("foo@2", installedAt "/cache/foo-2" "foo" "2.0.0" [] []);
   ("lib", installed "lib" "2.0.0" [] [])].

Definition sameNameStore : PackageInformationStores :=
  match getPackageInformationStores (resolverOf sameName) 3 project
          ["foo@1"; "foo@2"] noLinks with
  | Ok (stores, _) => stores
  | _ => []
  end.

Definition dollarsStore : PackageInformationStores :=
  match getPackageInformationStores (resolverOf dollars) 2 project
          ["a"] noLinks with
  | Ok (stores, _) => stores
  | _ => []
  end.





End Scenario.

(* ================================================================== *)
(** * Properties *)

(** ** The digest agrees with the published SHA-1 test vectors *)

Example sha1_abc :
  SHA1.digest_hex "abc" = "a9993e364706816aba3e25717850c26c9cd0d89d".
Proof. vm_compute. reflexivity. Qed.

Example sha1_empty :
  SHA1.digest_hex "" = "da39a3ee5e6b4b0d3255bfef95601890afd80709".
Proof. vm_compute. reflexivity. Qed.

Example sha1_two_blocks :
  SHA1.digest_hex "abcdbcdecdefdefgefghfghighijhijkijkljklmklmnlmnomnopnopq"
  = "84983e441c3bd26ebaae4aa1f95129e5e54670f1".
Proof. vm_compute. reflexivity. Qed.

(** The digest is never unfolded on symbolic input. *)
Global Opaque SHA1.digest_hex.

(** ** Laws of [Map] *)

Section MapFacts.
Context {K V : Type} `{EqDec K}.
Implicit Types (m : Map K V) (k : K) (v : V).

Lemma map_get_set_same m k v : map_get (map_set m k v) k = Some v.
Proof.
  induction m as [|[k' v'] m IH]; simpl.
  - destruct (eq_dec k k); congruence.
  - destruct (eq_dec k k') as [->|Hne]; simpl.
    + destruct (eq_dec k' k'); congruence.
    + destruct (eq_dec k k'); congruence.
Qed.

Lemma map_get_set_other m k k' v :
  k' <> k -> map_get (map_set m k v) k' = map_get m k'.
Proof.
  intros Hne. induction m as [|[k0 v0] m IH]; simpl.
  - destruct (eq_dec k' k); congruence.
  - destruct (eq_dec k k0) as [->|Hk]; simpl.
    + destruct (eq_dec k' k0); congruence.
    + destruct (eq_dec k' k0); congruence.
Qed.

Lemma map_get_set m k k' v :
  map_get (map_set m k v) k' = if eq_dec k' k then Some v else map_get m k'.
Proof.
  destruct (eq_dec k' k) as [->|Hne].
  - apply map_get_set_same.
  - now apply map_get_set_other.
Qed.

Lemma map_set_set m k v v' : map_set (map_set m k v) k v' = map_set m k v'.
Proof.
  induction m as [|[k0 v0] m IH]; simpl.
  - destruct (eq_dec k k); congruence.
  - destruct (eq_dec k k0) as [->|Hk]; simpl.
    + destruct (eq_dec k0 k0); congruence.
    + destruct (eq_dec k k0); congruence.
Qed.

Lemma map_get_In m k v : map_get m k = Some v -> In (k, v) m.
Proof.
  induction m as [|[k0 v0] m IH]; simpl; [discriminate|].
  destruct (eq_dec k k0) as [->|Hk]; intros Hg.
  - left. congruence.
  - right. auto.
Qed.

Lemma map_get_None m k : map_get m k = None <-> ~ In k (map_keys m).
Proof.
  induction m as [|[k0 v0] m IH]; simpl.
  - tauto.
  - destruct (eq_dec k k0) as [->|Hk].
    + split; [discriminate | intros Hn; exfalso; apply Hn; now left].
    + rewrite IH. split; intros Hn; [intros [He|Hi]; [congruence | tauto] | tauto].
Qed.

Lemma map_get_some_key m k v : map_get m k = Some v -> In k (map_keys m).
Proof.
  intros Hg. apply map_get_In in Hg.
  unfold map_keys. change k with (fst (k, v)). now apply in_map.
Qed.

Lemma In_map_get m k v :
  NoDup (map_keys m) -> In (k, v) m -> map_get m k = Some v.
Proof.
  induction m as [|[k0 v0] m IH]; simpl; [tauto|].
  intros Hnd [He|Hi].
  - inversion He; subst. destruct (eq_dec k k); congruence.
  - inversion Hnd as [|? ? Hnot Hnd']; subst.
    destruct (eq_dec k k0) as [->|Hk]; [|auto].
    exfalso. apply Hnot. change k0 with (fst (k0, v)). now apply in_map.
Qed.

Lemma map_keys_set m k v :
  map_keys (map_set m k v)
  = match map_get m k with
    | Some _ => map_keys m
    | None => map_keys m ++ [k]
    end.
Proof.
  induction m as [|[k0 v0] m IH]; simpl; [reflexivity|].
  destruct (eq_dec k k0) as [->|Hk]; simpl; [reflexivity|].
  rewrite IH. now destruct (map_get m k).
Qed.

Lemma map_set_NoDup m k v : NoDup (map_keys m) -> NoDup (map_keys (map_set m k v)).
Proof.
  intros Hnd. rewrite map_keys_set.
  destruct (map_get m k) eqn:Hg; [assumption|].
  apply map_get_None in Hg.
  apply NoDup_app; [assumption | constructor; [intros [] | constructor] |].
  intros x Hx [<-|[]]. contradiction.
Qed.

End MapFacts.

(** ** Laws of the two-level store *)

Lemma extends_refl s : extends s s.
Proof. intros n r i Hg. exact Hg. Qed.

Lemma extends_trans s1 s2 s3 : extends s1 s2 -> extends s2 s3 -> extends s1 s3.
Proof. intros H12 H23 n r i Hg. apply H23, H12, Hg. Qed.

Lemma stores_get_insert s n r i n' r' :
  stores_get (stores_insert s n r i) n' r'
  = if eq_dec (n', r') (n, r) then Some i else stores_get s n' r'.
Proof.
  unfold stores_get, stores_insert.
  destruct (map_get s n) as [store|] eqn:Hs.
  - rewrite map_get_set. destruct (eq_dec n' n) as [->|Hn].
    + rewrite Hs, map_get_set. destruct (eq_dec r' r) as [->|Hr].
      * destruct (eq_dec (n, r) (n, r)); congruence.
      * destruct (eq_dec (n, r') (n, r)); congruence.
    + destruct (eq_dec (n', r') (n, r)); congruence.
  - rewrite map_get_set. destruct (eq_dec n' n) as [->|Hn].
    + rewrite Hs. simpl. destruct (eq_dec r' r) as [->|Hr].
      * destruct (eq_dec (n, r) (n, r)); congruence.
      * destruct (eq_dec (n, r') (n, r)); congruence.
    + destruct (eq_dec (n', r') (n, r)); congruence.
Qed.

Lemma stores_get_set_dependencies s n r deps n' r' :
  stores_get (stores_set_dependencies s n r deps) n' r'
  = if eq_dec (n', r') (n, r)
    then option_map (with_dependencies deps) (stores_get s n r)
    else stores_get s n' r'.
Proof.
  unfold stores_set_dependencies.
  destruct (map_get s n) as [store|] eqn:Hs.
  - destruct (map_get store r) as [info|] eqn:Hi.
    + unfold stores_get at 1. rewrite map_get_set.
      destruct (eq_dec n' n) as [->|Hn].
      * rewrite map_get_set. destruct (eq_dec r' r) as [->|Hr].
        -- destruct (eq_dec (n, r) (n, r)); [|congruence].
           unfold stores_get. rewrite Hs, Hi. reflexivity.
        -- destruct (eq_dec (n, r') (n, r)); [congruence|].
           unfold stores_get. now rewrite Hs.
      * destruct (eq_dec (n', r') (n, r)); [congruence|]. reflexivity.
    + destruct (eq_dec (n', r') (n, r)) as [He|]; [|reflexivity].
      inversion He; subst. unfold stores_get. now rewrite Hs, Hi.
  - destruct (eq_dec (n', r') (n, r)) as [He|]; [|reflexivity].
    inversion He; subst. unfold stores_get. now rewrite Hs.
Qed.

Lemma extends_insert s n r i :
  stores_get s n r = None -> extends s (stores_insert s n r i).
Proof.
  intros Hnew n' r' i' Hg. rewrite stores_get_insert.
  destruct (eq_dec (n', r') (n, r)) as [He|]; [|assumption].
  inversion He; subst. congruence.
Qed.

Lemma extends_set_dependencies s0 s n r deps :
  stores_get s0 n r = None ->
  extends s0 s -> extends s0 (stores_set_dependencies s n r deps).
Proof.
  intros Hnew Hext n' r' i' Hg. rewrite stores_get_set_dependencies.
  destruct (eq_dec (n', r') (n, r)) as [He|]; [|auto].
  inversion He; subst. congruence.
Qed.

(** ** The two loops of [visit], case by case *)

Section Steps.
Context `{Path} `{FileSystem}.
Variable resolver : string -> option Manifest.

Lemma prepass_inv parentData pattern resolutions locations fs st' :
  prepass resolver parentData pattern ((resolutions, locations), fs) = Ok st' ->
  prepass_outcome resolver parentData pattern resolutions locations fs st'.
Proof.
  unfold prepass.
  destruct (getResolverEntry resolver pattern) as [[[[pkg ref] loc]|]| |] eqn:He;
    cbn [bind]; try discriminate.
  - destruct (0 <? List.length (peerNames pkg)) eqn:Hp; cbn [bind].
    + destruct (symlink loc _ fs) as [fs'|] eqn:Hs; cbn [bind]; [|discriminate].
      intros [= <-].
      assert (Hne : peerNames pkg <> []).
      { intros E. rewrite E in Hp. discriminate. }
      pose proof (@prepass_virtual _ _ resolver parentData pattern resolutions
                    locations fs pkg ref loc fs' He Hne) as P.
      unfold locationIn, referenceIn in P. rewrite Hp in P.
      apply P. exact Hs.
    + intros [= <-].
      apply prepass_plain with (ref := ref); [exact He|].
      destruct (peerNames pkg); [reflexivity | discriminate].
  - intros [= <-]. now apply prepass_skipped.
Qed.

Lemma insertion_inv recurse resolutions locations pattern stores fs w' :
  insertion resolver recurse (resolutions, locations) pattern (stores, fs) = Ok w' ->
  insertion_outcome resolver recurse resolutions locations pattern stores fs w'.
Proof.
  unfold insertion.
  destruct (getResolverEntry resolver pattern) as [[[[pkg ref] loc0]|]| |] eqn:He;
    cbn [bind]; try discriminate.
  2:{ intros [= <-]. now apply insertion_skipped. }
  destruct (map_get resolutions (pkg_name pkg)) as [reference|] eqn:Hr;
    [|discriminate].
  unfold invariant.
  destruct (truthy reference) eqn:Htr; [|discriminate].
  destruct (map_get locations (pkg_name pkg)) as [loc|] eqn:Hl; [|discriminate].
  destruct (truthy loc) eqn:Htl; [|discriminate].
  destruct (map_get stores (Some (pkg_name pkg))) as [store|] eqn:Hs.
  - destruct (map_get store (Some reference)) as [info|] eqn:Hi.
    + intros [= <-].
      eapply insertion_reused; eauto.
      unfold stores_get. rewrite Hs. exact Hi.
    + destruct (filterM _ _) as [direct| |] eqn:Hf; cbn [bind]; try discriminate.
      destruct (recurse _ _ _) as [[deps [stores' fs']]| |] eqn:Hrec;
        cbn [bind]; try discriminate.
      intros [= <-].
      eapply insertion_new; eauto.
      * unfold stores_get. rewrite Hs. exact Hi.
      * unfold stores_insert, newInformation. rewrite Hs. exact Hrec.
  - cbn [map_get].
    destruct (filterM _ _) as [direct| |] eqn:Hf; cbn [bind]; try discriminate.
    rewrite map_set_set.
    destruct (recurse _ _ _) as [[deps [stores' fs']]| |] eqn:Hrec;
      cbn [bind]; try discriminate.
    intros [= <-].
    eapply insertion_new; eauto.
    + unfold stores_get. rewrite Hs. reflexivity.
    + unfold stores_insert, newInformation. rewrite Hs. exact Hrec.
Qed.

(** A loop completes when each of its iterations does. *)
Lemma forM_inv {A S} (body : A -> S -> result S) (P : S -> Prop) xs :
  (forall x s s', In x xs -> P s -> body x s = Ok s' -> P s') ->
  forall s s', P s -> forM body xs s = Ok s' -> P s'.
Proof.
  induction xs as [|x xs IH]; simpl; intros Hstep s s' Hs Hrun.
  - inversion Hrun; subst. exact Hs.
  - destruct (body x s) as [s1| |] eqn:Hb; simpl in Hrun; try discriminate.
    apply IH with (s := s1); [| eapply Hstep; eauto | exact Hrun].
    intros y t t' Hy. apply Hstep. now right.
Qed.

End Steps.

(** ** Relations the whole traversal preserves *)

Section Traversal.
Context `{Path} `{FileSystem}.
Variable resolver : string -> option Manifest.

(** [visit] returns the [resolutions] of its pre-pass. *)
Lemma visit_inv fuel seedPatterns parentData stores fs resolutions w' :
  visit resolver fuel seedPatterns parentData (stores, fs) = Ok (resolutions, w') ->
  exists fuel' locations fs1,
    fuel = S fuel' /\
    forM (prepass resolver parentData) seedPatterns (([], []), fs)
      = Ok ((resolutions, locations), fs1) /\
    forM (insertion resolver (visit resolver fuel') (resolutions, locations))
         seedPatterns (stores, fs1) = Ok w'.
Proof.
  destruct fuel as [|fuel']; [discriminate|]. cbn [visit].
  destruct (forM (prepass resolver parentData) seedPatterns _)
    as [[[resolutions' locations] fs1]| |] eqn:Hpre; cbn [bind]; try discriminate.
  destruct (forM (insertion resolver _ _) seedPatterns _) as [w1| |] eqn:Hins;
    cbn [bind]; try discriminate.
  intros [= <- <-]. exists fuel', locations, fs1. auto.
Qed.

(** A relation between the store before and after that holds across an
    insertion holds across the traversal. *)
Lemma visit_preserves (R : PackageInformationStores -> PackageInformationStores -> Prop) :
  (forall s, R s s) ->
  (forall s1 s2 s3, R s1 s2 -> R s2 s3 -> R s1 s3) ->
  (forall s name reference pkg loc s1 deps,
      stores_get s (Some name) (Some reference) = None ->
      R (stores_insert s (Some name) (Some reference) (newInformation pkg loc)) s1 ->
      R s (stores_set_dependencies s1 (Some name) (Some reference) deps)) ->
  forall fuel seedPatterns parentData w resolutions w',
    visit resolver fuel seedPatterns parentData w = Ok (resolutions, w') ->
    R (fst w) (fst w').
Proof.
  intros Hrefl Htrans Hstep.
  induction fuel as [|fuel IH]; [discriminate|].
  intros seedPatterns parentData [stores fs] resolutions w' Hv.
  apply visit_inv in Hv.
  destruct Hv as (fuel' & locations & fs1 & [= <-] & _ & Hins).
  revert Hins.
  apply forM_inv with (P := fun w1 : World => R stores (fst w1));
    [|apply Hrefl].
  intros pattern [s fs2] w1 _ HR Hbody. cbn [fst] in *.
  apply insertion_inv in Hbody.
  destruct Hbody as [ | | pkg ref loc0 reference loc direct deps s1 fs3
                          _ _ _ _ _ Hnew _ Hrec]; cbn [fst]; try exact HR.
  apply Htrans with (s2 := s); [exact HR|].
  apply Hstep with (pkg := pkg) (loc := loc); [exact Hnew|].
  apply IH in Hrec. exact Hrec.
Qed.

(** The store only grows: whatever it holds before a [visit] it holds,
    unchanged, after it. *)
Lemma visit_extends fuel seedPatterns parentData w resolutions w' :
  visit resolver fuel seedPatterns parentData w = Ok (resolutions, w') ->
  extends (fst w) (fst w').
Proof.
  apply visit_preserves.
  - apply extends_refl.
  - apply extends_trans.
  - intros s name reference pkg loc s1 deps Hnew Hext.
    apply extends_set_dependencies; [exact Hnew|].
    eapply extends_trans; [|exact Hext].
    now apply extends_insert.
Qed.

End Traversal.

(** ** More fuel does not change a result *)

Lemma bind_refines {A B} (c c' : result A) (f f' : A -> result B) :
  refines c c' -> (forall a, refines (f a) (f' a)) ->
  refines (bind c f) (bind c' f').
Proof.
  intros Hc Hf Hres. destruct c as [a|e|]; cbn [bind] in *.
  - rewrite Hc by discriminate. cbn [bind]. now apply Hf.
  - rewrite Hc by discriminate. reflexivity.
  - contradiction.
Qed.

Lemma refines_refl {A} (r : result A) : refines r r.
Proof. intros _. reflexivity. Qed.

Lemma forM_refines {A S} (body body' : A -> S -> result S) xs :
  (forall x s, refines (body x s) (body' x s)) ->
  forall s, refines (forM body xs s) (forM body' xs s).
Proof.
  intros Hbody. induction xs as [|x xs IH]; intros s; cbn [forM].
  - apply refines_refl.
  - apply bind_refines; [apply Hbody | exact IH].
Qed.

Section Fuel.
Context `{Path} `{FileSystem}.
Variable resolver : string -> option Manifest.

Lemma insertion_refines recurse recurse' scope pattern w :
  (forall ps pd w0, refines (recurse ps pd w0) (recurse' ps pd w0)) ->
  refines (insertion resolver recurse scope pattern w)
          (insertion resolver recurse' scope pattern w).
Proof.
  intros Hrec. destruct scope as [resolutions locations], w as [stores fs].
  unfold insertion.
  apply bind_refines; [apply refines_refl|].
  intros [[[pkg ref] loc0]|]; [|apply refines_refl].
  destruct (map_get resolutions (pkg_name pkg)) as [reference|];
    [|apply refines_refl].
  unfold invariant.
  destruct (truthy reference); [|apply refines_refl].
  destruct (map_get locations (pkg_name pkg)) as [loc|]; [|apply refines_refl].
  destruct (truthy loc); [|apply refines_refl].
  destruct (match map_get stores (Some (pkg_name pkg)) with
            | Some store => (stores, store)
            | None => (map_set stores (Some (pkg_name pkg)) [], [])
            end) as [stores1 store].
  destruct (map_get store (Some reference)); [apply refines_refl|].
  apply bind_refines; [apply refines_refl|].
  intros direct. apply bind_refines; [apply Hrec|].
  intros [deps [stores' fs']]. apply refines_refl.
Qed.

Lemma visit_fuel_S fuel : forall seedPatterns parentData w,
  refines (visit resolver fuel seedPatterns parentData w)
          (visit resolver (S fuel) seedPatterns parentData w).
Proof.
  induction fuel as [|fuel IH]; intros seedPatterns parentData [stores fs].
  - intros Hres. now elim Hres.
  - change (refines
      ('(scope, fs1) <- forM (prepass resolver parentData) seedPatterns
                             (([], []), fs) ;;
       w' <- forM (insertion resolver (visit resolver fuel) scope)
                  seedPatterns (stores, fs1) ;;
       Ok (fst scope, w'))
      ('(scope, fs1) <- forM (prepass resolver parentData) seedPatterns
                             (([], []), fs) ;;
       w' <- forM (insertion resolver (visit resolver (S fuel)) scope)
                  seedPatterns (stores, fs1) ;;
       Ok (fst scope, w'))).
    apply bind_refines; [apply refines_refl|].
    intros [scope fs1]. apply bind_refines; [|intros; apply refines_refl].
    apply forM_refines. intros p w0. now apply insertion_refines.
Qed.

(** Once [visit] returns or throws with some fuel, it does the same with
    any larger fuel. *)
Lemma visit_fuel_monotone fuel fuel' seedPatterns parentData w :
  fuel <= fuel' ->
  refines (visit resolver fuel seedPatterns parentData w)
          (visit resolver fuel' seedPatterns parentData w).
Proof.
  induction 1 as [|m Hle IH]; [apply refines_refl|].
  intros Hres. rewrite <- (IH Hres).
  apply visit_fuel_S. now rewrite (IH Hres).
Qed.

End Fuel.

(** ** Unresolvable patterns are skipped (C8) *)

Lemma forM_skip {A S} (body : A -> S -> result S) x before after :
  (forall s, body x s = Ok s) ->
  forall s, forM body (before ++ x :: after) s = forM body (before ++ after) s.
Proof.
  intros Hskip. induction before as [|y before IH]; intros s; cbn [forM app].
  - rewrite Hskip. reflexivity.
  - destruct (body y s); cbn [bind]; auto.
Qed.

Section Skips.
Context `{Path} `{FileSystem}.
Variable resolver : string -> option Manifest.

Lemma unlocated_entry pattern pkg :
  resolver pattern = Some pkg -> unlocated pkg ->
  getResolverEntry resolver pattern = Ok None.
Proof.
  intros Hres Hun. unfold getResolverEntry. rewrite Hres.
  destruct Hun as [-> | (ref & -> & [-> | ->])]; reflexivity.
Qed.

Lemma prepass_skip parentData pattern st :
  getResolverEntry resolver pattern = Ok None ->
  prepass resolver parentData pattern st = Ok st.
Proof.
  intros He. destruct st as [[resolutions locations] fs].
  unfold prepass. rewrite He. reflexivity.
Qed.

Lemma insertion_skip recurse scope pattern w :
  getResolverEntry resolver pattern = Ok None ->
  insertion resolver recurse scope pattern w = Ok w.
Proof.
  intros He. destruct scope as [resolutions locations], w as [stores fs].
  unfold insertion. rewrite He. reflexivity.
Qed.

(** C8. A seed pattern whose manifest has no reference object, or a
    reference object without location, is skipped by both loops of
    [visit] without an error: the iteration of the first loop leaves
    [resolutions], [locations] and the file system as they are, the
    iteration of the second loop leaves the store as it is, and [visit]
    returns what it returns for the seed patterns without that pattern. *)
Theorem C8_unresolvable_pattern_skipped pattern pkg :
  resolver pattern = Some pkg ->
  unlocated pkg ->
  (forall parentData st, prepass resolver parentData pattern st = Ok st) /\
  (forall recurse scope w, insertion resolver recurse scope pattern w = Ok w) /\
  (forall fuel before after parentData w,
      visit resolver fuel (before ++ pattern :: after) parentData w
      = visit resolver fuel (before ++ after) parentData w).
Proof.
  intros Hres Hun. pose proof (unlocated_entry _ _ Hres Hun) as He.
  split; [|split].
  - intros. now apply prepass_skip.
  - intros. now apply insertion_skip.
  - intros [|fuel] before after parentData [stores fs]; [reflexivity|].
    cbn [visit].
    rewrite (forM_skip (prepass resolver parentData) pattern before after)
      by (intros; now apply prepass_skip).
    destruct (forM (prepass resolver parentData) (before ++ after) _)
      as [[scope fs1]| |]; cbn [bind]; try reflexivity.
    rewrite (forM_skip (insertion resolver (visit resolver fuel) scope)
               pattern before after)
      by (intros; now apply insertion_skip).
    reflexivity.
Qed.

End Skips.

(** ** The invariants of the second loop cannot fail (C10) *)

Lemma forM_err {A S} (body : A -> S -> result S) xs :
  forall s e, forM body xs s = Err e ->
  exists x s0, In x xs /\ body x s0 = Err e.
Proof.
  induction xs as [|x xs IH]; intros s e; cbn [forM]; [discriminate|].
  destruct (body x s) as [s1| e1 |] eqn:Hb; cbn [bind]; try discriminate.
  - intros Hrun. destruct (IH _ _ Hrun) as (y & s0 & Hin & Hy).
    exists y, s0. split; [now right | exact Hy].
  - intros [= <-]. exists x, s. split; [now left | exact Hb].
Qed.

Section NoViolation.
Context `{Path} `{FileSystem}.
Variable resolver : string -> option Manifest.

Lemma entry_inv pattern pkg ref loc :
  getResolverEntry resolver pattern = Ok (Some (pkg, ref, loc)) ->
  resolver pattern = Some pkg /\ pkg_reference pkg = Some ref /\
  ref_location ref = Some loc /\ truthy loc = true.
Proof.
  unfold getResolverEntry.
  destruct (resolver pattern) as [pkg'|]; [|discriminate].
  destruct (pkg_reference pkg') as [ref'|] eqn:Hr; [|discriminate].
  destruct (ref_location ref') as [loc'|] eqn:Hl; [|discriminate].
  destruct (truthy loc') eqn:Ht; [|discriminate].
  intros [= <- <- <-]. auto.
Qed.

Lemma filterM_direct_err peers deps e :
  filterM (isDirectDependency resolver peers) deps = Err e -> ~ is_violation e.
Proof.
  induction deps as [|d deps IH]; cbn [filterM]; [discriminate|].
  unfold isDirectDependency at 1.
  destruct (resolver d); cbn [bind].
  - destruct (filterM _ deps); cbn [bind]; try discriminate.
    intros [= <-]. now apply IH.
  - intros [= <-]. exact (fun F => F).
Qed.

Lemma prepass_err parentData pattern st e :
  prepass resolver parentData pattern st = Err e -> ~ is_violation e.
Proof.
  destruct st as [[resolutions locations] fs]. unfold prepass, getResolverEntry.
  destruct (resolver pattern) as [pkg|]; cbn [bind];
    [|intros [= <-]; exact (fun F => F)].
  destruct (pkg_reference pkg) as [ref|]; cbn [bind]; [|discriminate].
  destruct (ref_location ref) as [loc|]; cbn [bind]; [|discriminate].
  destruct (truthy loc); cbn [bind]; [|discriminate].
  destruct (0 <? List.length (peerNames pkg)); cbn [bind]; [|discriminate].
  destruct (symlink loc _ fs); cbn [bind]; [discriminate|].
  intros [= <-]. exact (fun F => F).
Qed.

Section Assumptions.
Hypothesis versions_truthy :
  forall pattern pkg, resolver pattern = Some pkg -> truthy (pkg_version pkg) = true.
Hypothesis resolve_truthy :
  forall dir file, truthy (path_resolve dir file) = true.

Lemma bound_set scope name reference loc name' :
  truthy reference = true -> truthy loc = true ->
  bound scope name' \/ name' = name ->
  bound (map_set (fst scope) name reference, map_set (snd scope) name loc) name'.
Proof.
  intros Hr Hl Hb. unfold bound. cbn [fst snd]. rewrite !map_get_set.
  destruct (eq_dec name' name) as [->|Hne].
  - exists reference, loc. auto.
  - destruct Hb as [Hb|Hb]; [exact Hb | contradiction].
Qed.

Lemma prepass_bound parentData pattern st st' :
  prepass resolver parentData pattern st = Ok st' ->
  (forall name, bound (fst st) name -> bound (fst st') name) /\
  (forall pkg ref loc,
      getResolverEntry resolver pattern = Ok (Some (pkg, ref, loc)) ->
      bound (fst st') (pkg_name pkg)).
Proof.
  destruct st as [[resolutions locations] fs]. intros Hp.
  apply prepass_inv in Hp.
  destruct Hp as [He | pkg ref loc He Hpeers | pkg ref loc fs' He Hpeers Hs];
    cbn [fst].
  - split; [auto|]. intros pkg ref loc He'. congruence.
  - destruct (entry_inv _ _ _ _ He) as (Hres & _ & _ & Htl).
    pose proof (versions_truthy _ _ Hres) as Htv.
    split.
    + intros name Hb.
      apply (bound_set (resolutions, locations)); auto.
    + intros pkg' ref' loc' He'.
      assert (pkg' = pkg) by congruence. subst pkg'.
      apply (bound_set (resolutions, locations)); auto.
  - assert (Htr : truthy (referenceIn parentData pkg) = true).
    { unfold referenceIn.
      destruct (peerNames pkg) eqn:E; [now elim Hpeers | reflexivity]. }
    assert (Htl : truthy (locationIn parentData pkg loc) = true).
    { unfold locationIn. destruct (0 <? _); [apply resolve_truthy|].
      now destruct (entry_inv _ _ _ _ He) as (_ & _ & _ & Htl). }
    split.
    + intros name Hb.
      apply (bound_set (resolutions, locations)); auto.
    + intros pkg' ref' loc' He'.
      assert (pkg' = pkg) by congruence. subst pkg'.
      apply (bound_set (resolutions, locations)); auto.
Qed.

Lemma prepass_loop_bound parentData seedPatterns :
  forall st st',
    forM (prepass resolver parentData) seedPatterns st = Ok st' ->
    (forall name, bound (fst st) name -> bound (fst st') name) /\
    (forall pattern pkg ref loc,
        In pattern seedPatterns ->
        getResolverEntry resolver pattern = Ok (Some (pkg, ref, loc)) ->
        bound (fst st') (pkg_name pkg)).
Proof.
  induction seedPatterns as [|p ps IH]; intros st st'; cbn [forM].
  - intros [= <-]. split; [auto | intros ? ? ? ? []].
  - destruct (prepass resolver parentData p st) as [st1| |] eqn:Hp;
      cbn [bind]; try discriminate.
    intros Hrun. destruct (IH _ _ Hrun) as [Hkeep Hall].
    destruct (prepass_bound _ _ _ _ Hp) as [Hkeep1 Hnew1].
    split; [auto|].
    intros pattern pkg ref loc [<-|Hin] He; eauto.
Qed.

Lemma insertion_no_violation recurse scope pattern w e :
  (forall ps pd w0 e0, recurse ps pd w0 = Err e0 -> ~ is_violation e0) ->
  (forall pkg ref loc,
      getResolverEntry resolver pattern = Ok (Some (pkg, ref, loc)) ->
      bound scope (pkg_name pkg)) ->
  insertion resolver recurse scope pattern w = Err e -> ~ is_violation e.
Proof.
  intros Hrec Hbound. destruct scope as [resolutions locations], w as [stores fs].
  unfold insertion.
  destruct (getResolverEntry resolver pattern) as [[[[pkg ref] loc0]|]|e0|] eqn:He;
    cbn [bind]; try discriminate.
  2:{ intros [= <-]. unfold getResolverEntry in He.
      destruct (resolver pattern) as [pkg|].
      - destruct (pkg_reference pkg) as [ref|]; [|discriminate].
        destruct (ref_location ref) as [loc|]; [|discriminate].
        destruct (truthy loc); discriminate.
      - injection He as <-. exact (fun F => F). }
  destruct (Hbound _ _ _ eq_refl) as (reference & loc & Hr & Htr & Hl & Htl).
  cbn [fst snd] in Hr, Hl. rewrite Hr, Hl. unfold invariant. rewrite Htr, Htl.
  destruct (map_get stores (Some (pkg_name pkg))) as [store|].
  - destruct (map_get store (Some reference)); [discriminate|].
    destruct (filterM _ _) as [direct|e1|] eqn:Hf; cbn [bind]; try discriminate.
    + destruct (recurse _ _ _) as [[deps [stores' fs']]|e2|] eqn:Hrun;
        cbn [bind]; try discriminate.
      intros [= <-]. eapply Hrec; eauto.
    + intros [= <-]. eapply filterM_direct_err; eauto.
  - cbn [map_get].
    destruct (filterM _ _) as [direct|e1|] eqn:Hf; cbn [bind]; try discriminate.
    + destruct (recurse _ _ _) as [[deps [stores' fs']]|e2|] eqn:Hrun;
        cbn [bind]; try discriminate.
      intros [= <-]. eapply Hrec; eauto.
    + intros [= <-]. eapply filterM_direct_err; eauto.
Qed.

Lemma visit_no_violation fuel :
  forall seedPatterns parentData w e,
    visit resolver fuel seedPatterns parentData w = Err e -> ~ is_violation e.
Proof.
  induction fuel as [|fuel IH]; intros seedPatterns parentData [stores fs] e;
    cbn [visit]; [discriminate|].
  destruct (forM (prepass resolver parentData) seedPatterns _)
    as [[scope fs1]|e1|] eqn:Hpre; cbn [bind]; try discriminate.
  - destruct (forM (insertion resolver _ scope) seedPatterns _)
      as [w1|e2|] eqn:Hins; cbn [bind]; try discriminate.
    intros [= <-].
    destruct (forM_err _ _ _ _ Hins) as (p & w0 & Hin & Hbody).
    revert Hbody. apply insertion_no_violation; [exact IH|].
    intros pkg ref loc He.
    destruct (prepass_loop_bound _ _ _ _ Hpre) as [_ Hall].
    exact (Hall _ _ _ _ Hin He).
  - intros [= <-].
    destruct (forM_err _ _ _ _ Hpre) as (p & st0 & _ & Hbody).
    eapply prepass_err; eauto.
Qed.

End Assumptions.

(** C10. The resolver is a function, so both loops see the same entry
    for a pattern.  When every resolved package has a non-empty version
    and every location computed by [path.resolve] is non-empty, the maps
    left by the first loop hold a truthy reference and a truthy location
    under the name of each seed pattern whose resolver entry is not
    null, and no run of [visit] ends in one of the two invariant
    failures of the second loop. *)
Theorem C10_prepass_invariants_hold :
  (forall pattern pkg, resolver pattern = Some pkg -> truthy (pkg_version pkg) = true) ->
  (forall dir file, truthy (path_resolve dir file) = true) ->
  (forall parentData seedPatterns fs scope fs' pattern pkg ref loc,
      forM (prepass resolver parentData) seedPatterns (([], []), fs)
        = Ok (scope, fs') ->
      In pattern seedPatterns ->
      getResolverEntry resolver pattern = Ok (Some (pkg, ref, loc)) ->
      exists reference location,
        map_get (fst scope) (pkg_name pkg) = Some reference /\
        truthy reference = true /\
        map_get (snd scope) (pkg_name pkg) = Some location /\
        truthy location = true) /\
  (forall fuel seedPatterns parentData w message,
      visit resolver fuel seedPatterns parentData w
      <> Err (InvariantViolation message)).
Proof.
  intros Hver Hloc. split.
  - intros parentData seedPatterns fs scope fs' pattern pkg ref loc Hpre Hin He.
    destruct (prepass_loop_bound Hver Hloc _ _ _ _ Hpre) as [_ Hall].
    exact (Hall _ _ _ _ Hin He).
  - intros fuel seedPatterns parentData w message Hv.
    exact (visit_no_violation Hver Hloc _ _ _ _ _ Hv I).
Qed.

End NoViolation.

(** ** One information per [(name, reference)] *)

Lemma Forall_map_set {K V} `{EqDec K} (P : K * V -> Prop) (m : Map K V) k v :
  Forall P m -> P (k, v) -> Forall P (map_set m k v).
Proof.
  intros Hall Hv. induction m as [|[k0 v0] m IH]; cbn [map_set].
  - constructor; [exact Hv | constructor].
  - inversion Hall as [|? ? H0 Hrest]; subst.
    destruct (eq_dec k k0); constructor; auto.
Qed.

Lemma wf_stores_nil : wf_stores [].
Proof. split; constructor. Qed.

Lemma wf_stores_set stores name store :
  wf_stores stores -> NoDup (map_keys store) ->
  wf_stores (map_set stores name store).
Proof.
  intros [Hk Hin] Hs. split.
  - now apply map_set_NoDup.
  - now apply Forall_map_set.
Qed.

Lemma wf_stores_inner stores name store :
  wf_stores stores -> map_get stores name = Some store -> NoDup (map_keys store).
Proof.
  intros [_ Hin] Hg. apply map_get_In in Hg.
  rewrite Forall_forall in Hin. exact (Hin _ Hg).
Qed.

Lemma wf_stores_insert stores name reference info :
  wf_stores stores -> wf_stores (stores_insert stores name reference info).
Proof.
  intros Hwf. unfold stores_insert.
  destruct (map_get stores name) as [store|] eqn:Hs.
  - apply wf_stores_set; [exact Hwf|].
    apply map_set_NoDup. eapply wf_stores_inner; eauto.
  - apply wf_stores_set; [exact Hwf|].
    repeat constructor. intros [].
Qed.

Lemma wf_stores_set_dependencies stores name reference deps :
  wf_stores stores ->
  wf_stores (stores_set_dependencies stores name reference deps).
Proof.
  intros Hwf. unfold stores_set_dependencies.
  destruct (map_get stores name) as [store|] eqn:Hs; [|exact Hwf].
  destruct (map_get store reference) as [info|]; [|exact Hwf].
  apply wf_stores_set; [exact Hwf|].
  apply map_set_NoDup. eapply wf_stores_inner; eauto.
Qed.

Lemma In_entries stores name reference info :
  In (name, reference, info) (entries stores) <->
  exists store, In (name, store) stores /\ In (reference, info) store.
Proof.
  unfold entries. rewrite in_flat_map. split.
  - intros ([n store] & Hin & Hm). apply in_map_iff in Hm.
    destruct Hm as ([r i] & [= -> -> ->] & Hri). eauto.
  - intros (store & Hin & Hri). exists (name, store). split; [exact Hin|].
    apply in_map_iff. exists (reference, info). auto.
Qed.

Lemma In_entries_get stores name reference info :
  wf_stores stores ->
  (In (name, reference, info) (entries stores) <->
   stores_get stores name reference = Some info).
Proof.
  intros Hwf. rewrite In_entries. unfold stores_get. split.
  - intros (store & Hin & Hri).
    rewrite (In_map_get _ _ _ (proj1 Hwf) Hin).
    apply In_map_get; [|exact Hri].
    destruct Hwf as [_ Hall]. rewrite Forall_forall in Hall. exact (Hall _ Hin).
  - destruct (map_get stores name) as [store|] eqn:Hs; [|discriminate].
    intros Hri. exists store. split; now apply map_get_In.
Qed.

Section WellFormed.
Context `{Path} `{FileSystem}.
Variable resolver : string -> option Manifest.

Lemma visit_wf fuel seedPatterns parentData w resolutions w' :
  visit resolver fuel seedPatterns parentData w = Ok (resolutions, w') ->
  wf_stores (fst w) -> wf_stores (fst w').
Proof.
  apply (visit_preserves resolver (fun s s' => wf_stores s -> wf_stores s')).
  - auto.
  - auto.
  - intros s name reference pkg loc s1 deps _ Hrec Hwf.
    apply wf_stores_set_dependencies, Hrec, wf_stores_insert, Hwf.
Qed.

End WellFormed.

(** ** Normalized locations end with the separator *)

Lemma append_last_inj a b c d :
  a +++ String c EmptyString = b +++ String d EmptyString -> a = b /\ c = d.
Proof.
  revert b. induction a as [|x a IH]; intros [|y b]; cbn [String.append].
  - intros [= ->]. auto.
  - intros [= -> Hrest]. destruct b; discriminate.
  - intros [= -> Hrest]. destruct a; discriminate.
  - intros [= -> Hrest]. destruct (IH _ Hrest) as [-> ->]. auto.
Qed.

Section Normalization.
Context `{Path}.

(** The normalization replaces one final slash or backslash with the
    separator, and appends the separator when there is none. *)
Lemma normalizeLocation_spec raw :
  (exists body c, raw = body +++ String c EmptyString /\ is_slash c = true /\
                  normalizeLocation raw = body +++ String sep EmptyString)
  \/ ((forall body c, raw = body +++ String c EmptyString -> is_slash c = false) /\
      normalizeLocation raw = raw +++ String sep EmptyString).
Proof.
  induction raw as [|c raw IH].
  - right. split; [|reflexivity].
    intros [|x body] c; discriminate.
  - destruct raw as [|c' rest].
    + cbn [normalizeLocation]. destruct (is_slash c) eqn:Hc.
      * left. exists EmptyString, c. auto.
      * right. split; [|reflexivity].
        intros body c0 Heq.
        destruct (append_last_inj EmptyString body c c0 Heq) as [_ <-].
        exact Hc.
    + change (normalizeLocation (String c (String c' rest)))
        with (String c (normalizeLocation (String c' rest))).
      destruct IH as [(body & c0 & Heq & Hc0 & Hn) | [Hnone Hn]].
      * left. exists (String c body), c0. rewrite Hn, Heq. auto.
      * right. rewrite Hn. split; [|reflexivity].
        intros [|x body] c0; [discriminate|].
        cbn [String.append]. intros [= <- Heq]. eapply Hnone; eauto.
Qed.

Lemma normalizeLocation_endsWith raw : endsWith (normalizeLocation raw) sep.
Proof.
  destruct (normalizeLocation_spec raw) as [(body & c & _ & _ & ->) | [_ ->]];
    eexists; reflexivity.
Qed.

End Normalization.

Section Locations.
Context `{Path} `{FileSystem}.
Variable resolver : string -> option Manifest.

Lemma visit_located fuel seedPatterns parentData w resolutions w' :
  visit resolver fuel seedPatterns parentData w = Ok (resolutions, w') ->
  located (fst w) -> located (fst w').
Proof.
  apply (visit_preserves resolver (fun s s' => located s -> located s')).
  - auto.
  - auto.
  - intros s name reference pkg loc s1 deps _ Hrec Hs.
    assert (Hs1 : located s1).
    { apply Hrec. intros n r i. rewrite stores_get_insert.
      destruct (eq_dec _ _); [|apply Hs].
      intros [= <-]. exists loc. reflexivity. }
    intros n r i. rewrite stores_get_set_dependencies.
    destruct (eq_dec _ _); [|apply Hs1].
    destruct (stores_get s1 (Some name) (Some reference)) as [i0|] eqn:Hi0;
      [|discriminate].
    intros [= <-]. exact (Hs1 _ _ _ Hi0).
Qed.

(** What [getPackageInformationStores] returns: the store of [visit]
    with the top-level information under [(null, null)]. *)
Lemma getPackageInformationStores_inv fuel config seedPatterns fs stores fs' :
  getPackageInformationStores resolver fuel config seedPatterns fs
    = Ok (stores, fs') ->
  exists root dependencies visited,
    realpath (lockfileFolder config) fs = Some root /\
    visit resolver fuel seedPatterns [] ([], fs) = Ok (dependencies, (visited, fs')) /\
    stores = map_set visited None
               [(None, {| packageMainEntry := None;
                          packageLocation := normalizeLocation root;
                          packageDependencies := dependencies |})].
Proof.
  unfold getPackageInformationStores.
  destruct (realpath (lockfileFolder config) fs) as [root|]; [|discriminate].
  destruct (visit resolver fuel seedPatterns [] ([], fs))
    as [[dependencies [visited fs1]]| |] eqn:Hv; cbn [bind]; try discriminate.
  intros [= <- <-]. exists root, dependencies, visited. auto.
Qed.

End Locations.

(** ** The store is a deduplicating, append-only map (C5) *)

Section AppendOnly.
Context `{Path} `{FileSystem}.
Variable resolver : string -> option Manifest.

Lemma insertion_present recurse scope pattern pkg ref loc0 reference loc info
    stores fs :
  getResolverEntry resolver pattern = Ok (Some (pkg, ref, loc0)) ->
  map_get (fst scope) (pkg_name pkg) = Some reference ->
  truthy reference = true ->
  map_get (snd scope) (pkg_name pkg) = Some loc ->
  truthy loc = true ->
  stores_get stores (Some (pkg_name pkg)) (Some reference) = Some info ->
  insertion resolver recurse scope pattern (stores, fs) = Ok (stores, fs).
Proof.
  destruct scope as [resolutions locations]. cbn [fst snd].
  intros He Hr Htr Hl Htl Hg. unfold insertion, invariant.
  rewrite He. cbn [bind]. rewrite Hr, Htr, Hl, Htl.
  unfold stores_get in Hg.
  destruct (map_get stores (Some (pkg_name pkg))) as [store|]; [|discriminate].
  rewrite Hg. reflexivity.
Qed.

(** C5. Across any call of [visit] on a store without repeated keys, the
    store still holds at most one information per
    [(packageName, packageReference)], everything it held before is
    still there, unchanged, and an iteration of the second loop that
    finds its [(name, reference)] in the store returns the world as it
    is, whatever the recursive call would do. *)
Theorem C5_store_deduplicates_and_only_grows
    fuel seedPatterns parentData w resolutions w' :
  wf_stores (fst w) ->
  visit resolver fuel seedPatterns parentData w = Ok (resolutions, w') ->
  (forall name reference info1 info2,
      In (name, reference, info1) (entries (fst w')) ->
      In (name, reference, info2) (entries (fst w')) ->
      info1 = info2) /\
  (forall name reference info,
      In (name, reference, info) (entries (fst w)) ->
      In (name, reference, info) (entries (fst w'))) /\
  (forall recurse scope pattern pkg ref loc0 reference loc info fs,
      getResolverEntry resolver pattern = Ok (Some (pkg, ref, loc0)) ->
      map_get (fst scope) (pkg_name pkg) = Some reference ->
      truthy reference = true ->
      map_get (snd scope) (pkg_name pkg) = Some loc ->
      truthy loc = true ->
      stores_get (fst w') (Some (pkg_name pkg)) (Some reference) = Some info ->
      insertion resolver recurse scope pattern (fst w', fs) = Ok (fst w', fs)).
Proof.
  intros Hwf Hv.
  pose proof (visit_wf resolver _ _ _ _ _ _ Hv Hwf) as Hwf'.
  pose proof (visit_extends resolver _ _ _ _ _ _ Hv) as Hext.
  split; [|split].
  - intros name reference info1 info2 H1 H2.
    apply (In_entries_get _ _ _ _ Hwf') in H1, H2. congruence.
  - intros name reference info Hin.
    apply (In_entries_get _ _ _ _ Hwf'), Hext, (In_entries_get _ _ _ _ Hwf), Hin.
  - intros. eapply insertion_present; eauto.
Qed.

End AppendOnly.

(** ** Peer dependencies come from the scope, after the recursion (C6) *)

Lemma set_has_In s x : set_has s x = true <-> In x s.
Proof.
  unfold set_has. rewrite existsb_exists. split.
  - intros (y & Hin & Heq). apply String.eqb_eq in Heq. now subst.
  - intros Hin. exists x. split; [exact Hin | apply String.eqb_refl].
Qed.

Section Peers.
Context `{Path} `{FileSystem}.
Variable resolver : string -> option Manifest.

Lemma injectPeers_get resolutions peers : forall deps name,
  map_get (injectPeers resolutions peers deps) name
  = if set_has peers name
    then match scopeReference resolutions name with
         | Some reference => Some reference
         | None => map_get deps name
         end
    else map_get deps name.
Proof.
  unfold injectPeers.
  induction peers as [|p peers IH]; intros deps name; cbn [fold_left].
  - reflexivity.
  - rewrite IH. unfold set_has. cbn [existsb].
    fold (set_has peers name).
    assert (Hstep :
      map_get (match map_get resolutions p with
               | Some r => if truthy r then map_set deps p r else deps
               | None => deps
               end) name
      = if String.eqb name p
        then match scopeReference resolutions name with
             | Some r => Some r
             | None => map_get deps name
             end
        else map_get deps name).
    { destruct (String.eqb_spec name p) as [->|Hne].
      - unfold scopeReference.
        destruct (map_get resolutions p) as [r|]; [|reflexivity].
        destruct (truthy r); [|reflexivity]. apply map_get_set_same.
      - destruct (map_get resolutions p) as [r|]; [|reflexivity].
        destruct (truthy r); [|reflexivity]. now apply map_get_set_other. }
    rewrite Hstep.
    destruct (String.eqb name p), (set_has peers name),
      (scopeReference resolutions name); reflexivity.
Qed.

(** The names the first loop records are names of resolved seed
    patterns. *)
Lemma prepass_loop_keys parentData seedPatterns : forall st st' name,
  forM (prepass resolver parentData) seedPatterns st = Ok st' ->
  map_get (fst (fst st')) name <> None ->
  map_get (fst (fst st)) name <> None \/
  exists pattern pkg ref loc,
    In pattern seedPatterns /\
    getResolverEntry resolver pattern = Ok (Some (pkg, ref, loc)) /\
    pkg_name pkg = name.
Proof.
  induction seedPatterns as [|p ps IH]; intros st st' name; cbn [forM].
  - intros [= <-]. auto.
  - destruct (prepass resolver parentData p st) as [st1| |] eqn:Hp;
      cbn [bind]; try discriminate.
    intros Hrun Hget.
    destruct (IH _ _ _ Hrun Hget) as [Hold | (q & pkg & ref & loc & Hin & He & Hn)].
    2:{ right. exists q, pkg, ref, loc. split; [now right | auto]. }
    destruct st as [[resolutions locations] fs]. apply prepass_inv in Hp.
    destruct Hp as [He | pkg ref loc He _ | pkg ref loc fs' He _ _];
      cbn [fst] in *; auto;
      rewrite map_get_set in Hold;
      (destruct (eq_dec name (pkg_name pkg)) as [->|Hne];
       [right; exists p, pkg, ref, loc; split; [now left | auto] | auto]).
Qed.

Lemma filterM_direct peers deps direct :
  filterM (isDirectDependency resolver peers) deps = Ok direct ->
  forall d, In d direct ->
  exists pkg, resolver d = Some pkg /\ set_has peers (pkg_name pkg) = false.
Proof.
  revert direct. induction deps as [|x deps IH]; intros direct; cbn [filterM].
  - intros [= <-] d [].
  - unfold isDirectDependency at 1.
    destruct (resolver x) as [pkg|] eqn:Hx; cbn [bind]; [|discriminate].
    destruct (filterM _ deps) as [rest| |]; cbn [bind]; try discriminate.
    intros [= <-] d Hd.
    destruct (set_has peers (pkg_name pkg)) eqn:Hp; cbn [negb] in Hd.
    + now apply (IH rest eq_refl).
    + destruct Hd as [<-|Hd]; [eauto | now apply (IH rest eq_refl)].
Qed.

(** The structure of an iteration that inserts a new information. *)
Lemma insertion_new_inv fuel scope pattern pkg ref loc0 reference stores fs w' :
  getResolverEntry resolver pattern = Ok (Some (pkg, ref, loc0)) ->
  map_get (fst scope) (pkg_name pkg) = Some reference ->
  stores_get stores (Some (pkg_name pkg)) (Some reference) = None ->
  insertion resolver (visit resolver fuel) scope pattern (stores, fs) = Ok w' ->
  exists loc direct deps visited,
    map_get (snd scope) (pkg_name pkg) = Some loc /\
    filterM (isDirectDependency resolver (peerNames pkg)) (ref_dependencies ref)
      = Ok direct /\
    visit resolver fuel direct [pkg_name pkg; reference]
      (stores_insert stores (Some (pkg_name pkg)) (Some reference)
                     (newInformation pkg loc), fs)
      = Ok (deps, (visited, snd w')) /\
    stores_get visited (Some (pkg_name pkg)) (Some reference)
      = Some (newInformation pkg loc) /\
    (forall peer, In peer (peerNames pkg) -> map_get deps peer = None) /\
    stores_get (fst w') (Some (pkg_name pkg)) (Some reference)
      = Some (with_dependencies
                (injectPeers (fst scope) (peerNames pkg) deps)
                (newInformation pkg loc)) /\
    fst w' = stores_set_dependencies visited
               (Some (pkg_name pkg)) (Some reference)
               (injectPeers (fst scope) (peerNames pkg) deps).
Proof.
  destruct scope as [resolutions locations]. cbn [fst snd].
  intros He Hr Hnew Hins. apply insertion_inv in Hins.
  destruct Hins as [He' | pkg' ref' loc0' reference' loc info He' Hr' _ _ _ Hg
                   | pkg' ref' loc0' reference' loc direct deps visited fs'
                       He' Hr' _ Hl _ _ Hf Hrec];
    try congruence.
  assert (pkg' = pkg) by congruence. subst pkg'.
  assert (ref' = ref) by congruence. subst ref'.
  assert (reference' = reference) by congruence. subst reference'.
  exists loc, direct, deps, visited. cbn [fst snd].
  assert (Hstill : stores_get visited (Some (pkg_name pkg)) (Some reference)
                   = Some (newInformation pkg loc)).
  { apply (visit_extends resolver _ _ _ _ _ _ Hrec). cbn [fst].
    rewrite stores_get_insert. destruct (eq_dec _ _); congruence. }
  repeat split; auto.
  - intros peer Hpeer.
    destruct (map_get deps peer) as [r|] eqn:Hd; [|reflexivity]. exfalso.
    apply visit_inv in Hrec.
    destruct Hrec as (fuel' & locs & fs1 & _ & Hpre & _).
    assert (Hsome : map_get deps peer <> None) by congruence.
    destruct (prepass_loop_keys _ _ _ _ _ Hpre Hsome)
      as [Hnil | (d & pkgd & refd & locd & Hin & Hed & Hname)].
    + now apply Hnil.
    + destruct (filterM_direct _ _ _ Hf _ Hin) as (pkgd' & Hres & Hno).
      destruct (entry_inv resolver _ _ _ _ Hed) as (Hres' & _).
      assert (pkgd' = pkgd) by congruence. subst pkgd'.
      rewrite Hname in Hno. apply set_has_In in Hpeer. congruence.
  - rewrite stores_get_set_dependencies.
    destruct (eq_dec _ _); [|congruence].
    rewrite Hstill. reflexivity.
Qed.

(** C6. When an iteration of the second loop inserts a new information,
    the information found in the store when the recursive [visit] of the
    non-peer direct dependencies returns still has no dependency, and the
    mapping that [visit] returned binds no peer name.  The peer entries
    are added after that: in the resulting store the information maps a
    peer name to the reference the enclosing scope recorded for it, and
    to nothing when the scope recorded none (or an empty one); every
    other name is mapped as the recursive [visit] returned it. *)
Theorem C6_peers_injected_after_recursion
    fuel scope pattern pkg ref loc0 reference stores fs w' :
  getResolverEntry resolver pattern = Ok (Some (pkg, ref, loc0)) ->
  map_get (fst scope) (pkg_name pkg) = Some reference ->
  stores_get stores (Some (pkg_name pkg)) (Some reference) = None ->
  insertion resolver (visit resolver fuel) scope pattern (stores, fs) = Ok w' ->
  exists loc direct deps visited info,
    filterM (isDirectDependency resolver (peerNames pkg)) (ref_dependencies ref)
      = Ok direct /\
    visit resolver fuel direct [pkg_name pkg; reference]
      (stores_insert stores (Some (pkg_name pkg)) (Some reference)
                     (newInformation pkg loc), fs)
      = Ok (deps, (visited, snd w')) /\
    (exists before,
        stores_get visited (Some (pkg_name pkg)) (Some reference) = Some before /\
        packageDependencies before = []) /\
    (forall peer, In peer (peerNames pkg) -> map_get deps peer = None) /\
    stores_get (fst w') (Some (pkg_name pkg)) (Some reference) = Some info /\
    packageDependencies info = injectPeers (fst scope) (peerNames pkg) deps /\
    (forall peer, In peer (peerNames pkg) ->
       map_get (packageDependencies info) peer = scopeReference (fst scope) peer) /\
    (forall name, ~ In name (peerNames pkg) ->
       map_get (packageDependencies info) name = map_get deps name).
Proof.
  intros He Hr Hnew Hins.
  destruct (insertion_new_inv _ _ _ _ _ _ _ _ _ _ He Hr Hnew Hins)
    as (loc & direct & deps & visited & _ & Hf & Hrec & Hstill & Hnone & Hfinal & _).
  exists loc, direct, deps, visited,
    (with_dependencies (injectPeers (fst scope) (peerNames pkg) deps)
                       (newInformation pkg loc)).
  repeat split; auto.
  - exists (newInformation pkg loc). auto.
  - intros peer Hpeer. cbn [packageDependencies with_dependencies].
    rewrite injectPeers_get.
    rewrite (proj2 (set_has_In _ _) Hpeer), (Hnone _ Hpeer).
    now destruct (scopeReference (fst scope) peer).
  - intros name Hname. cbn [packageDependencies with_dependencies].
    rewrite injectPeers_get.
    destruct (set_has (peerNames pkg) name) eqn:Hs; [|reflexivity].
    apply set_has_In in Hs. contradiction.
Qed.

End Peers.

(** ** The order of the length tests *)

Lemma lengths_tally stores : lengths stores = tally (locationLengths stores) [].
Proof.
  unfold lengths, tally, locationLengths.
  generalize (@nil (nat * nat)) as acc.
  induction (entries stores) as [|[[n r] info] es IH]; intros acc;
    cbn [fold_left map]; [reflexivity|].
  apply IH.
Qed.

Lemma precedes_In {A} (l : list A) a b : precedes l a b -> In a l /\ In b l.
Proof.
  induction 1 as [a b l Hb | c l a b _ [Ha Hb]]; cbn [In]; auto.
Qed.

Lemma precedes_snoc {A} (l : list A) n a b :
  precedes (l ++ [n]) a b -> precedes l a b \/ (In a l /\ b = n).
Proof.
  induction l as [|x l IH]; cbn [app]; intros Hp.
  - inversion Hp as [? ? ? Hb | ? ? ? ? Hp']; subst;
      [destruct Hb | inversion Hp'].
  - inversion Hp as [? ? ? Hb | ? ? ? ? Hp']; subst.
    + apply in_app_or in Hb. destruct Hb as [Hb | [<- | []]].
      * left. now constructor.
      * right. split; [now left | reflexivity].
    + destruct (IH Hp') as [Hl | [Ha ->]].
      * left. now apply precedes_later.
      * right. split; [now right | reflexivity].
Qed.

Lemma precedes_map {A B} (f : A -> B) l a b :
  precedes l a b -> precedes (map f l) (f a) (f b).
Proof.
  induction 1 as [a b l Hb | c l a b _ IH]; cbn [map].
  - apply precedes_here. now apply in_map.
  - now apply precedes_later.
Qed.

Lemma seenBefore_app seen more x y :
  seenBefore seen x y -> seenBefore (seen ++ more) x y.
Proof.
  intros (Hne & l1 & l2 & -> & Hy). split; [exact Hne|].
  exists l1, (l2 ++ more). split; [|exact Hy].
  now rewrite <- app_assoc.
Qed.

Lemma tallied_step seen acc n :
  tallied seen acc ->
  tallied (seen ++ [n])
    (map_set acc n (match map_get acc n with Some c => c | None => 0 end + 1)).
Proof.
  intros (Hcount & Hnd & Hord). split; [|split].
  - intros m. rewrite map_get_set, count_occ_app. cbn [count_occ].
    unfold eq_dec, nat_EqDec.
    destruct (Nat.eq_dec m n) as [->|Hne].
    + destruct (Nat.eq_dec n n) as [_|]; [|congruence].
      rewrite Hcount.
      destruct (count_occ Nat.eq_dec seen n) as [|c] eqn:Hc; cbn [Nat.eqb].
      * reflexivity.
      * replace (S c + 1 =? 0) with false
          by (symmetry; apply Nat.eqb_neq; lia).
        reflexivity.
    + destruct (Nat.eq_dec n m) as [|_]; [congruence|].
      rewrite Nat.add_0_r. apply Hcount.
  - now apply map_set_NoDup.
  - intros a b. rewrite map_keys_set.
    destruct (map_get acc n) as [c|] eqn:Hn.
    + intros Hp. apply seenBefore_app. now apply Hord.
    + intros Hp. apply precedes_snoc in Hp.
      destruct Hp as [Hp | [Ha ->]]; [apply seenBefore_app; now apply Hord|].
      assert (Hnot : ~ In n seen).
      { rewrite Hcount in Hn. apply (count_occ_not_In Nat.eq_dec).
        destruct (count_occ Nat.eq_dec seen n); [reflexivity | discriminate]. }
      assert (Hseen : In a seen).
      { apply (count_occ_In Nat.eq_dec).
        destruct (map_get acc a) as [c|] eqn:Hga.
        - rewrite Hcount in Hga.
          destruct (count_occ Nat.eq_dec seen a); [discriminate | lia].
        - apply map_get_None in Hga. contradiction. }
      split; [intros ->; contradiction|].
      apply in_split in Hseen. destruct Hseen as (l1 & l2 & ->).
      exists l1, (l2 ++ [n]). split.
      * now rewrite <- app_assoc.
      * intros Hin. apply Hnot. apply in_or_app. now left.
Qed.

Lemma tallied_tally more : forall seen acc,
  tallied seen acc -> tallied (seen ++ more) (tally more acc).
Proof.
  induction more as [|n more IH]; intros seen acc Ht; cbn [tally fold_left].
  - now rewrite app_nil_r.
  - replace (seen ++ n :: more) with ((seen ++ [n]) ++ more)
      by (now rewrite <- app_assoc).
    apply IH. now apply tallied_step.
Qed.

Lemma tallied_lengths stores : tallied (locationLengths stores) (lengths stores).
Proof.
  rewrite lengths_tally.
  apply (tallied_tally (locationLengths stores) [] []).
  split; [|split].
  - reflexivity.
  - constructor.
  - intros a b Hp. inversion Hp.
Qed.

(** The sort is a stable sort by descending count. *)
Lemma sort_insert_In x sorted a :
  In a (sort_insert x sorted) <-> a = x \/ In a sorted.
Proof.
  induction sorted as [|y rest IH]; cbn [sort_insert In].
  - intuition.
  - destruct (snd y <=? snd x); cbn [In]; [intuition|].
    rewrite IH. intuition.
Qed.

Lemma sort_by_count_In l a : In a (sort_by_count l) <-> In a l.
Proof.
  induction l as [|x l IH]; cbn [sort_by_count In]; [tauto|].
  rewrite sort_insert_In, IH. intuition.
Qed.

Lemma sort_insert_Permutation x sorted :
  Permutation (sort_insert x sorted) (x :: sorted).
Proof.
  induction sorted as [|y rest IH]; cbn [sort_insert]; [reflexivity|].
  destruct (snd y <=? snd x); [reflexivity|].
  rewrite IH. apply perm_swap.
Qed.

Lemma sort_by_count_Permutation l : Permutation (sort_by_count l) l.
Proof.
  induction l as [|x l IH]; cbn [sort_by_count]; [reflexivity|].
  rewrite sort_insert_Permutation. now constructor.
Qed.

Lemma sort_insert_precedes x sorted a b :
  (forall c d, precedes sorted c d -> snd d <= snd c) ->
  precedes (sort_insert x sorted) a b ->
  precedes sorted a b \/
  (a = x /\ In b sorted /\ snd b <= snd x) \/
  (b = x /\ In a sorted /\ snd x < snd a).
Proof.
  induction sorted as [|y rest IH]; cbn [sort_insert]; intros Hdesc Hp.
  - inversion Hp as [? ? ? Hb | ? ? ? ? Hp']; subst;
      [destruct Hb | inversion Hp'].
  - destruct (snd y <=? snd x) eqn:Hle.
    + apply Nat.leb_le in Hle.
      inversion Hp as [? ? ? Hb | ? ? ? ? Hp']; subst; [|now left].
      right. left. split; [reflexivity|]. split; [exact Hb|].
      destruct Hb as [<-|Hb]; [exact Hle|].
      transitivity (snd y); [|exact Hle].
      apply Hdesc. now constructor.
    + apply Nat.leb_gt in Hle.
      inversion Hp as [? ? ? Hb | ? ? ? ? Hp']; subst.
      * apply sort_insert_In in Hb. destruct Hb as [->|Hb].
        -- right. right. split; [reflexivity|]. split; [now left | exact Hle].
        -- left. now constructor.
      * destruct (IH (fun c d Hcd => Hdesc c d (precedes_later y rest c d Hcd)) Hp')
          as [Hr | [(-> & Hb & Hle') | (-> & Ha & Hlt)]].
        -- left. now apply precedes_later.
        -- right. left. split; [reflexivity|]. split; [now right | exact Hle'].
        -- right. right. split; [reflexivity|]. split; [now right | exact Hlt].
Qed.

Lemma sort_by_count_stable l : forall a b,
  precedes (sort_by_count l) a b ->
  snd b < snd a \/ (snd a = snd b /\ precedes l a b).
Proof.
  induction l as [|x l IH]; cbn [sort_by_count]; intros a b Hp.
  - inversion Hp.
  - apply sort_insert_precedes in Hp.
    + destruct Hp as [Hp | [(-> & Hb & Hle) | (-> & Ha & Hlt)]].
      * destruct (IH a b Hp) as [Hlt | [Heq Hl]]; [now left|].
        right. split; [exact Heq | now apply precedes_later].
      * rewrite sort_by_count_In in Hb.
        destruct (Nat.eq_dec (snd b) (snd x)) as [Heq|Hne]; [|left; lia].
        right. split; [now symmetry | now constructor].
      * now left.
    + intros c d Hcd. destruct (IH c d Hcd) as [Hlt | [Heq _]]; lia.
Qed.

(** ** The chain of tests matches whole registered locations *)

Lemma substr0_prefix n : forall s,
  n <= String.length s -> exists rest, s = substr0 n s +++ rest.
Proof.
  unfold substr0. induction n as [|n IH]; intros s Hle.
  - exists s. now destruct s.
  - destruct s as [|c s]; cbn [String.length] in Hle; [lia|].
    destruct (IH s) as (rest & Hrest); [lia|].
    exists rest. cbn [String.substring String.append]. now rewrite <- Hrest.
Qed.


Lemma map_of_get {K V} `{EqDec K} (l : list (K * V)) k v :
  map_get (map_of l) k = Some v -> In (k, v) l.
Proof.
  unfold map_of.
  assert (Hgen : forall acc,
    map_get (fold_left (fun m kv => map_set m (fst kv) (snd kv)) l acc) k = Some v ->
    In (k, v) l \/ map_get acc k = Some v).
  { induction l as [|[k0 v0] l IH]; intros acc; cbn [fold_left fst snd].
    - auto.
    - intros Hg. destruct (IH _ Hg) as [Hin | Hacc]; [left; now right|].
      rewrite map_get_set in Hacc.
      destruct (eq_dec k k0) as [->|]; [|now right].
      left. left. congruence. }
  intros Hg. destruct (Hgen [] Hg) as [Hin | Hnil]; [exact Hin | discriminate].
Qed.

Section Matcher.
Context `{Path}.

Lemma findIn_Some table tests location locator :
  findIn table tests location = Some locator ->
  exists n i,
    In n tests /\ n <= String.length location /\ n = S i /\
    str_get location i = Some sep /\
    map_get table (substr0 n location) = Some locator.
Proof.
  induction tests as [|n tests IH]; cbn [findIn]; [discriminate|].
  destruct (n <=? String.length location) eqn:Hlen; cbn [andb].
  2:{ intros Hf. destruct (IH Hf) as (m & i & Hin & Hrest).
      exists m, i. split; [now right | exact Hrest]. }
  destruct n as [|i].
  { intros Hf. destruct (IH Hf) as (m & j & Hin & Hrest).
    exists m, j. split; [now right | exact Hrest]. }
  destruct (str_get location i) as [c|] eqn:Hc.
  2:{ intros Hf. destruct (IH Hf) as (m & j & Hin & Hrest).
      exists m, j. split; [now right | exact Hrest]. }
  destruct (Ascii.eqb_spec c sep) as [->|Hne].
  2:{ intros Hf. destruct (IH Hf) as (m & j & Hin & Hrest).
      exists m, j. split; [now right | exact Hrest]. }
  destruct (map_get table (substr0 (S i) location)) as [found|] eqn:Hg.
  - intros [= ->]. exists (S i), i. apply Nat.leb_le in Hlen.
    repeat split; auto. now left.
  - intros Hf. destruct (IH Hf) as (m & j & Hin & Hrest).
    exists m, j. split; [now right | exact Hrest].
Qed.

Lemma locatorsByLocations_get stores location locator :
  map_get (locatorsByLocations stores) location = Some locator ->
  exists name reference info,
    In (name, reference, info) (entries stores) /\
    packageLocation info = location /\
    locator = locatorOf name reference.
Proof.
  unfold locatorsByLocations. intros Hg. apply map_of_get in Hg.
  apply in_map_iff in Hg. destruct Hg as ([[name reference] info] & Heq & Hin).
  exists name, reference, info. split; [exact Hin|].
  injection Heq as <- <-. split; [reflexivity | now destruct name].
Qed.

End Matcher.

(** ** A template without the marker is returned as it is (C1) *)

Lemma prefix_split m : forall s,
  String.prefix m s = true ->
  s = m +++ String.substring (String.length m)
                             (String.length s - String.length m) s.
Proof.
  induction m as [|a m IH]; intros s.
  - intros _. cbn [String.length String.append]. rewrite Nat.sub_0_r.
    clear. induction s as [|c s IHs]; [reflexivity|].
    cbn [String.length String.substring]. now rewrite <- IHs.
  - destruct s as [|b s]; cbn [String.prefix]; [discriminate|].
    destruct (ascii_dec a b) as [->|]; [|discriminate].
    intros Hp. cbn [String.length String.append String.substring Nat.sub].
    now rewrite <- IH.
Qed.

Lemma prefix_append m : forall rest, String.prefix m (m +++ rest) = true.
Proof.
  induction m as [|a m IH]; intros rest; cbn [String.prefix String.append].
  - now destruct rest.
  - destruct (ascii_dec a a); [apply IH | congruence].
Qed.

Lemma findMarker_eq s :
  findMarker s
  = if String.prefix marker s
    then Some (EmptyString,
               String.substring (String.length marker)
                                (String.length s - String.length marker) s)
    else match s with
         | EmptyString => None
         | String c rest =>
             match findMarker rest with
             | Some (before, after) => Some (String c before, after)
             | None => None
             end
         end.
Proof. destruct s; reflexivity. Qed.

Lemma findMarker_Some s : forall before after,
  findMarker s = Some (before, after) -> s = before +++ marker +++ after.
Proof.
  induction s as [|c s IH]; intros before after; rewrite findMarker_eq.
  - destruct (String.prefix marker EmptyString) eqn:Hp; [|discriminate].
    intros [= <- <-]. now apply prefix_split.
  - destruct (String.prefix marker (String c s)) eqn:Hp.
    + intros [= <- <-]. now apply prefix_split.
    + destruct (findMarker s) as [[b a]|]; [|discriminate].
      intros [= <- <-]. cbn [String.append]. now rewrite <- (IH b a).
Qed.

Lemma findMarker_None s :
  findMarker s = None <-> forall before after, s <> before +++ marker +++ after.
Proof.
  split.
  - intros Hnone before. revert s Hnone.
    induction before as [|c before IH]; intros s Hnone after ->;
      rewrite findMarker_eq in Hnone.
    + cbn [String.append] in Hnone. now rewrite prefix_append in Hnone.
    + cbn [String.append] in Hnone.
      destruct (String.prefix marker _); [discriminate|].
      destruct (findMarker (before +++ marker +++ after)) as [[b a]|] eqn:Hf;
        [discriminate|].
      now apply (IH _ Hf after).
  - intros Hno. destruct (findMarker s) as [[b a]|] eqn:Hf; [|reflexivity].
    apply findMarker_Some in Hf. now elim (Hno b a).
Qed.

Section MissingMarker.
Context `{Path} `{FileSystem}.
Variable resolver : string -> option Manifest.

(** C1, as amended.  When the template does not contain the marker,
    [generatePnpMap] raises no error of its own: it fails only when the
    construction of the store fails, and otherwise returns the template
    as it is, without the generated tables. *)
Theorem C1_template_without_marker_is_returned
    pnpApi fuel config seedPatterns fs :
  (forall before after, pnpApi <> before +++ marker +++ after) ->
  generatePnpMap resolver pnpApi fuel config seedPatterns fs
  = match getPackageInformationStores resolver fuel config seedPatterns fs with
    | Ok (_, fs') => Ok (pnpApi, fs')
    | Err e => Err e
    | OutOfFuel => OutOfFuel
    end.
Proof.
  intros Hno. apply findMarker_None in Hno. unfold generatePnpMap.
  destruct (getPackageInformationStores resolver fuel config seedPatterns fs)
    as [[stores fs']| |]; cbn [bind]; try reflexivity.
  unfold replaceMarker. now rewrite Hno.
Qed.

End MissingMarker.

(** ** Termination on finitely many identities *)

Lemma filter_length_le {A} (f g : A -> bool) l :
  (forall x, In x l -> f x = true -> g x = true) ->
  List.length (filter f l) <= List.length (filter g l).
Proof.
  induction l as [|x l IH]; intros Himp; cbn [filter]; [lia|].
  assert (IH' : List.length (filter f l) <= List.length (filter g l)).
  { apply IH. intros y Hy. apply Himp. now right. }
  destruct (f x) eqn:Hf.
  - rewrite (Himp x (or_introl eq_refl) Hf). cbn [List.length]. lia.
  - destruct (g x); cbn [List.length]; lia.
Qed.

Lemma filter_length_lt {A} (f g : A -> bool) l x :
  (forall y, In y l -> f y = true -> g y = true) ->
  In x l -> f x = false -> g x = true ->
  List.length (filter f l) < List.length (filter g l).
Proof.
  induction l as [|y l IH]; intros Himp Hin Hf Hg; [destruct Hin|].
  cbn [filter].
  assert (Hle : List.length (filter f l) <= List.length (filter g l)).
  { apply filter_length_le. intros z Hz. apply Himp. now right. }
  destruct Hin as [->|Hin].
  - rewrite Hf, Hg. cbn [List.length]. lia.
  - assert (IH' : List.length (filter f l) < List.length (filter g l)).
    { apply IH; auto. intros z Hz. apply Himp. now right. }
    destruct (f y) eqn:Hfy.
    + rewrite (Himp y (or_introl eq_refl) Hfy). cbn [List.length]. lia.
    + destruct (g y); cbn [List.length]; lia.
Qed.

Lemma missing_extends universe s s' :
  extends s s' -> missing universe s' <= missing universe s.
Proof.
  intros Hext. apply filter_length_le. intros [n r] _. cbn [fst snd].
  destruct (stores_get s n r) as [i|] eqn:Hs; [|reflexivity].
  now rewrite (Hext _ _ _ Hs).
Qed.

Lemma missing_insert universe s name reference info :
  In (name, reference) universe ->
  stores_get s name reference = None ->
  missing universe (stores_insert s name reference info) < missing universe s.
Proof.
  intros Hin Hnew. apply filter_length_lt with (x := (name, reference)).
  - intros [n r] _. cbn [fst snd]. rewrite stores_get_insert.
    destruct (eq_dec _ _); [discriminate | auto].
  - exact Hin.
  - cbn [fst snd]. rewrite stores_get_insert.
    destruct (eq_dec _ _); congruence.
  - cbn [fst snd]. now rewrite Hnew.
Qed.

Lemma forM_out_of_fuel {A S} (body : A -> S -> result S) (P : S -> Prop) xs :
  (forall x s s', In x xs -> P s -> body x s = Ok s' -> P s') ->
  forall s, P s -> forM body xs s = OutOfFuel ->
  exists x s0, In x xs /\ P s0 /\ body x s0 = OutOfFuel.
Proof.
  induction xs as [|x xs IH]; intros Hstep s Hs; cbn [forM]; [discriminate|].
  destruct (body x s) as [s1| |] eqn:Hb; cbn [bind]; try discriminate.
  - intros Hrun.
    destruct (IH (fun y t t' Hy => Hstep y t t' (or_intror Hy)) s1
                 (Hstep x s s1 (or_introl eq_refl) Hs Hb) Hrun)
      as (y & s0 & Hy & Hs0 & Hbody).
    exists y, s0. split; [now right | auto].
  - intros _. exists x, s. split; [now left | auto].
Qed.

Section Termination.
Context `{Path} `{FileSystem}.
Variable resolver : string -> option Manifest.

Lemma filterM_direct_fuel peers deps :
  filterM (isDirectDependency resolver peers) deps <> OutOfFuel.
Proof.
  induction deps as [|d deps IH]; cbn [filterM]; [discriminate|].
  unfold isDirectDependency at 1.
  destruct (resolver d); cbn [bind]; [|discriminate].
  destruct (filterM _ deps); cbn [bind]; try discriminate. contradiction.
Qed.

Lemma prepass_fuel parentData pattern st :
  prepass resolver parentData pattern st <> OutOfFuel.
Proof.
  destruct st as [[resolutions locations] fs]. unfold prepass, getResolverEntry.
  destruct (resolver pattern) as [pkg|]; cbn [bind]; [|discriminate].
  destruct (pkg_reference pkg) as [ref|]; cbn [bind]; [|discriminate].
  destruct (ref_location ref) as [loc|]; cbn [bind]; [|discriminate].
  destruct (truthy loc); cbn [bind]; [|discriminate].
  destruct (0 <? List.length (peerNames pkg)); cbn [bind]; [|discriminate].
  destruct (symlink loc _ fs); cbn [bind]; discriminate.
Qed.

(** An iteration of the second loop runs out of fuel only in its
    recursive call, made for an identity new to the store. *)
Lemma insertion_out_of_fuel recurse resolutions locations pattern stores fs :
  insertion resolver recurse (resolutions, locations) pattern (stores, fs)
    = OutOfFuel ->
  exists pkg ref loc0 reference loc direct,
    getResolverEntry resolver pattern = Ok (Some (pkg, ref, loc0)) /\
    map_get resolutions (pkg_name pkg) = Some reference /\
    stores_get stores (Some (pkg_name pkg)) (Some reference) = None /\
    recurse direct [pkg_name pkg; reference]
      (stores_insert stores (Some (pkg_name pkg)) (Some reference)
                     (newInformation pkg loc), fs) = OutOfFuel.
Proof.
  unfold insertion.
  destruct (getResolverEntry resolver pattern) as [[[[pkg ref] loc0]|]| |] eqn:He;
    cbn [bind]; try discriminate.
  2:{ unfold getResolverEntry in He.
      destruct (resolver pattern) as [pkg|]; [|discriminate].
      destruct (pkg_reference pkg) as [ref|]; [|discriminate].
      destruct (ref_location ref) as [loc|]; [|discriminate].
      destruct (truthy loc); discriminate. }
  destruct (map_get resolutions (pkg_name pkg)) as [reference|] eqn:Hr;
    [|discriminate].
  unfold invariant.
  destruct (truthy reference); [|discriminate].
  destruct (map_get locations (pkg_name pkg)) as [loc|]; [|discriminate].
  destruct (truthy loc); [|discriminate].
  destruct (map_get stores (Some (pkg_name pkg))) as [store|] eqn:Hs.
  - destruct (map_get store (Some reference)) as [info|] eqn:Hi; [discriminate|].
    destruct (filterM _ _) as [direct| |] eqn:Hf; cbn [bind]; try discriminate.
    2:{ now elim (filterM_direct_fuel _ _ Hf). }
    destruct (recurse _ _ _) as [[deps [stores' fs']]| |] eqn:Hrec;
      cbn [bind]; try discriminate.
    intros _. exists pkg, ref, loc0, reference, loc, direct.
    repeat split; auto.
    + unfold stores_get. rewrite Hs. exact Hi.
    + unfold stores_insert, newInformation. rewrite Hs. exact Hrec.
  - cbn [map_get].
    destruct (filterM _ _) as [direct| |] eqn:Hf; cbn [bind]; try discriminate.
    2:{ now elim (filterM_direct_fuel _ _ Hf). }
    rewrite map_set_set.
    destruct (recurse _ _ _) as [[deps [stores' fs']]| |] eqn:Hrec;
      cbn [bind]; try discriminate.
    intros _. exists pkg, ref, loc0, reference, loc, direct.
    repeat split; auto.
    + unfold stores_get. rewrite Hs. reflexivity.
    + unfold stores_insert, newInformation. rewrite Hs. exact Hrec.
Qed.

Lemma insertion_extends fuel scope pattern w w' :
  insertion resolver (visit resolver fuel) scope pattern w = Ok w' ->
  extends (fst w) (fst w').
Proof.
  destruct scope as [resolutions locations], w as [stores fs]. intros Hins.
  apply insertion_inv in Hins.
  destruct Hins as [ | | pkg ref loc0 reference loc direct deps s1 fs1
                         _ _ _ _ _ Hnew _ Hrec]; cbn [fst];
    try apply extends_refl.
  apply extends_set_dependencies; [exact Hnew|].
  eapply extends_trans; [|exact (visit_extends resolver _ _ _ _ _ _ Hrec)].
  cbn [fst]. now apply extends_insert.
Qed.

(** The references the first loop records are those of resolved seed
    patterns under the parent data. *)
Lemma prepass_loop_values parentData seedPatterns : forall st st' name reference,
  forM (prepass resolver parentData) seedPatterns st = Ok st' ->
  map_get (fst (fst st')) name = Some reference ->
  map_get (fst (fst st)) name = Some reference \/
  exists pattern pkg ref loc,
    In pattern seedPatterns /\
    getResolverEntry resolver pattern = Ok (Some (pkg, ref, loc)) /\
    pkg_name pkg = name /\ reference = referenceIn parentData pkg.
Proof.
  induction seedPatterns as [|p ps IH]; intros st st' name reference; cbn [forM].
  - intros [= <-]. auto.
  - destruct (prepass resolver parentData p st) as [st1| |] eqn:Hp;
      cbn [bind]; try discriminate.
    intros Hrun Hget.
    destruct (IH _ _ _ _ Hrun Hget)
      as [Hold | (q & pkg & ref & loc & Hin & He & Hn & Hr)].
    2:{ right. exists q, pkg, ref, loc. split; [now right | auto]. }
    destruct st as [[resolutions locations] fs]. apply prepass_inv in Hp.
    destruct Hp as [He | pkg ref loc He Hnil | pkg ref loc fs' He _ _];
      cbn [fst] in *; auto;
      rewrite map_get_set in Hold;
      (destruct (eq_dec name (pkg_name pkg)) as [->|Hne]; [|auto]);
      right; exists p, pkg, ref, loc;
      (split; [now left|]); (split; [exact He|]); (split; [reflexivity|]).
    + unfold referenceIn. rewrite Hnil. cbn. congruence.
    + congruence.
Qed.

Section Universe.
(** A finite list of identities that holds the identity of every
    resolved package, under no parent and under any parent it holds. *)
Variable universe : list (option string * option string).

Hypothesis covered_below :
  forall name reference,
    In (Some name, Some reference) universe ->
    covered resolver universe [name; reference].

Lemma visit_has_fuel fuel : forall seedPatterns parentData w,
  covered resolver universe parentData ->
  missing universe (fst w) < fuel ->
  visit resolver fuel seedPatterns parentData w <> OutOfFuel.
Proof.
  induction fuel as [|fuel IH]; intros seedPatterns parentData [stores fs]
                                       Hcov Hlt; [lia|].
  cbn [fst] in Hlt. cbn [visit].
  destruct (forM (prepass resolver parentData) seedPatterns _)
    as [[[resolutions locations] fs1]| |] eqn:Hpre; cbn [bind]; try discriminate.
  2:{ exfalso. revert Hpre. clear.
      generalize (@nil (string * string), @nil (string * string), fs) as st.
      induction seedPatterns as [|p ps IHp]; intros st; cbn [forM];
        [discriminate|].
      destruct (prepass resolver parentData p st) eqn:Hp; cbn [bind];
        [apply IHp | discriminate | now elim (prepass_fuel _ _ _ Hp)]. }
  destruct (forM (insertion resolver _ _) seedPatterns _) as [w1| |] eqn:Hins;
    cbn [bind]; try discriminate.
  exfalso.
  apply (forM_out_of_fuel _
           (fun w0 : World => missing universe (fst w0) <= missing universe stores))
    in Hins.
  - destruct Hins as (p & [s0 fs0] & Hin & Hle & Hbody). cbn [fst] in Hle.
    apply insertion_out_of_fuel in Hbody.
    destruct Hbody as (pkg & ref & loc0 & reference & loc & direct
                       & He & Hr & Hnew & Hrec).
    assert (Hkey : In (Some (pkg_name pkg), Some reference) universe).
    { destruct (prepass_loop_values _ _ _ _ _ _ Hpre Hr)
        as [Hnil | (q & pkg' & ref' & loc' & _ & He' & Hname & ->)];
        [discriminate|].
      rewrite <- Hname. eapply Hcov; eauto. }
    revert Hrec. apply IH; [now apply covered_below|]. cbn [fst].
    pose proof (missing_insert universe s0 _ _ (newInformation pkg loc)
                  Hkey Hnew). lia.
  - intros p w0 w0' _ Hle Hbody.
    apply insertion_extends in Hbody.
    apply (missing_extends universe) in Hbody. lia.
  - cbn [fst]. lia.
Qed.

End Universe.

(** When the identities that can arise are finitely many, [visit]
    returns, or throws, within one nested call per identity and one
    more. *)
Theorem visit_terminates universe seedPatterns w :
  (forall pattern pkg ref loc,
      getResolverEntry resolver pattern = Ok (Some (pkg, ref, loc)) ->
      In (Some (pkg_name pkg), Some (referenceIn [] pkg)) universe) ->
  (forall name reference pattern pkg ref loc,
      In (Some name, Some reference) universe ->
      getResolverEntry resolver pattern = Ok (Some (pkg, ref, loc)) ->
      In (Some (pkg_name pkg), Some (referenceIn [name; reference] pkg)) universe) ->
  visit resolver (S (List.length universe)) seedPatterns [] w <> OutOfFuel.
Proof.
  intros Hroot Hbelow.
  apply (visit_has_fuel universe); [|exact Hroot|].
  - intros name reference Hin pattern pkg ref loc He. eapply Hbelow; eauto.
  - unfold missing.
    pose proof (filter_length
      (fun k => match stores_get (fst w) (fst k) (snd k) with
                | Some _ => false | None => true end) universe) as Hlen.
    apply Nat.lt_succ_r. rewrite <- Hlen. apply Nat.le_add_r.
Qed.

(** In particular on a finite graph without peer dependencies, cyclic or
    not: the identities are the names and versions of [known]. *)
Corollary visit_terminates_without_peers known seedPatterns w :
  (forall pattern pkg, resolver pattern = Some pkg ->
     peerNames pkg = [] /\ In (pkg_name pkg, pkg_version pkg) known) ->
  visit resolver (S (List.length known)) seedPatterns [] w <> OutOfFuel.
Proof.
  intros Hknown.
  assert (Hin : forall parentData pattern pkg ref loc,
    getResolverEntry resolver pattern = Ok (Some (pkg, ref, loc)) ->
    In (Some (pkg_name pkg), Some (referenceIn parentData pkg))
       (map (fun nv => (Some (fst nv), Some (snd nv))) known)).
  { intros parentData pattern pkg ref loc He.
    destruct (entry_inv resolver _ _ _ _ He) as (Hres & _).
    destruct (Hknown _ _ Hres) as [Hnil Hk].
    unfold referenceIn. rewrite Hnil. cbn [List.length Nat.ltb Nat.leb].
    apply in_map_iff. exists (pkg_name pkg, pkg_version pkg). auto. }
  rewrite <- (length_map (fun nv => (Some (fst nv), Some (snd nv))) known).
  apply visit_terminates.
  - apply Hin.
  - intros name reference pattern pkg ref loc _. apply Hin.
Qed.

End Termination.

(* ================================================================== *)
(** * Further properties of the generators and of the builder *)

(** ** Text *)

Lemma append_assoc a b c : (a +++ b) +++ c = a +++ (b +++ c).
Proof. induction a as [|x a IH]; cbn [String.append]; congruence. Qed.

Lemma append_nil_r a : a +++ EmptyString = a.
Proof. induction a as [|x a IH]; cbn [String.append]; congruence. Qed.

Lemma length_append a b :
  String.length (a +++ b) = String.length a + String.length b.
Proof. induction a as [|x a IH]; cbn [String.append String.length]; [reflexivity|].
  now rewrite IH. Qed.

Lemma append_inj_length a b c d :
  String.length a = String.length b -> a +++ c = b +++ d -> a = b /\ c = d.
Proof.
  revert b. induction a as [|x a IH]; intros [|y b]; cbn [String.append String.length];
    try discriminate.
  - auto.
  - intros [= Hlen] [= -> Hrest]. destruct (IH _ Hlen Hrest) as [-> ->]. auto.
Qed.

Lemma concat_cons x xs :
  String.concat EmptyString (x :: xs) = x +++ String.concat EmptyString xs.
Proof.
  destruct xs as [|y ys]; cbn [String.concat String.append].
  - now rewrite append_nil_r.
  - reflexivity.
Qed.

Lemma concatMap_cons {A} (f : A -> string) x xs :
  concatMap f (x :: xs) = f x +++ concatMap f xs.
Proof. unfold concatMap. cbn [map]. apply concat_cons. Qed.

(** ** The literals of [JSON.stringify] read back *)

Lemma readCharacters_escapeChar c tail :
  readCharacters (escapeChar c +++ tail) = prepend c (readCharacters tail).
Proof. destruct c as [[] [] [] [] [] [] [] []]; reflexivity. Qed.

Lemma readCharacters_escaped l : forall tail,
  readCharacters (String.concat EmptyString (map escapeChar l) +++ quote +++ tail)
  = Some (string_of_list_ascii l, tail).
Proof.
  induction l as [|c l IH]; intros tail.
  - reflexivity.
  - cbn [map]. rewrite concat_cons, append_assoc, readCharacters_escapeChar, IH.
    reflexivity.
Qed.

Lemma readLiteral_stringify s tail :
  readLiteral (stringify s +++ tail) = Some (s, tail).
Proof.
  unfold stringify. rewrite !append_assoc.
  change (quote +++ ?x) with (String (ascii_of_nat 34) x).
  cbn [readLiteral]. change (nat_of_ascii (ascii_of_nat 34) =? 34) with true.
  cbv iota. rewrite readCharacters_escaped.
  now rewrite string_of_list_ascii_of_string.
Qed.

(** Whatever text follows it, the literal [JSON.stringify] writes for a
    string is read back as that string, and reading stops right after
    the literal.  Hence two strings with the same literal are equal. *)
Theorem stringify_reads_back :
  (forall s tail, readLiteral (stringify s +++ tail) = Some (s, tail)) /\
  (forall s1 s2, stringify s1 = stringify s2 -> s1 = s2).
Proof.
  split; [apply readLiteral_stringify|].
  intros s1 s2 Heq.
  pose proof (readLiteral_stringify s1 EmptyString) as H1.
  pose proof (readLiteral_stringify s2 EmptyString) as H2.
  rewrite Heq in H1. congruence.
Qed.

(** ** The marker and its replacement *)

(** [findMarker] splits at the first occurrence of the marker. *)
Lemma findMarker_first s : forall before0 after0,
  findMarker s = Some (before0, after0) ->
  forall before after, s = before +++ marker +++ after ->
  String.length before0 <= String.length before.
Proof.
  induction s as [|c s IH]; intros before0 after0; rewrite findMarker_eq.
  - destruct (String.prefix marker EmptyString); [|discriminate].
    intros [= <- <-] before after _. apply Nat.le_0_l.
  - destruct (String.prefix marker (String c s)) eqn:Hp.
    + intros [= <- <-] before after _. apply Nat.le_0_l.
    + destruct (findMarker s) as [[b0 a0]|] eqn:Hf; [|discriminate].
      intros [= <- <-] [|x before] after Hs.
      * cbn [String.append] in Hs. rewrite Hs, prefix_append in Hp. discriminate.
      * cbn [String.append] in Hs. injection Hs as -> ->.
        cbn [String.length]. apply le_n_S. now apply (IH b0 a0 eq_refl before after).
Qed.

(** A replacement text without a dollar sign is taken as it is. *)
Lemma substitute_plain before matched after replacement :
  noDollar replacement = true ->
  substitute before matched after replacement = replacement.
Proof.
  induction replacement as [|c r IH]; [reflexivity|].
  cbn [noDollar]. intros Hc. apply andb_prop in Hc. destruct Hc as [Hc Hr].
  destruct c as [[] [] [] [] [] [] [] []];
    try (vm_compute in Hc; discriminate);
    cbn [substitute]; now rewrite IH.
Qed.

Lemma replaceMarker_first template before after replacement :
  template = before +++ marker +++ after ->
  (forall b a, template = b +++ marker +++ a ->
               String.length before <= String.length b) ->
  noDollar replacement = true ->
  replaceMarker template replacement = before +++ replacement +++ after.
Proof.
  intros Ht Hfirst Hplain. unfold replaceMarker.
  destruct (findMarker template) as [[b0 a0]|] eqn:Hf.
  - pose proof (findMarker_Some _ _ _ Hf) as Hs.
    pose proof (findMarker_first _ _ _ Hf _ _ Ht) as Hle.
    pose proof (Hfirst _ _ Hs) as Hge.
    assert (Hlen : String.length b0 = String.length before) by lia.
    rewrite Ht in Hs.
    destruct (append_inj_length _ _ _ _ (eq_sym Hlen) Hs) as [-> Hrest].
    destruct (append_inj_length marker marker _ _ eq_refl Hrest) as [_ ->].
    now rewrite substitute_plain.
  - exfalso. apply (proj1 (findMarker_None template) Hf before after Ht).
Qed.

(** ** Dollar signs in the emitted tables *)

Lemma noDollar_append a b : noDollar (a +++ b) = (noDollar a && noDollar b)%bool.
Proof.
  induction a as [|c a IH]; cbn [String.append noDollar]; [reflexivity|].
  now rewrite IH, andb_assoc.
Qed.

Lemma noDollar_concatMap {A} (f : A -> string) xs :
  (forall x, In x xs -> noDollar (f x) = true) ->
  noDollar (concatMap f xs) = true.
Proof.
  induction xs as [|x xs IH]; intros Hall; [reflexivity|].
  rewrite concatMap_cons, noDollar_append, (Hall x (or_introl eq_refl)).
  apply IH. intros y Hy. apply Hall. now right.
Qed.

Lemma noDollar_escapeChar c :
  negb (Ascii.eqb c "$") = true -> noDollar (escapeChar c) = true.
Proof.
  destruct c as [[] [] [] [] [] [] [] []]; intros Hc;
    vm_compute in Hc |- *; congruence.
Qed.

Lemma noDollar_stringify s : noDollar s = true -> noDollar (stringify s) = true.
Proof.
  intros Hs. unfold stringify. rewrite !noDollar_append.
  apply andb_true_intro. split; [reflexivity|].
  apply andb_true_intro. split; [|reflexivity].
  induction s as [|c s IH]; [reflexivity|].
  cbn [noDollar] in Hs. apply andb_prop in Hs. destruct Hs as [Hc Hs].
  cbn [list_ascii_of_string map].
  rewrite concat_cons, noDollar_append, (noDollar_escapeChar _ Hc).
  now apply IH.
Qed.

Lemma noDollar_stringifyKey k :
  noDollarKey k = true -> noDollar (stringifyKey k) = true.
Proof. destruct k as [s|]; [apply noDollar_stringify | reflexivity]. Qed.

Lemma noDollar_decimal n : noDollar (decimal n) = true.
Proof.
  unfold decimal.
  assert (Hd : forall u, noDollar (NilEmpty.string_of_uint u) = true).
  { induction u; cbn [NilEmpty.string_of_uint noDollar]; auto. }
  destruct (Nat.to_uint n); try reflexivity; apply Hd.
Qed.

Ltac dollar_pieces :=
  repeat (rewrite noDollar_append; apply andb_true_intro; split);
  try reflexivity.

Lemma noDollar_generateMaps stores :
  noDollarStores stores = true -> noDollar (generateMaps stores) = true.
Proof.
  intros Hs. unfold noDollarStores in Hs. rewrite forallb_forall in Hs.
  unfold generateMaps. dollar_pieces.
  - apply noDollar_concatMap. intros [name store] Hin.
    specialize (Hs _ Hin). cbn beta iota in Hs.
    apply andb_prop in Hs. destruct Hs as [Hname Hstore].
    rewrite forallb_forall in Hstore.
    dollar_pieces; [now apply noDollar_stringifyKey|].
    apply noDollar_concatMap. intros [reference info] Hin'.
    specialize (Hstore _ Hin'). cbn beta iota in Hstore.
    apply andb_prop in Hstore. destruct Hstore as [Hrest Hdeps].
    apply andb_prop in Hrest. destruct Hrest as [Hrest Hmain].
    apply andb_prop in Hrest. destruct Hrest as [Href Hloc].
    rewrite forallb_forall in Hdeps.
    dollar_pieces.
    + now apply noDollar_stringifyKey.
    + now apply noDollar_stringify.
    + destruct (packageMainEntry info) as [main|]; [|reflexivity].
      destruct (truthy main); [|reflexivity].
      dollar_pieces. now apply noDollar_stringify.
    + apply noDollar_concatMap. intros [d r] Hd.
      specialize (Hdeps _ Hd). cbn beta iota in Hdeps.
      apply andb_prop in Hdeps. destruct Hdeps as [Hdn Hdr].
      dollar_pieces; now apply noDollar_stringify.
  - apply noDollar_concatMap. intros [[name reference] info] Hin.
    apply In_entries in Hin. destruct Hin as (store & Hin & Hin').
    specialize (Hs _ Hin). cbn beta iota in Hs.
    apply andb_prop in Hs. destruct Hs as [Hname Hstore].
    rewrite forallb_forall in Hstore.
    specialize (Hstore _ Hin'). cbn beta iota in Hstore.
    apply andb_prop in Hstore. destruct Hstore as [Hrest Hdeps].
    apply andb_prop in Hrest. destruct Hrest as [Hrest Hmain].
    apply andb_prop in Hrest. destruct Hrest as [Href Hloc].
    destruct name as [name|]; dollar_pieces;
      try (now apply noDollar_stringify).
    unfold stringifyLocator. dollar_pieces.
    + now apply noDollar_stringify.
    + now apply noDollar_stringifyKey.
Qed.

Lemma noDollar_generateFindPackageLocator stores :
  noDollar (generateFindPackageLocator stores) = true.
Proof.
  unfold generateFindPackageLocator. dollar_pieces.
  apply noDollar_concatMap. intros [length count] _.
  unfold emitTest. dollar_pieces; apply noDollar_decimal.
Qed.

Section Splice.
Context `{Path} `{FileSystem}.
Variable resolver : string -> option Manifest.
Variable pnpApi : string.

(** When no string of the store holds a dollar sign (no name, reference,
    location, main entry or dependency), the generated file is the
    template with the text of the two generators in the place of the
    first occurrence of the marker; what follows it, later occurrences
    included, stays as it is. *)
Theorem generatePnpMap_splices_tables
    fuel config seedPatterns fs stores fs' before after :
  getPackageInformationStores resolver fuel config seedPatterns fs
    = Ok (stores, fs') ->
  noDollarStores stores = true ->
  pnpApi = before +++ marker +++ after ->
  (forall b a, pnpApi = b +++ marker +++ a ->
               String.length before <= String.length b) ->
  generatePnpMap resolver pnpApi fuel config seedPatterns fs
  = Ok (before +++ (generateMaps stores +++ generateFindPackageLocator stores)
               +++ after, fs').
Proof.
  intros Hrun Hplain Ht Hfirst. unfold generatePnpMap.
  rewrite Hrun. cbn [bind].
  rewrite (replaceMarker_first pnpApi before after _ Ht Hfirst); [reflexivity|].
  rewrite noDollar_append, (noDollar_generateMaps _ Hplain).
  apply noDollar_generateFindPackageLocator.
Qed.

End Splice.

(** ** The emitted matcher finds the registered locations *)

Lemma substr0_append a rest : substr0 (String.length a) (a +++ rest) = a.
Proof.
  unfold substr0. induction a as [|c a IH];
    cbn [String.length String.append String.substring].
  - now destruct rest.
  - now rewrite IH.
Qed.

Lemma str_get_last body c rest :
  str_get ((body +++ String c EmptyString) +++ rest) (String.length body) = Some c.
Proof.
  unfold str_get. induction body as [|x body IH];
    cbn [String.length String.append String.get]; [reflexivity | exact IH].
Qed.

Lemma map_of_bound {K V} `{EqDec K} (l : list (K * V)) k :
  In k (map fst l) -> map_get (map_of l) k <> None.
Proof.
  unfold map_of.
  assert (Hgen : forall acc : Map K V,
    map_get acc k <> None \/ In k (map fst l) ->
    map_get (fold_left (fun m kv => map_set m (fst kv) (snd kv)) l acc) k <> None).
  { induction l as [|[k0 v0] l IH]; intros acc; cbn [fold_left map In fst snd].
    - intros [Hacc | []]. exact Hacc.
    - intros Hor. apply IH. rewrite map_get_set.
      destruct (eq_dec k k0) as [->|Hne]; [left; discriminate|].
      destruct Hor as [Hacc | [Heq | Hin]]; [now left | congruence | now right]. }
  intros Hin. apply Hgen. now right.
Qed.

Lemma sortedLengths_In stores name reference info :
  In (name, reference, info) (entries stores) ->
  In (String.length (packageLocation info)) (map fst (sortedLengths stores)).
Proof.
  intros Hin.
  destruct (tallied_lengths stores) as (Hcount & _ & _).
  specialize (Hcount (String.length (packageLocation info))).
  assert (Hseen : In (String.length (packageLocation info)) (locationLengths stores)).
  { unfold locationLengths. apply in_map_iff.
    exists (name, reference, info). auto. }
  apply (count_occ_In Nat.eq_dec) in Hseen.
  destruct (count_occ Nat.eq_dec (locationLengths stores)
              (String.length (packageLocation info)) =? 0) eqn:Hz.
  { apply Nat.eqb_eq in Hz. lia. }
  apply map_get_In in Hcount. unfold sortedLengths.
  apply in_map_iff. exists (String.length (packageLocation info),
                            count_occ Nat.eq_dec (locationLengths stores)
                              (String.length (packageLocation info))).
  split; [reflexivity|]. now rewrite sort_by_count_In.
Qed.

Section MatcherFinds.
Context `{Path}.

Lemma findIn_bound table tests location n i :
  In n tests -> n <= String.length location -> n = S i ->
  str_get location i = Some sep ->
  map_get table (substr0 n location) <> None ->
  findIn table tests location <> None.
Proof.
  intros Hin Hlen -> Hsep Hbound.
  induction tests as [|m tests IH]; [destruct Hin|].
  cbn [findIn].
  destruct Hin as [->|Hin].
  - apply Nat.leb_le in Hlen. rewrite Hlen, Hsep, Ascii.eqb_refl. cbn [andb].
    destruct (map_get table (substr0 (S i) location)); [discriminate | congruence].
  - destruct (_ && _)%bool; [|now apply IH].
    destruct (map_get table (substr0 m location)); [discriminate | now apply IH].
Qed.

(** A path that begins with the location of an entry, the location
    ending with the separator, is matched by the chain of tests over the
    locators of the store. *)
Lemma findPackageLocator_complete stores path name reference info rest :
  In (name, reference, info) (entries stores) ->
  endsWith (packageLocation info) sep ->
  path = packageLocation info +++ rest ->
  (exists locator, findPackageLocator stores path = Some locator) /\
  ((forall name' reference' info' rest',
       In (name', reference', info') (entries stores) ->
       path = packageLocation info' +++ rest' ->
       locatorOf name' reference' = locatorOf name reference) ->
   findPackageLocator stores path = Some (locatorOf name reference)).
Proof.
  intros Hin (body & Hbody) Hpath.
  assert (Hfound : findPackageLocator stores path <> None).
  { unfold findPackageLocator.
    apply findIn_bound with (n := String.length (packageLocation info))
                            (i := String.length body).
    - eapply sortedLengths_In; eauto.
    - rewrite Hpath, length_append. apply Nat.le_add_r.
    - rewrite Hbody, length_append. cbn [String.length]. lia.
    - rewrite Hpath, Hbody. apply str_get_last.
    - rewrite Hpath, substr0_append. unfold locatorsByLocations.
      apply map_of_bound. rewrite map_map. apply in_map_iff.
      exists (name, reference, info). auto. }
  destruct (findPackageLocator stores path) as [locator|] eqn:Hf;
    [|congruence].
  split; [now exists locator|].
  intros Hsame. f_equal.
  unfold findPackageLocator in Hf. apply findIn_Some in Hf.
  destruct Hf as (n & i & _ & Hlen & _ & _ & Hg).
  apply locatorsByLocations_get in Hg.
  destruct Hg as (name' & reference' & info' & Hin' & Hloc & ->).
  destruct (substr0_prefix n path Hlen) as (rest' & Hrest).
  apply (Hsame name' reference' info' rest' Hin'). now rewrite Hloc.
Qed.

End MatcherFinds.

(** ** Every recorded dependency is an entry of the store *)

(** What each iteration of a loop establishes, and the later iterations
    keep, holds of every element when the loop completes. *)
Lemma forM_each {A S} (body : A -> S -> result S) (P : A -> S -> Prop) xs :
  (forall x s s', In x xs -> body x s = Ok s' -> P x s') ->
  (forall x y s s', In y xs -> P x s -> body y s = Ok s' -> P x s') ->
  forall s s', forM body xs s = Ok s' -> forall x, In x xs -> P x s'.
Proof.
  induction xs as [|y xs IH]; intros Hest Hkeep s s' Hrun x Hin; [destruct Hin|].
  cbn [forM] in Hrun.
  destruct (body y s) as [s1| |] eqn:Hb; cbn [bind] in Hrun; try discriminate.
  destruct Hin as [<-|Hin].
  - assert (H1 : P y s1) by (apply (Hest y s s1); [now left | exact Hb]).
    revert H1 Hrun. apply forM_inv.
    intros z t t' Hz Ht Hbody. apply (Hkeep y z t t'); [now right | auto | auto].
  - apply (IH (fun z t t' Hz => Hest z t t' (or_intror Hz))
              (fun z z' t t' Hz => Hkeep z z' t t' (or_intror Hz)) s1 s' Hrun x Hin).
Qed.

Lemma stores_get_root visited store name reference :
  stores_get (map_set visited None store) name reference
  = match name with
    | None => map_get store reference
    | Some _ => stores_get visited name reference
    end.
Proof.
  unfold stores_get. rewrite map_get_set.
  destruct name as [n|]; destruct (eq_dec _ _); congruence.
Qed.

Lemma closedUnder_insert promised s name reference pkg `{Path} loc :
  closedUnder promised s ->
  closedUnder promised
    (stores_insert s (Some name) (Some reference) (newInformation pkg loc)).
Proof.
  intros Hclosed n r info d rd. rewrite stores_get_insert.
  destruct (eq_dec (n, r) (Some name, Some reference)).
  - intros [= <-]. discriminate.
  - intros Hg Hd. destruct (Hclosed _ _ _ _ _ Hg Hd) as [Hp|Hp]; [left | now right].
    rewrite stores_get_insert. destruct (eq_dec _ _); [discriminate | exact Hp].
Qed.

Lemma stores_set_dependencies_bound s name reference deps name' reference' :
  stores_get s name' reference' <> None ->
  stores_get (stores_set_dependencies s name reference deps) name' reference'
    <> None.
Proof.
  rewrite stores_get_set_dependencies.
  destruct (eq_dec (name', reference') (name, reference)) as [He|]; [|auto].
  injection He as -> ->.
  destruct (stores_get s name reference); [discriminate | congruence].
Qed.

Lemma closedUnder_set_dependencies promised s name reference deps :
  closedUnder promised s ->
  (forall d rd, map_get deps d = Some rd ->
                stores_get s (Some d) (Some rd) <> None \/ promised d rd) ->
  closedUnder promised (stores_set_dependencies s name reference deps).
Proof.
  intros Hclosed Hdeps n r info d rd. rewrite stores_get_set_dependencies.
  destruct (eq_dec (n, r) (name, reference)).
  - destruct (stores_get s name reference) as [old|]; [|discriminate].
    intros [= <-]. cbn [with_dependencies packageDependencies]. intros Hd.
    destruct (Hdeps _ _ Hd) as [Hp|Hp]; [left | now right].
    now apply stores_set_dependencies_bound.
  - intros Hg Hd. destruct (Hclosed _ _ _ _ _ Hg Hd) as [Hp|Hp]; [left | now right].
    now apply stores_set_dependencies_bound.
Qed.

Section Resolved.
Context `{Path} `{FileSystem}.
Variable resolver : string -> option Manifest.

(** What [visit] returns under a name is an entry of the store. *)
Lemma visit_resolutions_stored fuel seedPatterns parentData w resolutions w' :
  visit resolver fuel seedPatterns parentData w = Ok (resolutions, w') ->
  forall name reference,
    map_get resolutions name = Some reference ->
    stores_get (fst w') (Some name) (Some reference) <> None.
Proof.
  destruct w as [stores fs]. intros Hv name reference Hget.
  apply visit_inv in Hv.
  destruct Hv as (fuel' & locations & fs1 & -> & Hpre & Hins).
  assert (Hsome : map_get resolutions name <> None) by congruence.
  destruct (prepass_loop_keys resolver _ _ _ _ _ Hpre Hsome)
    as [Hnil | (p & pkg & ref & loc & Hin & He & Hname)]; [now elim Hnil|].
  subst name.
  refine (forM_each _
    (fun p (w0 : World) =>
       forall pkg ref loc r,
         getResolverEntry resolver p = Ok (Some (pkg, ref, loc)) ->
         map_get resolutions (pkg_name pkg) = Some r ->
         stores_get (fst w0) (Some (pkg_name pkg)) (Some r) <> None)
    seedPatterns _ _ _ _ Hins p Hin pkg ref loc reference He Hget).
  - intros x [s fs0] s' _ Hbody pkg0 ref0 loc0 r He0 Hr. cbn [fst].
    destruct (stores_get s (Some (pkg_name pkg0)) (Some r)) as [i|] eqn:Hs.
    + apply insertion_extends in Hbody. cbn [fst] in Hbody.
      rewrite (Hbody _ _ _ Hs). discriminate.
    + destruct (insertion_new_inv resolver fuel' (resolutions, locations) x pkg0 ref0
                  loc0 r s fs0 s' He0 Hr Hs Hbody)
        as (l & direct & deps & visited & _ & _ & _ & _ & _ & Hfinal & _).
      rewrite Hfinal. discriminate.
  - intros x y s s' _ HP Hbody pkg0 ref0 loc0 r He0 Hr.
    apply insertion_extends in Hbody.
    specialize (HP pkg0 ref0 loc0 r He0 Hr).
    destruct (stores_get (fst s) (Some (pkg_name pkg0)) (Some r)) as [i|] eqn:Hs;
      [|congruence].
    rewrite (Hbody _ _ _ Hs). discriminate.
Qed.

(** The dependencies recorded during a [visit] are entries of the store
    when it returns, but for those an enclosing scope still owes. *)
Lemma visit_closed fuel :
  forall promised seedPatterns parentData w resolutions w',
    visit resolver fuel seedPatterns parentData w = Ok (resolutions, w') ->
    closedUnder promised (fst w) -> closedUnder promised (fst w').
Proof.
  induction fuel as [|fuel IH]; [discriminate|].
  intros promised seedPatterns parentData [stores fs] resolutions w' Hv Hclosed.
  pose proof (visit_resolutions_stored _ _ _ _ _ _ Hv) as Hstored.
  apply visit_inv in Hv.
  destruct Hv as (fuel' & locations & fs1 & [= <-] & Hpre & Hins).
  cbn [fst] in Hclosed.
  assert (Hloop : closedUnder
            (fun d r => promised d r \/ map_get resolutions d = Some r) (fst w')).
  { revert Hins.
    apply forM_inv with
      (P := fun w0 : World =>
              closedUnder (fun d r => promised d r \/ map_get resolutions d = Some r)
                          (fst w0)).
    - intros p [s fs0] w1 _ Hs Hbody. cbn [fst] in Hs.
      apply insertion_inv in Hbody.
      destruct Hbody as [ | | pkg ref loc0 reference loc direct deps s1 fs3
                              _ Hr _ _ _ Hnew _ Hrec]; cbn [fst]; try exact Hs.
      pose proof (visit_resolutions_stored _ _ _ _ _ _ Hrec) as Hchild.
      cbn [fst] in Hchild.
      apply (IH (fun d r => promised d r \/ map_get resolutions d = Some r))
        in Hrec; [|cbn [fst]; now apply closedUnder_insert].
      cbn [fst] in Hrec.
      apply closedUnder_set_dependencies; [exact Hrec|].
      intros d rd Hd. rewrite injectPeers_get in Hd.
      destruct (set_has (peerNames pkg) d); [|left; now apply Hchild].
      unfold scopeReference in Hd.
      destruct (map_get resolutions d) as [r0|] eqn:Hr0; [|left; now apply Hchild].
      destruct (truthy r0); [|left; now apply Hchild].
      injection Hd as <-. right. now right.
    - cbn [fst]. intros n r info d rd Hg Hd.
      destruct (Hclosed _ _ _ _ _ Hg Hd); [now left | right; now left]. }
  intros n r info d rd Hg Hd.
  destruct (Hloop _ _ _ _ _ Hg Hd) as [Hp | [Hp | Hp]]; [now left | now right |].
  left. now apply Hstored.
Qed.

(** In the store [getPackageInformationStores] returns, every dependency
    an information records, as a name and a reference, is itself an
    entry of the store: following a dependency never leaves the tables.
    This holds of the root entry and of the injected peer dependencies
    as well. *)
Theorem stored_dependencies_resolve
    fuel config seedPatterns fs stores fs' name reference info
    dependencyName dependencyReference :
  getPackageInformationStores resolver fuel config seedPatterns fs
    = Ok (stores, fs') ->
  stores_get stores name reference = Some info ->
  map_get (packageDependencies info) dependencyName = Some dependencyReference ->
  exists target,
    stores_get stores (Some dependencyName) (Some dependencyReference)
    = Some target.
Proof.
  intros Hrun Hg Hd. apply getPackageInformationStores_inv in Hrun.
  destruct Hrun as (root & dependencies & visited & _ & Hv & ->).
  assert (Hbound : stores_get visited (Some dependencyName)
                     (Some dependencyReference) <> None).
  { rewrite stores_get_root in Hg. destruct name as [n|].
    - pose proof (visit_closed _ (fun _ _ => False) _ _ _ _ _ Hv) as Hclosed.
      cbn [fst] in Hclosed.
      destruct (Hclosed (fun n r i d rd Hnil => ltac:(discriminate Hnil))
                        _ _ _ _ _ Hg Hd) as [Hp|[]].
      exact Hp.
    - cbn [map_get] in Hg. destruct (eq_dec reference None); [|discriminate].
      injection Hg as <-. cbn [packageDependencies] in Hd.
      apply (visit_resolutions_stored _ _ _ _ _ _ Hv _ _ Hd). }
  rewrite stores_get_root.
  destruct (stores_get visited (Some dependencyName) (Some dependencyReference))
    as [target|]; [now exists target | congruence].
Qed.

End Resolved.

(** ** The shape of the returned store *)

Lemma map_set_fresh {K V} `{EqDec K} (m : Map K V) k v :
  map_get m k = None -> map_set m k v = m ++ [(k, v)].
Proof.
  induction m as [|[k0 v0] m IH]; cbn [map_get map_set app]; [reflexivity|].
  destruct (eq_dec k k0); [discriminate|]. intros Hg. now rewrite IH.
Qed.

Lemma In_map_set {K V} `{EqDec K} (m : Map K V) k v kv :
  In kv (map_set m k v) -> In kv m \/ kv = (k, v).
Proof.
  induction m as [|[k0 v0] m IH]; cbn [map_set].
  - intros [<-|[]]. now right.
  - destruct (eq_dec k k0).
    + intros [<-|Hin]; [now right | left; now right].
    + intros [<-|Hin]; [left; now left|].
      destruct (IH Hin); [left; now right | now right].
Qed.

Lemma named_insert s name reference info :
  named s -> named (stores_insert s (Some name) (Some reference) info).
Proof.
  intros [Hnull Hinner]. unfold stores_insert.
  assert (Hstore : forall store,
    map_get s (Some name) = Some store -> map_get store None = None).
  { intros store Hs. apply (Hinner (Some name)). now apply map_get_In. }
  destruct (map_get s (Some name)) as [store|] eqn:Hs; split.
  1,3: rewrite map_get_set_other; [exact Hnull | discriminate].
  - intros n st Hin. apply In_map_set in Hin.
    destruct Hin as [Hin | [= -> ->]]; [eauto|].
    rewrite map_get_set_other; [|discriminate]. now apply Hstore.
  - intros n st Hin. apply In_map_set in Hin.
    destruct Hin as [Hin | [= -> ->]]; [eauto|].
    cbn [map_get]. destruct (eq_dec _ _); [discriminate | reflexivity].
Qed.

Lemma named_set_dependencies s name reference deps :
  named s -> named (stores_set_dependencies s (Some name) (Some reference) deps).
Proof.
  intros [Hnull Hinner]. unfold stores_set_dependencies.
  destruct (map_get s (Some name)) as [store|] eqn:Hs; [|now split].
  destruct (map_get store (Some reference)) as [info|]; [|now split].
  split.
  - rewrite map_get_set_other; [exact Hnull | discriminate].
  - intros n st Hin. apply In_map_set in Hin.
    destruct Hin as [Hin | [= -> ->]]; [eauto|].
    rewrite map_get_set_other; [|discriminate].
    apply (Hinner (Some name)). now apply map_get_In.
Qed.

Section Shape.
Context `{Path} `{FileSystem}.
Variable resolver : string -> option Manifest.

Lemma visit_named fuel seedPatterns parentData w resolutions w' :
  visit resolver fuel seedPatterns parentData w = Ok (resolutions, w') ->
  named (fst w) -> named (fst w').
Proof.
  apply (visit_preserves resolver (fun s s' => named s -> named s')).
  - auto.
  - auto.
  - intros s name reference pkg loc s1 deps _ Hrec Hn.
    apply named_set_dependencies, Hrec, named_insert, Hn.
Qed.

(** The store [getPackageInformationStores] returns is the store the
    traversal built followed by one more name, [null], which holds one
    reference, [null]: the root, located at the normalized real path of
    the lockfile folder, whose dependencies are what the top-level
    [visit] returned.  Every entry before it has a name and a reference
    that are strings, so the root is the only entry under [null]. *)
Theorem root_is_last_and_only_null
    fuel config seedPatterns fs stores fs' :
  getPackageInformationStores resolver fuel config seedPatterns fs
    = Ok (stores, fs') ->
  exists root dependencies visited,
    realpath (lockfileFolder config) fs = Some root /\
    visit resolver fuel seedPatterns [] ([], fs)
      = Ok (dependencies, (visited, fs')) /\
    stores = visited ++ [(None, [(None,
               {| packageLocation := normalizeLocation root;
                  packageMainEntry := None;
                  packageDependencies := dependencies |})])] /\
    forall name reference info,
      In (name, reference, info) (entries visited) ->
      exists n r, name = Some n /\ reference = Some r.
Proof.
  intros Hrun. apply getPackageInformationStores_inv in Hrun.
  destruct Hrun as (root & dependencies & visited & Hreal & Hv & ->).
  exists root, dependencies, visited.
  destruct (visit_named _ _ _ _ _ _ Hv) as [Hnull Hinner].
  { split; [reflexivity | intros n st []]. }
  cbn [fst] in Hnull, Hinner.
  repeat split; auto.
  - now apply map_set_fresh.
  - intros name reference info Hin. apply In_entries in Hin.
    destruct Hin as (store & Hin & Hin').
    destruct name as [n|].
    2:{ apply map_get_None in Hnull. elim Hnull.
        apply in_map_iff. now exists (None, store). }
    destruct reference as [r|]; [eauto|].
    specialize (Hinner _ _ Hin). apply map_get_None in Hinner. elim Hinner.
    apply in_map_iff. now exists (None, info).
Qed.

End Shape.

(** ** The emitted tables hold the store *)

Lemma map_of_NoDup {K V} `{EqDec K} (m : Map K V) :
  NoDup (map_keys m) -> map_of m = m.
Proof.
  unfold map_of.
  assert (Hgen : forall l acc : Map K V,
    NoDup (map_keys (acc ++ l)) ->
    fold_left (fun m kv => map_set m (fst kv) (snd kv)) l acc = acc ++ l).
  { induction l as [|[k v] l IH]; intros acc Hnd; cbn [fold_left fst snd].
    - now rewrite app_nil_r.
    - rewrite map_set_fresh.
      + rewrite IH; rewrite <- app_assoc; [reflexivity | exact Hnd].
      + apply map_get_None. unfold map_keys in *. rewrite map_app in Hnd.
        cbn [map fst] in Hnd. apply NoDup_remove_2 in Hnd.
        intros Hin. apply Hnd. apply in_or_app. now left. }
  intros Hnd. now apply (Hgen m []).
Qed.

Lemma injectPeers_NoDup resolutions peers : forall deps,
  NoDup (map_keys deps) ->
  NoDup (map_keys (injectPeers resolutions peers deps)).
Proof.
  unfold injectPeers. induction peers as [|p peers IH]; intros deps Hnd;
    cbn [fold_left]; [exact Hnd|].
  apply IH. destruct (map_get resolutions p) as [r|]; [|exact Hnd].
  destruct (truthy r); [now apply map_set_NoDup | exact Hnd].
Qed.

Lemma functional_insert s name reference pkg `{Path} loc :
  functional s ->
  functional (stores_insert s name reference (newInformation pkg loc)).
Proof.
  intros Hs n r info. rewrite stores_get_insert.
  destruct (eq_dec _ _); [intros [= <-]; constructor | apply Hs].
Qed.

Lemma functional_set_dependencies s name reference deps :
  functional s -> NoDup (map_keys deps) ->
  functional (stores_set_dependencies s name reference deps).
Proof.
  intros Hs Hd n r info. rewrite stores_get_set_dependencies.
  destruct (eq_dec _ _); [|apply Hs].
  destruct (stores_get s name reference); [|discriminate].
  intros [= <-]. exact Hd.
Qed.

Section Rebuilt.
Context `{Path} `{FileSystem}.
Variable resolver : string -> option Manifest.

(** The first loop binds each name once. *)
Lemma prepass_loop_NoDup parentData seedPatterns : forall st st',
  forM (prepass resolver parentData) seedPatterns st = Ok st' ->
  NoDup (map_keys (fst (fst st))) -> NoDup (map_keys (fst (fst st'))).
Proof.
  intros st st' Hrun Hnd. revert Hnd Hrun.
  apply forM_inv with (P := fun st : Scope * FS => NoDup (map_keys (fst (fst st)))).
  intros p [[resolutions locations] fs] st1 _ Hst Hp. cbn [fst] in Hst.
  apply prepass_inv in Hp.
  destruct Hp; cbn [fst]; auto using map_set_NoDup.
Qed.

Lemma visit_functional fuel : forall seedPatterns parentData w resolutions w',
  visit resolver fuel seedPatterns parentData w = Ok (resolutions, w') ->
  NoDup (map_keys resolutions) /\ (functional (fst w) -> functional (fst w')).
Proof.
  induction fuel as [|fuel IH]; [discriminate|].
  intros seedPatterns parentData [stores fs] resolutions w' Hv.
  apply visit_inv in Hv.
  destruct Hv as (fuel' & locations & fs1 & [= <-] & Hpre & Hins).
  split.
  - apply (prepass_loop_NoDup _ _ _ _ Hpre). constructor.
  - cbn [fst]. intros Hf.
    refine (forM_inv _ (fun w0 : World => functional (fst w0)) seedPatterns
              _ (stores, fs1) w' Hf Hins).
    intros p [s fs0] w1 _ Hs Hbody. cbn [fst] in Hs.
    apply insertion_inv in Hbody.
    destruct Hbody as [ | | pkg ref loc0 reference loc direct deps s1 fs3
                            _ _ _ _ _ _ _ Hrec]; cbn [fst]; try exact Hs.
    destruct (IH _ _ _ _ _ Hrec) as [Hdeps Hkeep]. cbn [fst] in Hkeep.
    apply functional_set_dependencies.
    + apply Hkeep. now apply functional_insert.
    + now apply injectPeers_NoDup.
Qed.

(** On the store [getPackageInformationStores] returns, [new Map] at
    each level changes nothing: no key occurs twice. *)
Lemma emittedStores_withoutEmptyMain
    fuel config seedPatterns fs stores fs' :
  getPackageInformationStores resolver fuel config seedPatterns fs
    = Ok (stores, fs') ->
  emittedStores stores = withoutEmptyMain stores.
Proof.
  intros Hrun. apply getPackageInformationStores_inv in Hrun.
  destruct Hrun as (root & dependencies & visited & _ & Hv & ->).
  destruct (visit_functional _ _ _ _ _ _ Hv) as [Hdeps Hfun].
  pose proof (visit_wf resolver _ _ _ _ _ _ Hv wf_stores_nil) as Hwf.
  cbn [fst] in Hfun, Hwf.
  assert (Hwf' : wf_stores (map_set visited None
                   [(None, {| packageMainEntry := None;
                              packageLocation := normalizeLocation root;
                              packageDependencies := dependencies |})])).
  { apply wf_stores_set; [exact Hwf|].
    cbn. constructor; [intros [] | constructor]. }
  assert (Hfun' : functional (map_set visited None
                   [(None, {| packageMainEntry := None;
                              packageLocation := normalizeLocation root;
                              packageDependencies := dependencies |})])).
  { intros n r info. rewrite stores_get_root. destruct n as [n|].
    - apply Hfun. intros n0 r0 i0 Hnil. discriminate Hnil.
    - cbn [map_get]. destruct (eq_dec r None); [|discriminate].
      intros [= <-]. exact Hdeps. }
  revert Hwf' Hfun'. generalize (map_set visited None
                   [(None, {| packageMainEntry := None;
                              packageLocation := normalizeLocation root;
                              packageDependencies := dependencies |})]).
  clear. intros stores Hwf Hfun.
  unfold emittedStores, withoutEmptyMain.
  rewrite map_of_NoDup.
  2:{ unfold map_keys. rewrite map_map.
      rewrite (map_ext _ fst); [apply Hwf | now intros [n store]]. }
  apply map_ext_in. intros [n store] Hin. f_equal.
  assert (Hstore : NoDup (map_keys store)).
  { destruct Hwf as [_ Hall]. rewrite Forall_forall in Hall.
    apply (Hall _ Hin). }
  rewrite map_of_NoDup.
  2:{ unfold map_keys. rewrite map_map.
      rewrite (map_ext _ fst); [exact Hstore | now intros [r info]]. }
  apply map_ext_in. intros [r info] Hin'. f_equal.
  unfold emittedInformation. f_equal.
  apply map_of_NoDup. apply (Hfun n r).
  apply In_entries_get; [exact Hwf|]. apply In_entries. eauto.
Qed.

End Rebuilt.

(** ** Graphs without peer dependencies *)

Section PeerFree.
Context `{Path} `{FileSystem}.
Variable resolver : string -> option Manifest.

(** No manifest has a peer dependency, every version is a non-empty
    string, and the dependencies of a resolved package resolve. *)
Hypothesis peer_free :
  forall pattern pkg, resolver pattern = Some pkg ->
    peerNames pkg = [] /\ truthy (pkg_version pkg) = true /\
    forall ref d, pkg_reference pkg = Some ref ->
                  In d (ref_dependencies ref) -> resolver d <> None.

Lemma prepass_peer_free parentData pattern st :
  resolver pattern <> None ->
  exists scope,
    prepass resolver parentData pattern st = Ok (scope, snd st) /\
    (forall name, bound (fst st) name -> bound scope name) /\
    (forall pkg ref loc,
        getResolverEntry resolver pattern = Ok (Some (pkg, ref, loc)) ->
        bound scope (pkg_name pkg)).
Proof.
  destruct st as [[resolutions locations] fs]. intros Hres.
  destruct (prepass resolver parentData pattern _) as [st'|e|] eqn:Hp.
  - apply prepass_inv in Hp.
    destruct Hp as [He | pkg ref loc He Hpeers | pkg ref loc fs' He Hpeers Hs];
      cbn [fst snd].
    + eexists. split; [reflexivity|]. split; [auto|]. congruence.
    + destruct (entry_inv resolver _ _ _ _ He) as (Hr & _ & _ & Htl).
      destruct (peer_free _ _ Hr) as (_ & Htv & _).
      eexists. split; [reflexivity|].
      assert (Hset : forall name,
        bound (resolutions, locations) name \/ name = pkg_name pkg ->
        bound (map_set resolutions (pkg_name pkg) (pkg_version pkg),
               map_set locations (pkg_name pkg) loc) name).
      { intros name Hb. unfold bound. cbn [fst snd]. rewrite !map_get_set.
        destruct (eq_dec name (pkg_name pkg)) as [->|Hne].
        - exists (pkg_version pkg), loc. auto.
        - destruct Hb as [Hb|Hb]; [exact Hb | contradiction]. }
      split; [auto|].
      intros pkg' ref' loc' He'. assert (pkg' = pkg) by congruence. subst. auto.
    + destruct (entry_inv resolver _ _ _ _ He) as (Hr & _).
      destruct (peer_free _ _ Hr) as (Hnil & _). contradiction.
  - exfalso. unfold prepass, getResolverEntry in Hp.
    destruct (resolver pattern) as [pkg|] eqn:Hr; [|congruence].
    destruct (peer_free _ _ Hr) as (Hnil & _).
    destruct (pkg_reference pkg) as [ref|]; cbn [bind] in Hp; [|discriminate].
    destruct (ref_location ref) as [loc|]; cbn [bind] in Hp; [|discriminate].
    destruct (truthy loc); cbn [bind] in Hp; [|discriminate].
    rewrite Hnil in Hp. discriminate.
  - now elim (prepass_fuel resolver _ _ _ Hp).
Qed.

Lemma prepass_loop_peer_free parentData seedPatterns : forall st,
  (forall p, In p seedPatterns -> resolver p <> None) ->
  exists scope,
    forM (prepass resolver parentData) seedPatterns st = Ok (scope, snd st) /\
    (forall name, bound (fst st) name -> bound scope name) /\
    (forall pattern pkg ref loc,
        In pattern seedPatterns ->
        getResolverEntry resolver pattern = Ok (Some (pkg, ref, loc)) ->
        bound scope (pkg_name pkg)).
Proof.
  induction seedPatterns as [|p ps IH]; intros st Hall; cbn [forM].
  - exists (fst st). destruct st. split; [reflexivity|].
    split; [auto | intros ? ? ? ? []].
  - destruct (prepass_peer_free parentData p st)
      as (scope1 & Hp & Hkeep1 & Hnew1); [apply Hall; now left|].
    rewrite Hp. cbn [bind].
    destruct (IH (scope1, snd st)) as (scope & Hrun & Hkeep & Hnew);
      [intros q Hq; apply Hall; now right|].
    cbn [fst snd] in *. exists scope. split; [exact Hrun|].
    split; [auto|].
    intros pattern pkg ref loc [<-|Hin] He; eauto.
Qed.

Lemma filterM_direct_peer_free peers deps :
  (forall d, In d deps -> resolver d <> None) ->
  exists direct,
    filterM (isDirectDependency resolver peers) deps = Ok direct /\
    forall d, In d direct -> resolver d <> None.
Proof.
  induction deps as [|x deps IH]; intros Hall; cbn [filterM].
  - exists []. split; [reflexivity | intros d []].
  - unfold isDirectDependency at 1.
    destruct (resolver x) as [pkg|] eqn:Hx;
      [|now elim (Hall x (or_introl eq_refl))].
    cbn [bind].
    destruct IH as (rest & Hrest & Hin); [intros d Hd; apply Hall; now right|].
    rewrite Hrest. cbn [bind]. eexists. split; [reflexivity|].
    intros d Hd. destruct (negb _); [destruct Hd as [<-|Hd]|]; auto; congruence.
Qed.

Lemma insertion_peer_free recurse scope pattern w e :
  (forall ps pd w0 e0,
      (forall p, In p ps -> resolver p <> None) -> recurse ps pd w0 <> Err e0) ->
  resolver pattern <> None ->
  (forall pkg ref loc,
      getResolverEntry resolver pattern = Ok (Some (pkg, ref, loc)) ->
      bound scope (pkg_name pkg)) ->
  insertion resolver recurse scope pattern w <> Err e.
Proof.
  intros Hrec Hres Hbound. destruct scope as [resolutions locations], w as [stores fs].
  unfold insertion.
  destruct (getResolverEntry resolver pattern) as [[[[pkg ref] loc0]|]|e0|] eqn:He;
    cbn [bind]; try discriminate.
  2:{ exfalso. unfold getResolverEntry in He.
      destruct (resolver pattern) as [pkg|]; [|congruence].
      destruct (pkg_reference pkg) as [ref|]; [|discriminate].
      destruct (ref_location ref) as [loc|]; [|discriminate].
      destruct (truthy loc); discriminate. }
  destruct (Hbound _ _ _ eq_refl) as (reference & loc & Hr & Htr & Hl & Htl).
  cbn [fst snd] in Hr, Hl. rewrite Hr, Hl. unfold invariant. rewrite Htr, Htl.
  destruct (entry_inv resolver _ _ _ _ He) as (Hp & Hpr & _).
  destruct (peer_free _ _ Hp) as (_ & _ & Hdeps).
  destruct (filterM_direct_peer_free (peerNames pkg) (ref_dependencies ref))
    as (direct & Hf & Hdirect); [intros d Hd; eapply Hdeps; eauto|].
  rewrite Hf. cbn [bind].
  destruct (map_get stores (Some (pkg_name pkg))) as [store|].
  - destruct (map_get store (Some reference)); [discriminate|].
    destruct (recurse _ _ _) as [[deps [stores' fs']]|e2|] eqn:Hrun;
      cbn [bind]; try discriminate.
    now elim (Hrec _ _ _ _ Hdirect Hrun).
  - cbn [map_get].
    destruct (recurse _ _ _) as [[deps [stores' fs']]|e2|] eqn:Hrun;
      cbn [bind]; try discriminate.
    now elim (Hrec _ _ _ _ Hdirect Hrun).
Qed.

Lemma visit_peer_free_no_error fuel : forall seedPatterns parentData w e,
  (forall p, In p seedPatterns -> resolver p <> None) ->
  visit resolver fuel seedPatterns parentData w <> Err e.
Proof.
  induction fuel as [|fuel IH]; intros seedPatterns parentData [stores fs] e Hall;
    cbn [visit]; [discriminate|].
  destruct (prepass_loop_peer_free parentData seedPatterns (([], []), fs) Hall)
    as (scope & Hpre & _ & Hbound).
  rewrite Hpre. cbn [bind snd].
  destruct (forM (insertion resolver _ scope) seedPatterns _)
    as [w1|e2|] eqn:Hins; cbn [bind]; try discriminate.
  intros [= <-].
  destruct (forM_err _ _ _ _ Hins) as (p & w0 & Hin & Hbody).
  revert Hbody. apply insertion_peer_free; [exact IH | now apply Hall|].
  intros pkg ref loc He. exact (Hbound _ _ _ _ Hin He).
Qed.

Lemma visit_peer_free_fs fuel : forall seedPatterns parentData w resolutions w',
  visit resolver fuel seedPatterns parentData w = Ok (resolutions, w') ->
  snd w' = snd w.
Proof.
  induction fuel as [|fuel IH]; [discriminate|].
  intros seedPatterns parentData [stores fs] resolutions w' Hv.
  apply visit_inv in Hv.
  destruct Hv as (fuel' & locations & fs1 & [= <-] & Hpre & Hins).
  assert (Hfs1 : fs1 = fs).
  { change (snd ((resolutions, locations), fs1) = fs).
    refine (forM_inv _ (fun st : Scope * FS => snd st = fs) seedPatterns
              _ (([], []), fs) _ eq_refl Hpre).
    intros p [[rs ls] fs0] st1 _ Hfs Hp. cbn [snd] in Hfs. subst fs0.
    apply prepass_inv in Hp.
    destruct Hp as [He | pkg ref loc He Hpeers | pkg ref loc fs' He Hpeers Hs];
      try reflexivity.
    destruct (entry_inv resolver _ _ _ _ He) as (Hr & _).
    destruct (peer_free _ _ Hr) as (Hnil & _). contradiction. }
  subst fs1. cbn [snd].
  refine (forM_inv _ (fun w0 : World => snd w0 = fs) seedPatterns
            _ (stores, fs) w' eq_refl Hins).
  intros p [s fs0] w1 _ Hfs Hbody. cbn [snd] in Hfs. subst fs0.
  apply insertion_inv in Hbody.
  destruct Hbody as [ | | pkg ref loc0 reference loc direct deps s1 fs3
                          _ _ _ _ _ _ _ Hrec]; try reflexivity.
  apply IH in Hrec. exact Hrec.
Qed.

(** On a finite graph without peer dependencies in which every version
    is a non-empty string and the seed patterns and the dependencies of
    every resolved package resolve, [visit] returns a mapping and a
    store, within one nested call per name and version of [known] and
    one more, cycles included; and it leaves the file system as it
    found it: no link is made. *)
Theorem visit_succeeds_without_peers known seedPatterns w :
  (forall pattern pkg, resolver pattern = Some pkg ->
     In (pkg_name pkg, pkg_version pkg) known) ->
  (forall p, In p seedPatterns -> resolver p <> None) ->
  exists resolutions stores,
    visit resolver (S (List.length known)) seedPatterns [] w
    = Ok (resolutions, (stores, snd w)).
Proof.
  intros Hknown Hseeds.
  destruct (visit resolver (S (List.length known)) seedPatterns [] w)
    as [[resolutions [stores fs']]|e|] eqn:Hv.
  - exists resolutions, stores.
    pose proof (visit_peer_free_fs _ _ _ _ _ _ Hv) as Hfs. cbn [snd] in Hfs.
    now rewrite Hfs.
  - now elim (visit_peer_free_no_error _ _ _ _ _ Hseeds Hv).
  - exfalso. revert Hv.
    assert (Hin : forall parentData pattern pkg ref loc,
      getResolverEntry resolver pattern = Ok (Some (pkg, ref, loc)) ->
      In (Some (pkg_name pkg), Some (referenceIn parentData pkg))
         (map (fun nv => (Some (fst nv), Some (snd nv))) known)).
    { intros parentData pattern pkg ref loc He.
      destruct (entry_inv resolver _ _ _ _ He) as (Hres & _).
      destruct (peer_free _ _ Hres) as (Hnil & _).
      unfold referenceIn. rewrite Hnil. cbn [List.length Nat.ltb Nat.leb].
      apply in_map_iff. exists (pkg_name pkg, pkg_version pkg).
      split; [reflexivity | now apply (Hknown pattern)]. }
    rewrite <- (length_map (fun nv => (Some (fst nv), Some (snd nv))) known).
    apply visit_terminates.
    + apply Hin.
    + intros name reference pattern pkg ref loc _. apply Hin.
Qed.

End PeerFree.

(** ** What [visit] returns *)

Section Returned.
Context `{Path} `{FileSystem}.
Variable resolver : string -> option Manifest.

(** The first loop binds the name of every located package among its
    patterns. *)
Lemma prepass_loop_binds parentData seedPatterns st st' :
  forM (prepass resolver parentData) seedPatterns st = Ok st' ->
  forall pattern pkg ref loc,
    In pattern seedPatterns ->
    getResolverEntry resolver pattern = Ok (Some (pkg, ref, loc)) ->
    map_get (fst (fst st')) (pkg_name pkg) <> None.
Proof.
  intros Hrun pattern pkg ref loc Hin He.
  refine (forM_each _
    (fun p (st0 : Scope * FS) =>
       forall pkg ref loc,
         getResolverEntry resolver p = Ok (Some (pkg, ref, loc)) ->
         map_get (fst (fst st0)) (pkg_name pkg) <> None)
    seedPatterns _ _ st st' Hrun pattern Hin pkg ref loc He).
  - intros p [[rs ls] fs] st1 _ Hp pkg0 ref0 loc0 He0.
    apply prepass_inv in Hp.
    destruct Hp as [He' | pkg' ref' loc' He' _ | pkg' ref' loc' fs' He' _ _];
      [congruence | |];
      (assert (pkg' = pkg0) by congruence; subst pkg'; cbn [fst];
       rewrite map_get_set_same; discriminate).
  - intros p q [[rs ls] fs] st1 _ HP Hq pkg0 ref0 loc0 He0.
    specialize (HP pkg0 ref0 loc0 He0). cbn [fst] in HP.
    apply prepass_inv in Hq.
    destruct Hq as [He' | pkg' ref' loc' He' _ | pkg' ref' loc' fs' He' _ _];
      cbn [fst]; [exact HP | |];
      (rewrite map_get_set; destruct (eq_dec _ _); [discriminate | exact HP]).
Qed.

(** The mapping [visit] returns binds the names of the seed patterns
    that resolve to a package with a location on disk, and no other
    name; each name is bound once, to the reference the first loop
    computes for a seed of that name: its version, or its virtual
    reference under the parent when it has peer dependencies. *)
Theorem visit_returns_seed_references
    fuel seedPatterns parentData w resolutions w' :
  visit resolver fuel seedPatterns parentData w = Ok (resolutions, w') ->
  NoDup (map_keys resolutions) /\
  (forall name reference,
      map_get resolutions name = Some reference ->
      exists pattern pkg ref loc,
        In pattern seedPatterns /\
        getResolverEntry resolver pattern = Ok (Some (pkg, ref, loc)) /\
        pkg_name pkg = name /\ reference = referenceIn parentData pkg) /\
  (forall pattern pkg ref loc,
      In pattern seedPatterns ->
      getResolverEntry resolver pattern = Ok (Some (pkg, ref, loc)) ->
      exists reference, map_get resolutions (pkg_name pkg) = Some reference).
Proof.
  destruct w as [stores fs]. intros Hv. apply visit_inv in Hv.
  destruct Hv as (fuel' & locations & fs1 & _ & Hpre & _).
  repeat split.
  - apply (prepass_loop_NoDup resolver _ _ _ _ Hpre). constructor.
  - intros name reference Hget.
    destruct (prepass_loop_values resolver _ _ _ _ _ _ Hpre Hget)
      as [Hnil | Hex]; [discriminate | exact Hex].
  - intros pattern pkg ref loc Hin He.
    pose proof (prepass_loop_binds _ _ _ _ Hpre _ _ _ _ Hin He) as Hb.
    cbn [fst] in Hb.
    destruct (map_get resolutions (pkg_name pkg)) as [r|]; [eauto | congruence].
Qed.

End Returned.

(** ** Normalized locations *)

Section Idempotence.
Context `{Path}.

Lemma normalizeLocation_snoc body c :
  is_slash c = true ->
  normalizeLocation (body +++ String c EmptyString) = body +++ String sep EmptyString.
Proof.
  intros Hc. induction body as [|x body IH].
  - cbn [String.append normalizeLocation]. now rewrite Hc.
  - cbn [String.append]. rewrite <- IH.
    destruct body; reflexivity.
Qed.

(** Where the separator is a slash or a backslash, as it is on every
    platform of Node, a normalized location is left as it is by a
    second normalization. *)
Theorem normalizeLocation_idempotent raw :
  is_slash sep = true ->
  normalizeLocation (normalizeLocation raw) = normalizeLocation raw.
Proof.
  intros Hsep. destruct (normalizeLocation_endsWith raw) as (body & ->).
  now apply normalizeLocation_snoc.
Qed.

End Idempotence.

(** ** The digest of the pieces *)


(** ** An unknown seed pattern makes [visit] throw *)

Lemma forM_not_ok {A S} (body : A -> S -> result S) xs x :
  In x xs -> (forall s s', body x s <> Ok s') ->
  forall s s', forM body xs s <> Ok s'.
Proof.
  induction xs as [|y xs IH]; intros Hin Hx s s'; [destruct Hin|].
  cbn [forM]. destruct (body y s) as [s1| |] eqn:Hb; cbn [bind]; try discriminate.
  destruct Hin as [->|Hin]; [now elim (Hx s s1) | now apply IH].
Qed.

Section UnknownSeed.
Context `{Path} `{FileSystem}.
Variable resolver : string -> option Manifest.

Lemma prepass_loop_fuel parentData seedPatterns : forall st,
  forM (prepass resolver parentData) seedPatterns st <> OutOfFuel.
Proof.
  induction seedPatterns as [|p ps IH]; intros st; cbn [forM]; [discriminate|].
  destruct (prepass resolver parentData p st) eqn:Hp; cbn [bind];
    [apply IH | discriminate | now elim (prepass_fuel resolver _ _ _ Hp)].
Qed.

Lemma prepass_err_inv parentData pattern st e :
  prepass resolver parentData pattern st = Err e ->
  (resolver pattern = None /\ e = ResolverFailure pattern) \/
  (exists src dest, e = SymlinkFailure src dest).
Proof.
  destruct st as [[resolutions locations] fs]. unfold prepass, getResolverEntry.
  destruct (resolver pattern) as [pkg|]; cbn [bind];
    [|intros [= <-]; now left].
  destruct (pkg_reference pkg) as [ref|]; cbn [bind]; [|discriminate].
  destruct (ref_location ref) as [loc|]; cbn [bind]; [|discriminate].
  destruct (truthy loc); cbn [bind]; [|discriminate].
  destruct (0 <? List.length (peerNames pkg)); cbn [bind]; [|discriminate].
  destruct (symlink loc _ fs); cbn [bind]; [discriminate|].
  intros [= <-]. right. eauto.
Qed.

(** A seed pattern the resolver does not know is not skipped: [visit]
    throws, in its first loop and whatever the depth of the graph.  The
    error is that of the resolver for an unknown seed pattern, or that
    of a link that failed for a seed before it. *)
Theorem unknown_seed_throws fuel seedPatterns parentData w pattern :
  In pattern seedPatterns ->
  resolver pattern = None ->
  exists e,
    visit resolver (S fuel) seedPatterns parentData w = Err e /\
    ((exists p, In p seedPatterns /\ resolver p = None /\ e = ResolverFailure p)
     \/ (exists src dest, e = SymlinkFailure src dest)).
Proof.
  intros Hin Hnone. destruct w as [stores fs]. cbn [visit].
  destruct (forM (prepass resolver parentData) seedPatterns _)
    as [st|e|] eqn:Hpre; cbn [bind].
  - exfalso. revert Hpre. apply forM_not_ok with (x := pattern); [exact Hin|].
    intros [[rs ls] fs0] s'. unfold prepass, getResolverEntry.
    rewrite Hnone. discriminate.
  - exists e. split; [reflexivity|].
    destruct (forM_err _ _ _ _ Hpre) as (p & st0 & Hp & Hbody).
    destruct (prepass_err_inv _ _ _ _ Hbody) as [[Hres ->] | Hsym];
      [left; eauto | now right].
  - now elim (prepass_loop_fuel _ _ _ Hpre).
Qed.

End UnknownSeed.

(** ** Where the fields of an entry come from *)

Section Provenance.
Context `{Path} `{FileSystem}.
Variable resolver : string -> option Manifest.

(** The two maps of the scope are set together. *)
Lemma prepass_loop_scope parentData seedPatterns : forall st st' name reference,
  forM (prepass resolver parentData) seedPatterns st = Ok st' ->
  map_get (fst (fst st')) name = Some reference ->
  (map_get (fst (fst st)) name = Some reference /\
   map_get (snd (fst st')) name = map_get (snd (fst st)) name) \/
  exists pattern pkg ref loc,
    In pattern seedPatterns /\
    getResolverEntry resolver pattern = Ok (Some (pkg, ref, loc)) /\
    pkg_name pkg = name /\ reference = referenceIn parentData pkg /\
    map_get (snd (fst st')) name = Some (locationIn parentData pkg loc).
Proof.
  induction seedPatterns as [|p ps IH]; intros st st' name reference; cbn [forM].
  - intros [= <-]. auto.
  - destruct (prepass resolver parentData p st) as [st1| |] eqn:Hp;
      cbn [bind]; try discriminate.
    intros Hrun Hget.
    destruct (IH _ _ _ _ Hrun Hget)
      as [[Hold Hloc] | (q & pkg & ref & loc & Hin & Hrest)].
    2:{ right. exists q, pkg, ref, loc. split; [now right | exact Hrest]. }
    destruct st as [[resolutions locations] fs]. apply prepass_inv in Hp.
    destruct Hp as [He | pkg ref loc He Hnil | pkg ref loc fs' He _ _];
      cbn [fst snd] in *; auto;
      rewrite map_get_set in Hold; rewrite Hloc, map_get_set;
      (destruct (eq_dec name (pkg_name pkg)) as [->|Hne]; [|auto]);
      right; exists p, pkg, ref, loc;
      (split; [now left|]); (split; [exact He|]); (split; [reflexivity|]).
    + unfold referenceIn, locationIn. rewrite Hnil.
      cbn [List.length Nat.ltb Nat.leb]. split; congruence.
    + split; congruence.
Qed.

Lemma visit_sourced fuel : forall seedPatterns parentData w resolutions w',
  visit resolver fuel seedPatterns parentData w = Ok (resolutions, w') ->
  all_sourced resolver (fst w) -> all_sourced resolver (fst w').
Proof.
  induction fuel as [|fuel IH]; [discriminate|].
  intros seedPatterns parentData [stores fs] resolutions w' Hv Hsrc.
  apply visit_inv in Hv.
  destruct Hv as (fuel' & locations & fs1 & [= <-] & Hpre & Hins).
  cbn [fst] in Hsrc.
  refine (forM_inv _ (fun w0 : World => all_sourced resolver (fst w0))
            seedPatterns _ (stores, fs1) w' Hsrc Hins).
  intros p [s fs0] w1 _ Hs Hbody. cbn [fst] in Hs.
  apply insertion_inv in Hbody.
  destruct Hbody as [ | | pkg ref loc0 reference loc direct deps s1 fs3
                          He Hr _ Hl _ Hnew _ Hrec]; cbn [fst]; try exact Hs.
  apply IH in Hrec.
  - cbn [fst] in Hrec. intros n r info.
    rewrite stores_get_set_dependencies.
    destruct (eq_dec _ _) as [Heq|]; [|apply Hrec].
    injection Heq as -> ->.
    destruct (stores_get s1 (Some (pkg_name pkg)) (Some reference))
      as [old|] eqn:Hold; [|discriminate].
    intros [= <-].
    destruct (Hrec _ _ _ Hold)
      as (pd & q & pkg1 & ref1 & l1 & q' & pkg2 & ref2 & l2 & Hsourced).
    exists pd, q, pkg1, ref1, l1, q', pkg2, ref2, l2. exact Hsourced.
  - cbn [fst]. intros n r info. rewrite stores_get_insert.
    destruct (eq_dec _ _) as [Heq|]; [|apply Hs].
    injection Heq as -> ->. intros [= <-].
    destruct (prepass_loop_scope _ _ _ _ _ _ Hpre Hr)
      as [[Hnil _] | (q & pkg' & ref' & loc' & _ & He' & Hname & Href & Hloc)];
      [discriminate|].
    cbn [fst snd] in Hloc.
    exists parentData, p, pkg, ref, loc0, q, pkg', ref', loc'.
    repeat split; auto. cbn [newInformation packageLocation]. congruence.
Qed.

(** In the store [getPackageInformationStores] returns, every entry but
    the root is made of what the resolver holds for its name: the main
    entry is that of a located package of that name, and the reference
    and the location are those the first loop computes, under the data
    of some parent, for a located package of that name: its version and
    its location, or its virtual reference and the location resolved
    beside it, the location normalized.  The two packages are the same
    unless two seeds of one scope have the same name. *)
Theorem entries_come_from_the_resolver
    fuel config seedPatterns fs stores fs' name reference info :
  getPackageInformationStores resolver fuel config seedPatterns fs
    = Ok (stores, fs') ->
  stores_get stores (Some name) (Some reference) = Some info ->
  sourced resolver name reference info.
Proof.
  intros Hrun Hg. apply getPackageInformationStores_inv in Hrun.
  destruct Hrun as (root & dependencies & visited & _ & Hv & ->).
  rewrite stores_get_root in Hg.
  apply (visit_sourced _ _ _ _ _ _ Hv); [|exact Hg].
  intros n r i Hnil. discriminate Hnil.
Qed.

End Provenance.

(** ** The dependencies of an entry are the declared ones *)

Section Declared.
Context `{Path} `{FileSystem}.
Variable resolver : string -> option Manifest.

Lemma filterM_direct_incl peers deps direct :
  filterM (isDirectDependency resolver peers) deps = Ok direct ->
  forall d, In d direct -> In d deps.
Proof.
  revert direct. induction deps as [|x deps IH]; intros direct; cbn [filterM].
  - intros [= <-] d [].
  - unfold isDirectDependency at 1.
    destruct (resolver x) as [pkg|]; cbn [bind]; [|discriminate].
    destruct (filterM _ deps) as [rest| |]; cbn [bind]; try discriminate.
    intros [= <-] d Hd. destruct (negb _).
    + destruct Hd as [<-|Hd]; [now left | right; now apply (IH rest)].
    + right. now apply (IH rest).
Qed.

Lemma filterM_direct_keeps peers deps direct :
  filterM (isDirectDependency resolver peers) deps = Ok direct ->
  forall q pkg, In q deps -> resolver q = Some pkg ->
                set_has peers (pkg_name pkg) = false -> In q direct.
Proof.
  revert direct. induction deps as [|x deps IH]; intros direct; cbn [filterM].
  - intros _ q pkg [].
  - unfold isDirectDependency at 1.
    destruct (resolver x) as [pkgx|] eqn:Hx; cbn [bind]; [|discriminate].
    destruct (filterM _ deps) as [rest| |]; cbn [bind]; try discriminate.
    intros [= <-] q pkg [<-|Hq] Hres Hno.
    + assert (pkgx = pkg) by congruence. subst pkgx. rewrite Hno. now left.
    + destruct (negb _); [right|]; now apply (IH rest eq_refl q pkg).
Qed.

Lemma visit_declared fuel :
  forall pending seedPatterns parentData w resolutions w',
    visit resolver fuel seedPatterns parentData w = Ok (resolutions, w') ->
    declared_but resolver pending (fst w) ->
    declared_but resolver pending (fst w').
Proof.
  induction fuel as [|fuel IH]; [discriminate|].
  intros pending seedPatterns parentData [stores fs] resolutions w' Hv Hdecl.
  apply visit_inv in Hv.
  destruct Hv as (fuel' & locations & fs1 & [= <-] & _ & Hins).
  cbn [fst] in Hdecl.
  refine (forM_inv _ (fun w0 : World => declared_but resolver pending (fst w0))
            seedPatterns _ (stores, fs1) w' Hdecl Hins).
  intros p [s fs0] w1 _ Hs Hbody. cbn [fst] in Hs.
  apply insertion_inv in Hbody.
  destruct Hbody as [ | | pkg ref loc0 reference loc direct deps s1 fs3
                          He _ _ _ _ _ Hf Hrec]; cbn [fst]; try exact Hs.
  pose proof Hrec as Hchild. apply visit_inv in Hchild.
  destruct Hchild as (fuel' & locs & fs4 & _ & Hpre & _).
  apply (IH (fun n r => pending n r \/
                        (n = pkg_name pkg /\ r = reference))) in Hrec.
  2:{ cbn [fst]. intros n r info. rewrite stores_get_insert.
      destruct (eq_dec _ _) as [Heq|].
      - injection Heq as -> ->. intros _. left. now right.
      - intros Hg. destruct (Hs _ _ _ Hg); [left; now left | now right]. }
  cbn [fst] in Hrec. intros n r info. rewrite stores_get_set_dependencies.
  destruct (eq_dec _ _) as [Heq|Hne].
  - injection Heq as -> ->.
    destruct (stores_get s1 _ _) as [old|]; [|discriminate].
    intros [= <-]. right. exists p, pkg, ref, loc0.
    split; [exact He|]. split; [reflexivity|].
    cbn [with_dependencies packageDependencies]. split.
    + intros d Hd. rewrite injectPeers_get in Hd.
      destruct (set_has (peerNames pkg) d) eqn:Hpeer;
        [left; now apply set_has_In|].
      right.
      destruct (prepass_loop_keys resolver _ _ _ _ _ Hpre Hd)
        as [Hnil | (q & pkgq & refq & locq & Hin & Heq & Hname)];
        [now elim Hnil|].
      exists q, pkgq, refq, locq.
      split; [now apply (filterM_direct_incl _ _ _ Hf)|]. auto.
    + intros q pkgq refq locq Hin Heq Hno. rewrite injectPeers_get.
      assert (Hpeer : set_has (peerNames pkg) (pkg_name pkgq) = false).
      { destruct (set_has _ _) eqn:E; [|reflexivity].
        apply set_has_In in E. contradiction. }
      rewrite Hpeer.
      destruct (entry_inv resolver _ _ _ _ Heq) as (Hres & _).
      pose proof (filterM_direct_keeps _ _ _ Hf _ _ Hin Hres Hpeer) as Hdirect.
      apply (prepass_loop_binds resolver _ _ _ _ Hpre _ _ _ _ Hdirect Heq).
  - intros Hg. destruct (Hrec _ _ _ Hg) as [[Hp | [-> ->]] | Hd];
      [now left | congruence | now right].
Qed.

(** In the store [getPackageInformationStores] returns, the dependencies
    of every entry but the root are those its package declares: a name
    is bound only if it is a peer of the package or the name of a
    located package among its dependency patterns, and every such
    located package whose name is no peer is bound.  So an entry offers
    nothing its manifest does not declare, and misses no dependency that
    is on disk. *)
Theorem dependencies_are_the_declared_ones
    fuel config seedPatterns fs stores fs' name reference info :
  getPackageInformationStores resolver fuel config seedPatterns fs
    = Ok (stores, fs') ->
  stores_get stores (Some name) (Some reference) = Some info ->
  declared resolver name info.
Proof.
  intros Hrun Hg. apply getPackageInformationStores_inv in Hrun.
  destruct Hrun as (root & dependencies & visited & _ & Hv & ->).
  rewrite stores_get_root in Hg.
  assert (Hnone : declared_but resolver (fun _ _ => False) []).
  { intros n r i Hnil. discriminate Hnil. }
  destruct (visit_declared _ (fun _ _ => False) _ _ _ _ _ Hv Hnone _ _ _ Hg)
    as [[] | Hd].
  exact Hd.
Qed.

End Declared.

(* ================================================================== *)
(** * The generated file read back *)

(** ** Readers on the text of the generators *)

Lemma expect_append literal rest : expect literal (literal +++ rest) = Some rest.
Proof.
  induction literal as [|c literal IH]; cbn [expect String.append]; [reflexivity|].
  now rewrite Ascii.eqb_refl.
Qed.

Lemma concatMap_length {A} (emit : A -> string) xs tail :
  (forall x, In x xs -> 1 <= String.length (emit x)) ->
  List.length xs <= String.length (concatMap emit xs +++ tail).
Proof.
  induction xs as [|x xs IH]; intros Hpos; cbn [List.length]; [apply Nat.le_0_l|].
  rewrite concatMap_cons, append_assoc, length_append.
  pose proof (Hpos x (or_introl eq_refl)).
  pose proof (IH (fun y Hy => Hpos y (or_intror Hy))). lia.
Qed.

Lemma readMany_concatMap {A B} (emit : A -> string) (value : A -> B)
    close element xs : forall fuel tail rest,
  (forall x t, In x xs -> expect close (emit x +++ t) = None) ->
  (forall x t, In x xs -> element (emit x +++ t) = Some (value x, t)) ->
  expect close tail = Some rest ->
  List.length xs <= fuel ->
  readMany fuel close element (concatMap emit xs +++ tail)
  = Some (map value xs, rest).
Proof.
  induction xs as [|x xs IH]; intros fuel tail rest Hmis Helem Hclose Hfuel.
  - change (concatMap emit [] +++ tail) with tail.
    destruct fuel; cbn [readMany]; now rewrite Hclose.
  - rewrite concatMap_cons, append_assoc.
    destruct fuel as [|fuel]; [cbn [List.length] in Hfuel; lia|].
    cbn [readMany]. rewrite (Hmis x _ (or_introl eq_refl)).
    rewrite (Helem x _ (or_introl eq_refl)).
    rewrite (IH fuel tail rest); [reflexivity | | | exact Hclose |].
    + intros y t Hy. apply Hmis. now right.
    + intros y t Hy. apply Helem. now right.
    + cbn [List.length] in Hfuel. lia.
Qed.

Lemma readArray_concatMap {A B} (emit : A -> string) (value : A -> B)
    close element xs tail rest :
  (forall x, In x xs -> 1 <= String.length (emit x)) ->
  (forall x t, In x xs -> expect close (emit x +++ t) = None) ->
  (forall x t, In x xs -> element (emit x +++ t) = Some (value x, t)) ->
  expect close tail = Some rest ->
  readArray close element (concatMap emit xs +++ tail) = Some (map value xs, rest).
Proof.
  intros Hpos Hmis Helem Hclose. unfold readArray.
  apply readMany_concatMap; auto. now apply concatMap_length.
Qed.

Lemma readKey_stringifyKey k tail :
  readKey (stringifyKey k +++ tail) = Some (k, tail).
Proof.
  destruct k as [s|].
  - unfold readKey. cbn [stringifyKey].
    replace (expect "null" (stringify s +++ tail)) with (@None string)
      by reflexivity.
    now rewrite readLiteral_stringify.
  - reflexivity.
Qed.

Lemma readDigits_uint u : forall acc rest,
  (forall acc', readDigits acc' rest = (acc', rest)) ->
  readDigits acc (NilEmpty.string_of_uint u +++ rest)
  = (Nat.of_uint_acc u acc, rest).
Proof.
  induction u; intros acc rest Hstop;
    cbn [NilEmpty.string_of_uint String.append Nat.of_uint_acc];
    [apply Hstop | ..];
    cbn [readDigits]; match goal with
    | |- context [digitValue ?c] =>
        let v := eval vm_compute in (digitValue c) in
        change (digitValue c) with v
    end; cbv iota; rewrite (IHu _ rest Hstop); f_equal; f_equal;
    rewrite Nat.tail_mul_spec; lia.
Qed.

Lemma readDecimal_decimal n rest :
  (forall acc, readDigits acc rest = (acc, rest)) ->
  readDecimal (decimal n +++ rest) = Some (n, rest).
Proof.
  intros Hstop. unfold decimal.
  pose proof (Unsigned.of_to n) as Hn. unfold Nat.of_uint in Hn.
  pose proof (readDigits_uint (Nat.to_uint n) 0 rest Hstop) as Hread.
  rewrite Hn in Hread.
  destruct (Nat.to_uint n) as [|u|u|u|u|u|u|u|u|u|u];
    cbn [NilZero.string_of_uint];
    try (cbn [NilEmpty.string_of_uint String.append] in *;
         unfold readDecimal;
         match goal with
         | |- context [digitValue ?c] =>
             let v := eval vm_compute in (digitValue c) in
             change (digitValue c) with v
         end; cbv iota; now rewrite Hread).
  cbn [Nat.of_uint_acc] in Hn. subst n.
  cbn [String.append]. unfold readDecimal.
  change (digitValue "0") with (Some 0). cbv iota.
  cbn [readDigits]. change (digitValue "0") with (Some 0). cbv iota.
  apply f_equal, Hstop.
Qed.

Lemma append_nil_l a : EmptyString +++ a = a.
Proof. reflexivity. Qed.

Lemma expect_no_main t :
  expect "      packageMainEntry: "
         ("      packageDependencies: new Map([" +++ t) = None.
Proof. reflexivity. Qed.

Ltac read_piece :=
  first [ rewrite expect_append
        | rewrite readLiteral_stringify
        | rewrite readKey_stringifyKey ];
  cbv beta iota.

Lemma readDependency_emit d r tail :
  readDependency (("        [" +++ stringify d +++ ", " +++ stringify r
                   +++ "]," +++ nl) +++ tail)
  = Some ((d, r), tail).
Proof.
  unfold readDependency. rewrite !append_assoc.
  repeat read_piece. reflexivity.
Qed.

Lemma readInformation_emit r info tail :
  readInformation
    (("    [" +++ stringifyKey r +++ ", {" +++ nl
      +++ "      packageLocation: "
      +++ stringify (packageLocation info) +++ "," +++ nl
      +++ match packageMainEntry info with
          | Some main =>
              if truthy main
              then "      packageMainEntry: " +++ stringify main
                   +++ "," +++ nl
              else EmptyString
          | None => EmptyString
          end
      +++ "      packageDependencies: new Map([" +++ nl
      +++ concatMap (fun '(dependencyName, dependencyReference) =>
            "        [" +++ stringify dependencyName +++ ", "
            +++ stringify dependencyReference +++ "]," +++ nl)
            (packageDependencies info)
      +++ "      ])," +++ nl
      +++ "    }]," +++ nl) +++ tail)
  = Some ((r, emittedInformation info), tail).
Proof.
  assert (Hdeps : forall t,
    readArray ("      ])," +++ nl) readDependency
      (concatMap (fun '(dependencyName, dependencyReference) =>
            "        [" +++ stringify dependencyName +++ ", "
            +++ stringify dependencyReference +++ "]," +++ nl)
            (packageDependencies info)
       +++ "      ])," +++ nl +++ t)
    = Some (packageDependencies info, t)).
  { intros t.
    rewrite (readArray_concatMap _ (fun x => x) _ _ _ _ t).
    - now rewrite map_id.
    - intros [d x] _. apply le_n_S, Nat.le_0_l.
    - intros [d x] t' _. reflexivity.
    - intros [d x] t' _. apply readDependency_emit.
    - reflexivity. }
  unfold readInformation, emittedInformation.
  destruct (packageMainEntry info) as [main|]; [destruct (truthy main)|];
    rewrite !append_assoc; repeat read_piece.
  - rewrite Hdeps. cbv beta iota. repeat read_piece. reflexivity.
  - rewrite append_nil_l, expect_no_main. cbv beta iota.
    repeat read_piece. rewrite Hdeps. cbv beta iota. repeat read_piece.
    reflexivity.
  - rewrite append_nil_l, expect_no_main. cbv beta iota.
    repeat read_piece. rewrite Hdeps. cbv beta iota. repeat read_piece.
    reflexivity.
Qed.

Lemma readStore_emit name (store : PackageInformationStore) tail :
  readStore
    (("  [" +++ stringifyKey name +++ ", new Map([" +++ nl
      +++ concatMap (fun '(packageReference, info) =>
            "    [" +++ stringifyKey packageReference +++ ", {" +++ nl
            +++ "      packageLocation: "
            +++ stringify (packageLocation info) +++ "," +++ nl
            +++ match packageMainEntry info with
                | Some main =>
                    if truthy main
                    then "      packageMainEntry: " +++ stringify main
                         +++ "," +++ nl
                    else EmptyString
                | None => EmptyString
                end
            +++ "      packageDependencies: new Map([" +++ nl
            +++ concatMap (fun '(dependencyName, dependencyReference) =>
                  "        [" +++ stringify dependencyName +++ ", "
                  +++ stringify dependencyReference +++ "]," +++ nl)
                  (packageDependencies info)
            +++ "      ])," +++ nl
            +++ "    }]," +++ nl) store
      +++ "  ])]," +++ nl) +++ tail)
  = Some ((name,
           map_of (map (fun '(packageReference, info) =>
                          (packageReference, emittedInformation info)) store)),
          tail).
Proof.
  unfold readStore. rewrite !append_assoc. repeat read_piece.
  rewrite (readArray_concatMap _
             (fun '(packageReference, info) =>
                (packageReference, emittedInformation info)) _ _ _ _ tail).
  - reflexivity.
  - intros [r info] _. apply le_n_S, Nat.le_0_l.
  - intros [r info] t _. reflexivity.
  - intros [r info] t _. apply readInformation_emit.
  - reflexivity.
Qed.

Lemma readLocator_stringifyLocator name reference tail :
  readLocator (stringifyLocator name reference +++ tail)
  = Some (PackageLocator name reference, tail).
Proof.
  unfold readLocator, stringifyLocator. rewrite !append_assoc.
  replace (expect "topLevelLocator" ("{" +++ _)) with (@None string)
    by reflexivity.
  repeat read_piece. reflexivity.
Qed.

Lemma readLocation_emit name reference (info : PackageInformation) tail :
  readLocation
    (match name with
     | Some n =>
         "  [" +++ stringify (packageLocation info) +++ ", "
         +++ stringifyLocator n reference +++ "]," +++ nl
     | None =>
         "  [" +++ stringify (packageLocation info)
         +++ ", topLevelLocator]," +++ nl
     end +++ tail)
  = Some ((packageLocation info,
           match name with
           | Some n => PackageLocator n reference
           | None => topLevelLocator
           end), tail).
Proof.
  unfold readLocation. destruct name as [n|]; rewrite !append_assoc;
    repeat read_piece.
  - rewrite readLocator_stringifyLocator. cbv beta iota.
    repeat read_piece. reflexivity.
  - reflexivity.
Qed.

(** Read back, the text of [generateMaps] gives the two tables: the
    store with [new Map] at each level, and the locators by location. *)
Lemma readMaps_generateMaps stores rest :
  readMaps (generateMaps stores +++ rest)
  = Some ((emittedStores stores, locatorsByLocations stores), rest).
Proof.
  unfold readMaps, generateMaps. rewrite !append_assoc. repeat read_piece.
  erewrite (readArray_concatMap
              (A := option string * PackageInformationStore) _
              (fun '(packageName, store) =>
                 (packageName,
                  map_of (map (fun '(packageReference, info) =>
                                 (packageReference, emittedInformation info))
                              store)))).
  2:{ intros [name store] _. apply le_n_S, Nat.le_0_l. }
  2:{ intros [name store] t _. reflexivity. }
  2:{ intros [name store] t _. apply readStore_emit. }
  2:{ reflexivity. }
  cbv beta iota. repeat read_piece.
  erewrite (readArray_concatMap
              (A := option string * option string * PackageInformation) _
              (fun '(packageName, packageReference, info) =>
                 (packageLocation info,
                  match packageName with
                  | Some name => PackageLocator name packageReference
                  | None => topLevelLocator
                  end))).
  2:{ intros [[name reference] info] _. destruct name; apply le_n_S, Nat.le_0_l. }
  2:{ intros [[name reference] info] t _. destruct name; reflexivity. }
  2:{ intros [[name reference] info] t _. apply readLocation_emit. }
  2:{ reflexivity. }
  reflexivity.
Qed.

Lemma readTest_emitTest n tail :
  readTest (emitTest n +++ tail) = Some (n, tail).
Proof.
  unfold readTest, emitTest. rewrite !append_assoc. repeat read_piece.
  rewrite readDecimal_decimal by (intros; reflexivity). cbv beta iota.
  repeat read_piece.
  rewrite readDecimal_decimal by (intros; reflexivity). cbv beta iota.
  repeat read_piece.
  rewrite readDecimal_decimal by (intros; reflexivity). cbv beta iota.
  repeat read_piece.
  now rewrite Nat.eqb_refl.
Qed.

(** Read back, the text of [generateFindPackageLocator] gives one test
    per sorted length, in the order of the sorted list. *)
Lemma readFindPackageLocator_generate stores rest :
  readFindPackageLocator (generateFindPackageLocator stores +++ rest)
  = Some (map fst (sortedLengths stores), rest).
Proof.
  unfold readFindPackageLocator, generateFindPackageLocator.
  rewrite !append_assoc. repeat read_piece.
  erewrite (readArray_concatMap _ fst).
  2:{ intros [n c] _. apply le_n_S, Nat.le_0_l. }
  2:{ intros [n c] t _. reflexivity. }
  2:{ intros [n c] t _. apply readTest_emitTest. }
  2:{ reflexivity. }
  reflexivity.
Qed.

Lemma readTables_generated stores rest :
  readTables ((generateMaps stores +++ generateFindPackageLocator stores)
              +++ rest)
  = Some ((emittedStores stores, locatorsByLocations stores,
           map fst (sortedLengths stores)), rest).
Proof.
  unfold readTables. rewrite !append_assoc, readMaps_generateMaps.
  cbv beta iota. now rewrite readFindPackageLocator_generate.
Qed.

(** ** The file from the marker on *)

(** [splicedFrom] is the file [replaceMarker] gives, less the text
    before the marker. *)
Lemma replaceMarker_splicedFrom template replacement before after :
  findMarker template = Some (before, after) ->
  exists text,
    splicedFrom template replacement = Some text /\
    replaceMarker template replacement = before +++ text.
Proof.
  intros Hf. unfold splicedFrom, replaceMarker. rewrite Hf.
  eexists. split; reflexivity.
Qed.

Lemma generatedTables_plain pnpApi stores before after :
  noDollarStores stores = true ->
  findMarker pnpApi = Some (before, after) ->
  generatedTables pnpApi stores
  = Some ((emittedStores stores, locatorsByLocations stores,
           map fst (sortedLengths stores)), after).
Proof.
  intros Hplain Hf. unfold generatedTables, splicedFrom. rewrite Hf.
  rewrite substitute_plain.
  - apply readTables_generated.
  - rewrite noDollar_append, (noDollar_generateMaps _ Hplain).
    apply noDollar_generateFindPackageLocator.
Qed.

Lemma generatedTables_no_marker pnpApi stores :
  findMarker pnpApi = None -> generatedTables pnpApi stores = None.
Proof. intros Hf. unfold generatedTables, splicedFrom. now rewrite Hf. Qed.

Section GeneratedMatcher.
Context `{Path}.

(** Without a dollar sign in the store, the function of the generated
    file is the chain of tests over the locators of the store. *)
Lemma generatedFindPackageLocator_plain pnpApi stores location :
  noDollarStores stores = true ->
  generatedFindPackageLocator pnpApi stores location
  = match findMarker pnpApi with
    | Some _ => findPackageLocator stores location
    | None => None
    end.
Proof.
  intros Hplain. unfold generatedFindPackageLocator.
  destruct (findMarker pnpApi) as [[before after]|] eqn:Hf.
  - now rewrite (generatedTables_plain _ _ _ _ Hplain Hf).
  - now rewrite (generatedTables_no_marker _ _ Hf).
Qed.

End GeneratedMatcher.

(** ** The matcher of the generated file (C4) *)

Section GeneratedLocator.
Context `{Path}.


(** Where the store holds no dollar sign and the template holds the
    marker, a path that begins with the location of an entry of the
    store, the location ending with the separator, is matched by the
    [findPackageLocator] of the generated file: the answer is never
    null.  When the entries whose location begins the path all have the
    same locator, that locator is the answer. *)
Theorem findPackageLocator_finds
    pnpApi before after stores path name reference info rest :
  noDollarStores stores = true ->
  pnpApi = before +++ marker +++ after ->
  In (name, reference, info) (entries stores) ->
  endsWith (packageLocation info) sep ->
  path = packageLocation info +++ rest ->
  (exists locator,
      generatedFindPackageLocator pnpApi stores path = Some locator) /\
  ((forall name' reference' info' rest',
       In (name', reference', info') (entries stores) ->
       path = packageLocation info' +++ rest' ->
       locatorOf name' reference' = locatorOf name reference) ->
   generatedFindPackageLocator pnpApi stores path
   = Some (locatorOf name reference)).
Proof.
  intros Hplain Hmarker Hin Hends Hpath.
  rewrite (generatedFindPackageLocator_plain _ _ _ Hplain).
  destruct (findMarker pnpApi) as [found|] eqn:Hf.
  - now apply (findPackageLocator_complete stores path name reference info rest).
  - exfalso. apply (proj1 (findMarker_None pnpApi) Hf before after Hmarker).
Qed.

End GeneratedLocator.

(** ** The tables of the generated file *)

Section GeneratedTables.
Context `{Path} `{FileSystem}.
Variable resolver : string -> option Manifest.
Variable pnpApi : string.

(** Where the store [getPackageInformationStores] returns holds no
    dollar sign and the template holds the marker, the file
    [generatePnpMap] returns is the template up to its first marker
    followed by a text that reads back, string literals and [new Map]
    included, as: that store, names, references and dependencies in the
    same order, less the main entries that are the empty string, whose
    line is not written; the locators by location; and one test per
    sorted length.  What follows the tables is the rest of the
    template. *)
Theorem generated_file_holds_the_store
    fuel config seedPatterns fs stores fs' before after :
  getPackageInformationStores resolver fuel config seedPatterns fs
    = Ok (stores, fs') ->
  noDollarStores stores = true ->
  pnpApi = before +++ marker +++ after ->
  (forall b a, pnpApi = b +++ marker +++ a ->
               String.length before <= String.length b) ->
  exists text,
    generatePnpMap resolver pnpApi fuel config seedPatterns fs
    = Ok (before +++ text, fs') /\
    readTables text
    = Some ((withoutEmptyMain stores, locatorsByLocations stores,
             map fst (sortedLengths stores)), after).
Proof.
  intros Hrun Hplain Ht Hfirst.
  exists ((generateMaps stores +++ generateFindPackageLocator stores) +++ after).
  split.
  - unfold generatePnpMap. rewrite Hrun. cbn [bind].
    rewrite (replaceMarker_first pnpApi before after _ Ht Hfirst); [reflexivity|].
    rewrite noDollar_append, (noDollar_generateMaps _ Hplain).
    apply noDollar_generateFindPackageLocator.
  - rewrite readTables_generated.
    now rewrite (emittedStores_withoutEmptyMain resolver _ _ _ _ _ _ Hrun).
Qed.

End GeneratedTables.

(** ** The length tests by descending frequency (C7) *)

Lemma count_occ_map_filter {A} (f : A -> nat) l n :
  count_occ Nat.eq_dec (map f l) n
  = List.length (filter (fun x => f x =? n) l).
Proof.
  induction l as [|x l IH]; cbn [map count_occ filter]; [reflexivity|].
  destruct (Nat.eq_dec (f x) n) as [Heq|Hne].
  - rewrite (proj2 (Nat.eqb_eq _ _) Heq). cbn [List.length]. now rewrite IH.
  - rewrite (proj2 (Nat.eqb_neq _ _) Hne). exact IH.
Qed.

Lemma NoDup_map_filter {A B} (f : A -> B) (p : A -> bool) l :
  NoDup (map f l) -> NoDup (map f (filter p l)).
Proof.
  induction l as [|x l IH]; cbn [map filter]; [auto|].
  intros Hnd. inversion Hnd as [|? ? Hnot Hrest]; subst.
  destruct (p x); [|auto]. cbn [map]. constructor; [|auto].
  intros Hin. apply Hnot. apply in_map_iff in Hin.
  destruct Hin as (y & Hy & Hin). apply filter_In in Hin.
  apply in_map_iff. exists y. tauto.
Qed.

Lemma NoDup_same_length {A} (l1 l2 : list A) :
  NoDup l1 -> NoDup l2 -> (forall x, In x l1 <-> In x l2) ->
  List.length l1 = List.length l2.
Proof.
  intros H1 H2 Hsame. apply Permutation_length.
  now apply NoDup_Permutation.
Qed.

(** The traversal of the generators meets each name and reference of a
    store once. *)
Lemma entries_keys_NoDup stores :
  wf_stores stores -> NoDup (map fst (entries stores)).
Proof.
  unfold wf_stores, entries.
  induction stores as [|[name store] stores IH]; intros [Hkeys Hinner];
    cbn [flat_map map]; [constructor|].
  cbn [map_keys map fst] in Hkeys.
  inversion Hkeys as [|? ? Hfresh Hrest]; subst.
  inversion Hinner as [|? ? Hstore Hothers]; subst. cbn [snd] in Hstore.
  rewrite map_app. apply NoDup_app.
  - clear - Hstore. unfold map_keys in Hstore.
    induction store as [|[r info] store IHs]; cbn [map]; [constructor|].
    cbn [map fst] in Hstore. inversion Hstore as [|? ? Hnot Hrest]; subst.
    constructor; [|auto].
    intros Hin. apply Hnot. apply in_map_iff in Hin.
    destruct Hin as ([[n' r'] i'] & [= _ <-] & Hin).
    apply in_map_iff in Hin. destruct Hin as ([r0 i0] & [= _ <- _] & Hin).
    apply in_map_iff. now exists (r0, i0).
  - apply IH. now split.
  - intros a Ha Hb. apply Hfresh.
    apply in_map_iff in Ha. destruct Ha as ([[n1 r1] i1] & <- & Ha).
    apply in_map_iff in Ha. destruct Ha as ([r0 i0] & [= <- _ _] & _).
    apply in_map_iff in Hb. destruct Hb as ([[n2 r2] i2] & Heq & Hb).
    cbn [fst] in Heq. injection Heq as -> _.
    apply in_flat_map in Hb. destruct Hb as ([n3 s3] & Hin3 & Hb).
    apply in_map_iff in Hb. destruct Hb as ([r4 i4] & [= <- _ _] & _).
    apply in_map_iff. now exists (n3, s3).
Qed.

(** The number of times a length is met is the number of names and
    references under which the store holds a location of that length. *)
Lemma lengths_count stores n :
  wf_stores stores ->
  exists keys : list (option string * option string),
    NoDup keys /\
    List.length keys = count_occ Nat.eq_dec (locationLengths stores) n /\
    forall name reference,
      In (name, reference) keys <->
      exists info, stores_get stores name reference = Some info /\
                   String.length (packageLocation info) = n.
Proof.
  intros Hwf.
  exists (map fst (filter (fun e => String.length (packageLocation (snd e)) =? n)
                          (entries stores))).
  split; [|split].
  - apply NoDup_map_filter. now apply entries_keys_NoDup.
  - unfold locationLengths. now rewrite length_map, count_occ_map_filter.
  - intros name reference. rewrite in_map_iff. split.
    + intros ([[n0 r0] info] & [= -> ->] & Hin). apply filter_In in Hin.
      destruct Hin as [Hin Hlen]. cbn [snd] in Hlen. apply Nat.eqb_eq in Hlen.
      exists info. split; [|exact Hlen]. now apply In_entries_get.
    + intros (info & Hg & Hlen). exists (name, reference, info).
      split; [reflexivity|]. apply filter_In. split.
      * now apply In_entries_get.
      * cbn [snd]. now apply Nat.eqb_eq.
Qed.

Lemma flat_map_split {A B} (g : A -> list B) stores : forall e1 x e2,
  flat_map g stores = e1 ++ x :: e2 ->
  exists s1 y s2 t1 t2,
    stores = s1 ++ y :: s2 /\ g y = t1 ++ x :: t2 /\
    e1 = flat_map g s1 ++ t1.
Proof.
  induction stores as [|y stores IH]; intros e1 x e2; cbn [flat_map].
  - intros Heq. destruct e1; discriminate.
  - intros Heq. apply app_eq_app in Heq.
    destruct Heq as (l & [[Hy Hx] | [He Hrest]]).
    + destruct l as [|x' l].
      * cbn [app] in Hx. rewrite app_nil_r in Hy.
        destruct (IH [] x e2 (eq_sym Hx)) as (s1 & z & s2 & t1 & t2 & -> & Hz & Ht).
        exists (y :: s1), z, s2, t1, t2. cbn [flat_map app].
        repeat split; auto. cbn [app] in Ht.
        now rewrite <- app_assoc, <- Ht, app_nil_r.
      * injection Hx as <- _.
        exists [], y, stores, e1, l. repeat split; auto.
    + destruct (IH l x e2 Hrest) as (s1 & z & s2 & t1 & t2 & -> & Hz & ->).
      exists (y :: s1), z, s2, t1, t2. cbn [flat_map app].
      repeat split; auto. now rewrite He, app_assoc.
Qed.

Lemma seenBefore_metBefore stores a b :
  seenBefore (locationLengths stores) a b -> metBefore stores a b.
Proof.
  intros (Hne & l1 & l2 & Heq & Hnot). split; [exact Hne|].
  unfold locationLengths in Heq.
  apply map_eq_app in Heq. destruct Heq as (e1 & e2' & He & <- & Hcons).
  apply map_eq_cons in Hcons. destruct Hcons as (x & e2 & -> & Hx & _).
  unfold entries in He. apply flat_map_split in He.
  destruct He as (s1 & [name store] & s2 & t1 & t2 & Hs & Hg & ->).
  apply map_eq_app in Hg. destruct Hg as (r1 & r2' & Hstore & <- & Hcons).
  apply map_eq_cons in Hcons.
  destruct Hcons as ([reference info] & r2 & -> & <- & _).
  exists s1, name, store, s2, r1, reference, info, r2.
  cbn [snd] in Hx. repeat split; auto.
  - intros n st r i Hin Hri Hlen. apply Hnot.
    apply in_map_iff. exists (n, r, i). split; [exact Hlen|].
    apply in_or_app. left. apply in_flat_map. exists (n, st).
    split; [exact Hin|]. apply in_map_iff. now exists (r, i).
  - intros r i Hri Hlen. apply Hnot.
    apply in_map_iff. exists (name, r, i). split; [exact Hlen|].
    apply in_or_app. right. apply in_map_iff. now exists (r, i).
Qed.

(** C7.  The store is a map of maps: no name occurs twice, and no
    reference under a name.  The generator counts, over all the entries
    of the store, how many locations have each length: a length stands
    in the sorted list, once, with the number of names and references
    under which the store holds a location of that length.  A length
    stands before another in that list only if it occurs more often, or
    as often and was met first while the store was traversed, names in
    their order and the references of a name in their order.  The text
    of the emitted function, read back, is one test per length of the
    sorted list, in the order of the list. *)
Theorem C7_length_tests_by_descending_frequency stores :
  wf_stores stores ->
  (forall n c,
      In (n, c) (sortedLengths stores) <->
      0 < c /\
      exists keys : list (option string * option string),
        NoDup keys /\ List.length keys = c /\
        forall name reference,
          In (name, reference) keys <->
          exists info, stores_get stores name reference = Some info /\
                       String.length (packageLocation info) = n) /\
  NoDup (map fst (sortedLengths stores)) /\
  (forall a b,
      precedes (sortedLengths stores) a b ->
      snd b < snd a \/
      (snd a = snd b /\ metBefore stores (fst a) (fst b))) /\
  (forall rest,
      readFindPackageLocator (generateFindPackageLocator stores +++ rest)
      = Some (map fst (sortedLengths stores), rest)).
Proof.
  intros Hwf.
  destruct (tallied_lengths stores) as (Hcount & Hnd & Hord).
  assert (Hin : forall n c,
    In (n, c) (sortedLengths stores) <->
    c = count_occ Nat.eq_dec (locationLengths stores) n /\ 0 < c).
  { intros n c. unfold sortedLengths. rewrite sort_by_count_In. split.
    - intros Hin. apply (In_map_get _ _ _ Hnd) in Hin.
      rewrite Hcount in Hin.
      destruct (count_occ Nat.eq_dec (locationLengths stores) n) as [|k];
        cbn [Nat.eqb] in Hin; [discriminate|].
      injection Hin as <-. split; [reflexivity | lia].
    - intros [-> Hpos]. apply map_get_In. rewrite Hcount.
      destruct (count_occ Nat.eq_dec (locationLengths stores) n) as [|k];
        [lia | reflexivity]. }
  split; [|split; [|split]].
  - intros n c. rewrite Hin.
    destruct (lengths_count stores n Hwf) as (keys & Hkeys & Hlen & Hmem).
    split.
    + intros [-> Hpos]. split; [exact Hpos|]. now exists keys.
    + intros (Hpos & keys' & Hkeys' & <- & Hmem'). split; [|exact Hpos].
      rewrite <- Hlen. apply NoDup_same_length; auto.
      intros [name reference]. now rewrite Hmem, Hmem'.
  - unfold sortedLengths.
    apply (Permutation_NoDup (l := map fst (lengths stores))); [|exact Hnd].
    apply Permutation_map, Permutation_sym, sort_by_count_Permutation.
  - unfold sortedLengths. intros a b Hp.
    destruct (sort_by_count_stable _ a b Hp) as [Hlt | [Heq Hl]]; [now left|].
    right. split; [exact Heq|].
    apply seenBefore_metBefore, Hord. now apply (precedes_map fst).
  - intros rest. apply readFindPackageLocator_generate.
Qed.

(** ** Locations end with the separator (C9) *)

Section RecordedLocations.
Context `{Path} `{FileSystem}.
Variable resolver : string -> option Manifest.

(** C9, as amended.  Every [packageLocation] of the store that
    [getPackageInformationStores] returns, the top-level one included,
    ends with the platform separator.  It is the normalization of the
    location [raw] recorded for the entry: the real path of the lockfile
    folder for the top-level entry, and for any other entry the location
    the first loop records, under some parent data, for a located
    package of its name and reference.  The stored location is some
    [body] followed by the separator, where [raw] is [body] followed by
    one slash or backslash, or [raw] is [body] and ends with neither; it
    ends with exactly one separator precisely when [body], the recorded
    location less that one trailing slash or backslash, does not end
    with the separator itself. *)
Theorem C9_locations_end_with_separator
    fuel config seedPatterns fs stores fs' name reference info :
  getPackageInformationStores resolver fuel config seedPatterns fs
    = Ok (stores, fs') ->
  In (name, reference, info) (entries stores) ->
  endsWith (packageLocation info) sep /\
  exists raw body,
    ((name = None /\ reference = None /\
      realpath (lockfileFolder config) fs = Some raw)
     \/ (exists n r parentData pattern pkg ref loc,
           name = Some n /\ reference = Some r /\
           getResolverEntry resolver pattern = Ok (Some (pkg, ref, loc)) /\
           pkg_name pkg = n /\ r = referenceIn parentData pkg /\
           raw = locationIn parentData pkg loc)) /\
    packageLocation info = normalizeLocation raw /\
    packageLocation info = body +++ String sep EmptyString /\
    ((exists c, is_slash c = true /\ raw = body +++ String c EmptyString)
     \/ (raw = body /\
         forall b c, raw = b +++ String c EmptyString -> is_slash c = false)) /\
    (endsWithExactlyOne (packageLocation info) sep <-> ~ endsWith body sep).
Proof.
  intros Hrun Hin.
  apply getPackageInformationStores_inv in Hrun.
  destruct Hrun as (root & dependencies & visited & Hreal & Hv & ->).
  assert (Hwf : wf_stores visited).
  { apply (visit_wf resolver _ _ _ _ _ _ Hv). apply wf_stores_nil. }
  assert (Hraw : exists raw,
    ((name = None /\ reference = None /\
      realpath (lockfileFolder config) fs = Some raw)
     \/ (exists n r parentData pattern pkg ref loc,
           name = Some n /\ reference = Some r /\
           getResolverEntry resolver pattern = Ok (Some (pkg, ref, loc)) /\
           pkg_name pkg = n /\ r = referenceIn parentData pkg /\
           raw = locationIn parentData pkg loc)) /\
    packageLocation info = normalizeLocation raw).
  { apply In_entries_get in Hin.
    2:{ apply wf_stores_set; [exact Hwf|]. repeat constructor. intros []. }
    rewrite stores_get_root in Hin. destruct name as [n|].
    - destruct reference as [r|].
      + assert (Hsrc : all_sourced resolver visited).
        { apply (visit_sourced resolver _ _ _ _ _ _ Hv).
          intros n0 r0 i0 Hnil. discriminate Hnil. }
        destruct (Hsrc _ _ _ Hin)
          as (pd & _ & _ & _ & _ & q & pkg & ref & loc & _ & _ & _
              & He & Hname & Href & Hloc).
        exists (locationIn pd pkg loc). split; [|exact Hloc].
        right. exists n, r, pd, q, pkg, ref, loc. repeat split; auto.
      + exfalso.
        destruct (visit_named resolver _ _ _ _ _ _ Hv) as [_ Hinner].
        { split; [reflexivity | intros n0 st []]. }
        cbn [fst] in Hinner. unfold stores_get in Hin.
        destruct (map_get visited (Some n)) as [store|] eqn:Hs; [|discriminate].
        apply map_get_In in Hs. rewrite (Hinner _ _ Hs) in Hin. discriminate.
    - cbn [map_get] in Hin. destruct (eq_dec reference None) as [->|]; [|discriminate].
      injection Hin as <-. exists root. split; [|reflexivity]. left. auto. }
  destruct Hraw as (raw & Hrecorded & Hraw). split.
  - rewrite Hraw. apply normalizeLocation_endsWith.
  - assert (Hbody : exists body,
      packageLocation info = body +++ String sep EmptyString /\
      ((exists c, is_slash c = true /\ raw = body +++ String c EmptyString)
       \/ (raw = body /\
           forall b c, raw = b +++ String c EmptyString -> is_slash c = false))).
    { rewrite Hraw.
      destruct (normalizeLocation_spec raw)
        as [(body & c & Heq & Hc & Hn) | [Hnone Hn]].
      - exists body. split; [exact Hn|]. left. exists c. auto.
      - exists raw. split; [exact Hn|]. right. auto. }
    destruct Hbody as (body & Hform & Hcases).
    exists raw, body. repeat split; auto.
    + intros (body' & Heq & Hnot) Hends. rewrite Hform in Heq.
      destruct (append_last_inj _ _ _ _ Heq) as [<- _]. contradiction.
    + intros Hnot. exists body. auto.
Qed.

End RecordedLocations.

(** ** Virtual references of packages with peer dependencies (C2) *)


Section Virtual.
Context `{Path} `{FileSystem}.
Variable resolver : string -> option Manifest.


End Virtual.

Section ReturnedStore.
Context `{Path} `{FileSystem}.
Variable resolver : string -> option Manifest.

(** The store [getPackageInformationStores] returns is a map of maps. *)
Lemma getPackageInformationStores_wf fuel config seedPatterns fs stores fs' :
  getPackageInformationStores resolver fuel config seedPatterns fs
    = Ok (stores, fs') ->
  wf_stores stores.
Proof.
  intros Hrun. apply getPackageInformationStores_inv in Hrun.
  destruct Hrun as (root & dependencies & visited & _ & Hv & ->).
  apply wf_stores_set.
  - apply (visit_wf resolver _ _ _ _ _ _ Hv). apply wf_stores_nil.
  - cbn. constructor; [intros [] | constructor].
Qed.

End ReturnedStore.

(* ================================================================== *)
(** * The properties on concrete dependency graphs *)

Import Scenario.

(** A table-driven resolver resolves a pattern to a manifest of its
    table. *)
Lemma resolverOf_In table pattern pkg :
  resolverOf table pattern = Some pkg -> In (pattern, pkg) table.
Proof. apply map_get_In. Qed.

(** ** C1 *)

(** The template has no marker, and [generatePnpMap] returns it for the
    graph of [simple]. *)
Lemma C1_witness :
  (forall before after, plainTemplate <> before +++ marker +++ after) /\
  generatePnpMap (resolverOf simple) plainTemplate 3 project ["root-dep"] noLinks
  = Ok (plainTemplate, noLinks).
Proof.
  assert (Hno : forall before after,
             plainTemplate <> before +++ marker +++ after).
  { apply findMarker_None. vm_compute. reflexivity. }
  split; [exact Hno|].
  rewrite (C1_template_without_marker_is_returned (resolverOf simple)
             plainTemplate 3 project ["root-dep"] noLinks Hno).
  vm_compute. reflexivity.
Defined.

(** On a template without marker and a project without dependencies,
    [generatePnpMap] does not fail: it returns an artifact, the template,
    in which no table was spliced. *)
Lemma C1_counterexample :
  (forall before after, plainTemplate <> before +++ marker +++ after) /\
  generatePnpMap (resolverOf []) plainTemplate 1 project [] noLinks
  = Ok (plainTemplate, noLinks).
Proof.
  split.
  - apply findMarker_None. vm_compute. reflexivity.
  - vm_compute. reflexivity.
Qed.

(** With the marker, the tables take its place. *)
Example generatePnpMap_with_marker :
  generatePnpMap (resolverOf []) "a;$$SETUP_STATIC_TABLES();b" 1 project [] noLinks
  = Ok ("a;" +++ generateMaps [(None, [(None,
                 {| packageLocation := "/proj/"; packageMainEntry := None;
                    packageDependencies := [] |})])]
         +++ generateFindPackageLocator [(None, [(None,
                 {| packageLocation := "/proj/"; packageMainEntry := None;
                    packageDependencies := [] |})])]
         +++ "b", noLinks).
Proof. vm_compute. reflexivity. Qed.

(** ** C2 *)

(** The scenario of the specification: [B] is stored twice, and each
    entry maps [P] to the version of its own scope. *)
Example peer_virtualization_distinctness :
  exists resolutions stores fs info1 info2,
    visit (resolverOf peerScopes) 3 ["a1"; "a2"] [] emptyWorld
    = Ok (resolutions, (stores, fs)) /\
    stores_get stores (Some "B") (Some (referenceIn ["A1"; "1.0.0"] pkgB))
    = Some info1 /\
    map_get (packageDependencies info1) "P" = Some "1.0.0" /\
    stores_get stores (Some "B") (Some (referenceIn ["A2"; "1.0.0"] pkgB))
    = Some info2 /\
    map_get (packageDependencies info2) "P" = Some "2.0.0".
Proof.
  do 5 eexists. split; [vm_compute; reflexivity|].
  split; [vm_compute; reflexivity|].
  split; [vm_compute; reflexivity|].
  split; vm_compute; reflexivity.
Qed.



(** ** C3 *)

Lemma forM_one {A S} (body : A -> S -> result S) x s :
  forM body [x] s = body x s.
Proof. cbn [forM]. now destruct (body x s). Qed.

Lemma stores_set_dependencies_keeps s name reference deps name' reference' :
  stores_get s name' reference' <> None ->
  stores_get (stores_set_dependencies s name reference deps) name' reference'
  <> None.
Proof.
  rewrite stores_get_set_dependencies.
  destruct (eq_dec _ _) as [[= -> ->]|]; [|auto].
  now destruct (stores_get s name reference).
Qed.

(** One level of the traversal of [peerCycle]: the seed is new to the
    store, so [visit] inserts it and recurses on its dependency. *)
Ltac traverse_level Hv fuel' Hrec Hstored Hstore :=
  apply visit_inv in Hv;
  let locs := fresh "locs" in
  let fs1 := fresh "fs" in
  let Hpre := fresh "Hpre" in
  let Hins := fresh "Hins" in
  destruct Hv as (fuel' & locs & fs1 & -> & Hpre & Hins);
  vm_compute in Hpre; injection Hpre as <- <- <-;
  rewrite forM_one in Hins;
  let loc := fresh "loc" in
  let direct := fresh "direct" in
  let deps := fresh "deps" in
  let visited := fresh "visited" in
  let Hloc := fresh "Hloc" in
  let Hf := fresh "Hf" in
  eapply insertion_new_inv in Hins;
  [ | reflexivity | reflexivity | vm_compute; reflexivity ];
  destruct Hins as (loc & direct & deps & visited & Hloc & Hf & Hrec & _ & _
                    & Hstored & Hstore);
  vm_compute in Hloc; injection Hloc as <-;
  vm_compute in Hf; injection Hf as <-.

(** C3, on the code.  For the cycle [A -> B -> A] in which [A] and [B]
    each declare a peer dependency, the reference of a package is
    computed from the reference of its parent, so the second occurrence
    of [A] gets a reference the store does not hold and is inserted and
    visited again: whenever [visit] returns, the store holds two entries
    for [A], and with fuel for 40 nested calls it has not returned. *)
Theorem C3_peer_cycle_is_not_cut :
  firstA <> secondA /\
  (forall fuel,
      match visit (resolverOf peerCycle) fuel ["a"] [] emptyWorld with
      | Ok (_, (stores, _)) =>
          stores_get stores (Some "A") (Some firstA) <> None /\
          stores_get stores (Some "A") (Some secondA) <> None
      | _ => True
      end) /\
  visit (resolverOf peerCycle) 40 ["a"] [] emptyWorld = OutOfFuel.
Proof.
  split; [vm_compute; discriminate|].
  split; [|vm_compute; reflexivity].
  intros fuel.
  destruct (visit (resolverOf peerCycle) fuel ["a"] [] emptyWorld)
    as [[resolutions [stores fs]]| |] eqn:Hv; [|exact I..].
  traverse_level Hv fuel1 Hrec1 Hstored1 Hstore1.
  traverse_level Hrec1 fuel2 Hrec2 Hstored2 Hstore2.
  traverse_level Hrec2 fuel3 Hrec3 Hstored3 Hstore3.
  cbn [fst snd] in *. split.
  - intros Hnone. vm_compute in Hnone, Hstored1. congruence.
  - rewrite Hstore1. apply stores_set_dependencies_keeps.
    rewrite Hstore2. apply stores_set_dependencies_keeps.
    intros Hnone. vm_compute in Hnone, Hstored3. congruence.
Qed.

(** Without peers the cycle is cut at the second occurrence of [A]: one
    entry for [A], one for [B], after three nested calls. *)
Example plain_cycle_terminates :
  visit (resolverOf plainCycle) 3 ["a"] [] emptyWorld
  = Ok ([("A", "1.0.0")],
        ([(Some "A", [(Some "1.0.0",
             {| packageLocation := "/cache/A-1.0.0/";
                packageMainEntry := Some "index.js";
                packageDependencies := [("B", "1.0.0")] |})]);
          (Some "B", [(Some "1.0.0",
             {| packageLocation := "/cache/B-1.0.0/";
                packageMainEntry := Some "index.js";
                packageDependencies := [("A", "1.0.0")] |})])],
         noLinks)).
Proof. vm_compute. reflexivity. Qed.

(** On [plainCycle] the identities are [A@1.0.0] and [B@1.0.0]: three
    nested calls are enough. *)
Lemma visit_terminates_without_peers_witness :
  visit (resolverOf plainCycle) 3 ["a"] [] emptyWorld <> OutOfFuel.
Proof.
  refine (visit_terminates_without_peers (resolverOf plainCycle)
            [("A", "1.0.0"); ("B", "1.0.0")] ["a"] emptyWorld _).
  intros pattern pkg Hres. apply resolverOf_In in Hres.
  repeat (destruct Hres as [[= <- <-]|Hres];
          [split; [reflexivity | cbn; auto]|]).
  destruct Hres.
Defined.

(** ** C4 and C7 *)

(** A file of [x] is matched to [x]; a file of [xy], which shares the
    text [/proj/node_modules/x] with it, and a file outside every
    registered location are not matched to [x]. *)
Example prefix_match_exactness :
  generatedFindPackageLocator apiTemplate siblingsStore
    "/proj/node_modules/x/lib/index.js"
  = Some (PackageLocator "x" (Some "1.0.0")) /\
  generatedFindPackageLocator apiTemplate siblingsStore
    "/proj/node_modules/xy/lib/index.js"
  = Some topLevelLocator /\
  generatedFindPackageLocator apiTemplate siblingsStore "/usr/lib/node/fs.js"
  = None.
Proof. repeat split; vm_compute; reflexivity. Qed.

Example lengths_by_frequency :
  locationLengths flatStore = [17; 16; 16; 6] /\
  lengths flatStore = [(17, 1); (16, 2); (6, 1)] /\
  sortedLengths flatStore = [(16, 2); (17, 1); (6, 1)].
Proof. repeat split; vm_compute; reflexivity. Qed.

(** ** C5 *)

(** The traversal of [simple] from the empty store. *)
Lemma C5_witness :
  exists resolutions w',
    visit (resolverOf simple) 3 ["root-dep"] [] emptyWorld = Ok (resolutions, w') /\
    forall name reference info1 info2,
      In (name, reference, info1) (entries (fst w')) ->
      In (name, reference, info2) (entries (fst w')) ->
      info1 = info2.
Proof.
  eexists. eexists. split; [vm_compute; reflexivity|].
  refine (proj1 (C5_store_deduplicates_and_only_grows (resolverOf simple)
                   3 ["root-dep"] [] emptyWorld _ _ wf_stores_nil _)).
  vm_compute. reflexivity.
Defined.

(** ** C6 *)

Example scopeOfA1_prepass :
  forM (prepass (resolverOf peerScopes) ["A1"; "1.0.0"]) ["b"; "p@1"]
       (([], []), noLinks)
  = Ok (scopeOfA1,
        [("/cache/B-1.0.0", locationIn ["A1"; "1.0.0"] pkgB "/cache/B-1.0.0")]).
Proof. vm_compute. reflexivity. Qed.

(** The iteration that inserts [B] in the scope of [A1]. *)
Lemma C6_witness :
  exists w' info,
    insertion (resolverOf peerScopes) (visit (resolverOf peerScopes) 2)
              scopeOfA1 "b" emptyWorld = Ok w' /\
    stores_get (fst w') (Some "B") (Some (referenceIn ["A1"; "1.0.0"] pkgB))
    = Some info /\
    map_get (packageDependencies info) "P" = Some "1.0.0".
Proof.
  eexists.
  destruct (C6_peers_injected_after_recursion (resolverOf peerScopes) 2
              scopeOfA1 "b" pkgB
              {| ref_location := Some "/cache/B-1.0.0"; ref_dependencies := [] |}
              "/cache/B-1.0.0"
              (referenceIn ["A1"; "1.0.0"] pkgB) [] noLinks
              _ eq_refl eq_refl eq_refl eq_refl)
    as (loc & direct & deps & visited & info & _ & _ & _ & _ & Hinfo & _ & Hpeer & _).
  exists info. split; [reflexivity|].
  split; [exact Hinfo|].
  rewrite (Hpeer "P" (or_introl eq_refl)). reflexivity.
Defined.

(** ** C8 *)

(** [optional] has no reference object: the seeds with and without it
    give the same result. *)
Lemma C8_witness :
  visit (resolverOf simple) 3 ["optional"; "root-dep"] [] emptyWorld
  = visit (resolverOf simple) 3 ["root-dep"] [] emptyWorld.
Proof.
  refine (proj2 (proj2
    (C8_unresolvable_pattern_skipped (resolverOf simple) "optional"
       {| pkg_name := "optional"; pkg_version := "1.0.0";
          pkg_main := None; pkg_peerDependencies := None;
          pkg_reference := None |} _ _)) 3 [] ["root-dep"] [] emptyWorld).
  - reflexivity.
  - left. reflexivity.
Defined.

(** ** C9 *)

(** The locations of the store of [simple], the project folder included. *)
Lemma C9_witness :
  exists stores fs',
    getPackageInformationStores (resolverOf simple) 3 project ["root-dep"] noLinks
    = Ok (stores, fs') /\
    forall name reference info,
      In (name, reference, info) (entries stores) ->
      endsWith (packageLocation info) "/"%char.
Proof.
  eexists. eexists. split; [vm_compute; reflexivity|].
  intros name reference info Hin.
  refine (proj1 (C9_locations_end_with_separator (resolverOf simple)
                   3 project ["root-dep"] noLinks _ _ name reference info _ Hin)).
  vm_compute. reflexivity.
Defined.

(** A location that ends with two slashes keeps two: the stored location
    does not end with exactly one separator. *)
Lemma C9_counterexample :
  exists stores fs' info,
    getPackageInformationStores (resolverOf doubleSlash) 2 project ["a"] noLinks
    = Ok (stores, fs') /\
    In (Some "a", Some "1.0.0", info) (entries stores) /\
    packageLocation info = "/cache/a//" /\
    ~ endsWithExactlyOne (packageLocation info) "/"%char.
Proof.
  eexists. eexists. eexists. split; [vm_compute; reflexivity|].
  split; [left; reflexivity|]. split; [reflexivity|].
  cbn [packageLocation]. intros (body & Heq & Hnot).
  destruct (append_last_inj "/cache/a/" body "/" "/" Heq) as [<- _].
  apply Hnot. exists "/cache/a". reflexivity.
Qed.

(** ** C10 *)

(** Every version of [simple] is non-empty and a resolved POSIX path
    begins with a slash: [visit] fails no invariant. *)
Lemma C10_witness :
  visit (resolverOf simple) 3 ["root-dep"; "optional"] [] emptyWorld
  <> Err (InvariantViolation referenceMessage).
Proof.
  refine (proj2 (C10_prepass_invariants_hold (resolverOf simple) _ _)
            3 ["root-dep"; "optional"] [] emptyWorld referenceMessage).
  - intros pattern pkg Hres. apply resolverOf_In in Hres.
    repeat (destruct Hres as [[= <- <-]|Hres]; [reflexivity|]).
    destruct Hres.
  - intros dir file. reflexivity.
Defined.

(** ** The literals and the marker *)

Example stringify_escapes :
  stringify ("a" +++ quote +++ "b" +++ backslash +++ nl)
  = quote +++ "a" +++ backslash +++ quote +++ "b" +++ backslash +++ backslash
          +++ backslash +++ "n" +++ quote.
Proof. vm_compute. reflexivity. Qed.

(** The tables of [simple] take the place of the first marker of
    [apiTemplate]; the second marker stays. *)
Lemma generatePnpMap_splices_tables_witness :
  generatePnpMap (resolverOf simple) apiTemplate 3 project ["root-dep"] noLinks
  = Ok (apiBefore
        +++ (generateMaps simpleStore +++ generateFindPackageLocator simpleStore)
        +++ apiAfter, noLinks).
Proof.
  apply (generatePnpMap_splices_tables (resolverOf simple) apiTemplate 3 project
           ["root-dep"] noLinks simpleStore noLinks apiBefore apiAfter).
  - vm_compute. reflexivity.
  - vm_compute. reflexivity.
  - vm_compute. reflexivity.
  - apply (findMarker_first apiTemplate apiBefore apiAfter).
    vm_compute. reflexivity.
Defined.

(** With a dollar sign in a location the text is not spliced as it is:
    [$$] in the replacement stands for one dollar sign. *)
Example dollars_are_expanded :
  replaceMarker marker (stringify "/cache/a$$b/") = stringify "/cache/a$b/" /\
  generatePnpMap (resolverOf dollars) marker 2 project ["a"] noLinks
  <> Ok (generateMaps dollarsStore +++ generateFindPackageLocator dollarsStore,
         noLinks).
Proof.
  split; [vm_compute; reflexivity|].
  intros Heq. vm_compute in Heq. discriminate Heq.
Qed.

(** ** The matcher *)

(** The tests go by frequency, not by length: in the store of [nested]
    the length of the project folder, met twice, is tested before the
    length of the folder of [x], and a file of [x] is matched to the
    top level. *)
Example matcher_prefers_frequent_lengths :
  map fst (sortedLengths nestedStore) = [6; 21] /\
  generatedFindPackageLocator apiTemplate nestedStore
    "/proj/node_modules/x/index.js"
  = Some topLevelLocator.
Proof. split; vm_compute; reflexivity. Qed.

(** ** The store *)

(** In the store of [peerScopes], the instance of [B] below [A1] depends
    on [P@1.0.0], which is an entry. *)
Lemma stored_dependencies_resolve_witness :
  exists target,
    stores_get peerScopesStore (Some "P") (Some "1.0.0") = Some target.
Proof.
  eapply (stored_dependencies_resolve (resolverOf peerScopes) 3 project
            ["a1"; "a2"] noLinks peerScopesStore _
            (Some "B") (Some (referenceIn ["A1"; "1.0.0"] pkgB)) _ "P" "1.0.0").
  - vm_compute. reflexivity.
  - vm_compute. reflexivity.
  - vm_compute. reflexivity.
Defined.

Lemma root_is_last_and_only_null_witness :
  exists root dependencies visited,
    realpath (lockfileFolder project) noLinks = Some root /\
    visit (resolverOf simple) 3 ["root-dep"] [] ([], noLinks)
      = Ok (dependencies, (visited, noLinks)) /\
    simpleStore = visited ++ [(None, [(None,
               {| packageLocation := normalizeLocation root;
                  packageMainEntry := None;
                  packageDependencies := dependencies |})])] /\
    forall name reference info,
      In (name, reference, info) (entries visited) ->
      exists n r, name = Some n /\ reference = Some r.
Proof.
  apply (root_is_last_and_only_null (resolverOf simple) 3 project ["root-dep"]
           noLinks simpleStore noLinks).
  vm_compute. reflexivity.
Defined.

(** The two seeds of [sameName] are both named [foo]: the entry has the
    reference and the location of the second and the dependencies of the
    first, and the version of the first has no entry. *)
Example same_name_seeds :
  stores_get sameNameStore (Some "foo") (Some "2.0.0")
  = Some {| packageLocation := "/cache/foo-2/";
            packageMainEntry := Some "index.js";
            packageDependencies := [("lib", "2.0.0")] |} /\
  stores_get sameNameStore (Some "foo") (Some "1.0.0") = None.
Proof. split; vm_compute; reflexivity. Qed.

Lemma entries_come_from_the_resolver_witness :
  sourced (resolverOf sameName) "foo" "2.0.0"
    {| packageLocation := "/cache/foo-2/";
       packageMainEntry := Some "index.js";
       packageDependencies := [("lib", "2.0.0")] |}.
Proof.
  eapply (entries_come_from_the_resolver (resolverOf sameName) 3 project
            ["foo@1"; "foo@2"] noLinks sameNameStore _ "foo" "2.0.0").
  - vm_compute. reflexivity.
  - vm_compute. reflexivity.
Defined.

(** ** The traversal *)

Lemma visit_succeeds_without_peers_witness :
  exists resolutions stores,
    visit (resolverOf plainCycle) 3 ["a"] [] emptyWorld
    = Ok (resolutions, (stores, noLinks)).
Proof.
  refine (visit_succeeds_without_peers (resolverOf plainCycle) _
            [("A", "1.0.0"); ("B", "1.0.0")] ["a"] emptyWorld _ _).
  - intros pattern pkg Hres. apply resolverOf_In in Hres.
    repeat (destruct Hres as [[= <- <-]|Hres];
            [split; [reflexivity|]; split; [reflexivity|];
             intros ref d [= <-] [<-|[]]; vm_compute; discriminate|]).
    destruct Hres.
  - intros pattern pkg Hres. apply resolverOf_In in Hres.
    repeat (destruct Hres as [[= <- <-]|Hres]; [cbn; auto|]).
    destruct Hres.
  - intros p [<-|[]]. vm_compute. discriminate.
Defined.

(** [optional] has no location and is not bound; [root-dep] is. *)
Lemma visit_returns_seed_references_witness :
  exists resolutions w',
    visit (resolverOf simple) 3 ["optional"; "root-dep"] [] emptyWorld
    = Ok (resolutions, w') /\
    resolutions = [("root-dep", "1.0.0")] /\
    NoDup (map_keys resolutions) /\
    (forall name reference,
        map_get resolutions name = Some reference ->
        exists pattern pkg ref loc,
          In pattern ["optional"; "root-dep"] /\
          getResolverEntry (resolverOf simple) pattern = Ok (Some (pkg, ref, loc)) /\
          pkg_name pkg = name /\ reference = referenceIn [] pkg) /\
    (forall pattern pkg ref loc,
        In pattern ["optional"; "root-dep"] ->
        getResolverEntry (resolverOf simple) pattern = Ok (Some (pkg, ref, loc)) ->
        exists reference, map_get resolutions (pkg_name pkg) = Some reference).
Proof.
  eexists. eexists. split; [vm_compute; reflexivity|].
  split; [reflexivity|].
  refine (visit_returns_seed_references (resolverOf simple) 3
            ["optional"; "root-dep"] [] emptyWorld _ _ _).
  vm_compute. reflexivity.
Defined.

Lemma unknown_seed_throws_witness :
  exists e,
    visit (resolverOf simple) 1 ["root-dep"; "missing"] [] emptyWorld = Err e /\
    ((exists p, In p ["root-dep"; "missing"] /\ resolverOf simple p = None /\
                e = ResolverFailure p)
     \/ (exists src dest, e = SymlinkFailure src dest)).
Proof.
  apply (unknown_seed_throws (resolverOf simple) 0 ["root-dep"; "missing"] []
           emptyWorld "missing").
  - right. left. reflexivity.
  - reflexivity.
Defined.

(** ** Locations *)

Lemma normalizeLocation_idempotent_witness :
  normalizeLocation (normalizeLocation "/cache/a") = normalizeLocation "/cache/a".
Proof. apply normalizeLocation_idempotent. reflexivity. Defined.

(** The entry of [A1] in the store of [peerScopes]. *)
Lemma dependencies_are_the_declared_ones_witness :
  exists info,
    stores_get peerScopesStore (Some "A1") (Some "1.0.0") = Some info /\
    declared (resolverOf peerScopes) "A1" info.
Proof.
  eexists. split; [vm_compute; reflexivity|].
  eapply (dependencies_are_the_declared_ones (resolverOf peerScopes) 3 project
            ["a1"; "a2"] noLinks peerScopesStore _ "A1" "1.0.0");
    vm_compute; reflexivity.
Defined.

(** ** The generated file *)

(** A string with a character above 127 is hashed as its UTF-8 bytes. *)
Example sha1_two_bytes :
  SHA1.digest_hex (String (ascii_of_nat 233) EmptyString)
  = "bf15be717ac1b080b4f1c456692825891ff5073d".
Proof. vm_compute. reflexivity. Qed.



(** The store of [flat] is a map of maps. *)
Lemma C7_witness :
  NoDup (map fst (sortedLengths flatStore)) /\
  readFindPackageLocator (generateFindPackageLocator flatStore +++ EmptyString)
  = Some (map fst (sortedLengths flatStore), EmptyString).
Proof.
  assert (Hwf : wf_stores flatStore).
  { apply (getPackageInformationStores_wf (resolverOf flat) 2 project
             ["lib"; "aa"; "bb"] noLinks flatStore noLinks).
    vm_compute. reflexivity. }
  pose proof (C7_length_tests_by_descending_frequency flatStore Hwf)
    as (_ & Hnd & _ & Hread).
  split; [exact Hnd | apply Hread].
Defined.

Example tests_of_flat :
  map fst (sortedLengths flatStore) = [16; 17; 6] /\
  metBefore flatStore 17 6.
Proof.
  split; [vm_compute; reflexivity|].
  split; [discriminate|].
  exists [], (Some "lib"),
         [(Some "2.0.0", {| packageLocation := "/cache/lib-2.0.0/";
                            packageMainEntry := Some "index.js";
                            packageDependencies := [] |})].
  eexists. exists [], (Some "2.0.0"). eexists. exists [].
  split; [vm_compute; reflexivity|]. split; [reflexivity|].
  split; [reflexivity|]. split; [intros n st r i [] | intros r i []].
Qed.

(** In the store of [flat] one location begins the path. *)
Lemma findPackageLocator_finds_witness :
  generatedFindPackageLocator apiTemplate flatStore "/cache/lib-2.0.0/index.js"
  = Some (PackageLocator "lib" (Some "2.0.0")).
Proof.
  refine (proj2 (findPackageLocator_finds apiTemplate apiBefore apiAfter
                   flatStore "/cache/lib-2.0.0/index.js"
                   (Some "lib") (Some "2.0.0")
                   {| packageLocation := "/cache/lib-2.0.0/";
                      packageMainEntry := Some "index.js";
                      packageDependencies := [] |}
                   "index.js" _ _ _ _ _) _).
  - vm_compute. reflexivity.
  - vm_compute. reflexivity.
  - vm_compute. auto.
  - exists "/cache/lib-2.0.0". reflexivity.
  - reflexivity.
  - intros name' reference' info' rest' Hin Hpath. vm_compute in Hin.
    repeat (destruct Hin as [[= <- <- <-]|Hin];
            [first [reflexivity | discriminate Hpath]|]).
    destruct Hin.
Defined.

(** The file generated for [peerScopes] from [apiTemplate]. *)
Lemma generated_file_holds_the_store_witness :
  exists text,
    generatePnpMap (resolverOf peerScopes) apiTemplate 3 project ["a1"; "a2"]
      noLinks
    = Ok (apiBefore +++ text,
          [("/cache/B-1.0.0", locationIn ["A2"; "1.0.0"] pkgB "/cache/B-1.0.0");
           ("/cache/B-1.0.0", locationIn ["A1"; "1.0.0"] pkgB "/cache/B-1.0.0")]) /\
    readTables text
    = Some ((withoutEmptyMain peerScopesStore,
             locatorsByLocations peerScopesStore,
             map fst (sortedLengths peerScopesStore)), apiAfter).
Proof.
  apply (generated_file_holds_the_store (resolverOf peerScopes) apiTemplate 3
           project ["a1"; "a2"] noLinks peerScopesStore).
  - vm_compute. reflexivity.
  - vm_compute. reflexivity.
  - vm_compute. reflexivity.
  - apply (findMarker_first apiTemplate apiBefore apiAfter).
    vm_compute. reflexivity.
Defined.
